(** * A shallow embedding of [bson/timestamp.js]

    The source file defines [exports.Timestamp], a 64-bit two's-complement
    integer kept as two signed 32-bit words ([low_], [high_]).  JavaScript
    numbers are IEEE-754 binary64 values; they are modelled by the Standard
    Library's [spec_float] with [prec = 53] and [emax = 1024].  Variables the
    source only ever fills with 32-bit (or smaller) integers are kept as [Z],
    with the conversions [ToInt32]/[ToUint32] of the bit operators written
    out. *)

From Stdlib Require Import ZArith Lia Bool List String Ascii SpecFloat.
Import ListNotations.
Local Open Scope Z_scope.

(** ** 32-bit integer operators of the host language *)

Module JS.

(** [x | 0] on an integer-valued number: two's-complement wrap to 32 bits. *)
Definition toInt32 (z : Z) : Z := (z + 2^31) mod 2^32 - 2^31.

(** The unsigned reading used by [>>>]. *)
Definition toUint32 (z : Z) : Z := z mod 2^32.

Definition and (a b : Z) : Z := toInt32 (Z.land (toInt32 a) (toInt32 b)).
Definition or (a b : Z) : Z := toInt32 (Z.lor (toInt32 a) (toInt32 b)).
Definition xor (a b : Z) : Z := toInt32 (Z.lxor (toInt32 a) (toInt32 b)).
Definition not (a : Z) : Z := toInt32 (Z.lnot (toInt32 a)).

(** Shift counts are taken modulo 32. *)
Definition shl (a n : Z) : Z := toInt32 (Z.shiftl (toInt32 a) (Z.land n 31)).
Definition shr (a n : Z) : Z := Z.shiftr (toInt32 a) (Z.land n 31).
Definition ushr (a n : Z) : Z := Z.shiftr (toUint32 a) (Z.land n 31).

End JS.

(** ** Numbers of the host language: binary64 *)

Definition number : Type := spec_float.

Module Num.

Definition prec : Z := 53.
Definition emax : Z := 1024.

Definition add : number -> number -> number := SFadd prec emax.
Definition sub : number -> number -> number := SFsub prec emax.
Definition mul : number -> number -> number := SFmul prec emax.
Definition div : number -> number -> number := SFdiv prec emax.
Definition neg : number -> number := SFopp.

(** [a < b], [a <= b]; [a >= b] is [leb b a] (all false on NaN). *)
Definition ltb : number -> number -> bool := SFltb.
Definition leb : number -> number -> bool := SFleb.

(** The number an integer literal or a 32-bit word denotes (exact up to
    2^53 in magnitude, rounded to nearest-even beyond). *)
Definition ofZ (z : Z) : number := binary_normalize prec emax z 0 false.

Definition isNaN (x : number) : bool :=
  match x with S754_nan => true | _ => false end.

Definition isFinite (x : number) : bool :=
  match x with S754_nan | S754_infinity _ => false | _ => true end.

(** Truthiness of a number in [a || b]: [NaN], [+0] and [-0] are falsy. *)
Definition truthy (x : number) : bool :=
  match x with S754_nan | S754_zero _ => false | _ => true end.

(** The mantissa with its sign. *)
Definition signed (s : bool) (m : positive) : Z := cond_Zopp s (Zpos m).

(** Integer part, rounding toward zero, of a finite number. *)
Definition truncZ (x : number) : Z :=
  match x with
  | S754_finite s m e =>
      if 0 <=? e then signed s m * 2 ^ e
      else cond_Zopp s (Zpos m / 2 ^ (- e))
  | _ => 0
  end.

(** [ToInt32]: the conversion applied by [x | 0]. *)
Definition ToInt32 (x : number) : Z := JS.toInt32 (truncZ x).

(** [ToInteger] for the finite radix arguments used here. *)
Definition ToInteger (x : number) : Z := truncZ x.

Definition Math_floor (x : number) : number :=
  match x with
  | S754_finite s m e =>
      if 0 <=? e then x else ofZ (signed s m / 2 ^ (- e))
  | _ => x
  end.

Definition Math_ceil (x : number) : number :=
  match x with
  | S754_finite s m e =>
      if 0 <=? e then x
      else
        let c := - ((- signed s m) / 2 ^ (- e)) in
        if c =? 0 then S754_zero s else ofZ c
  | _ => x
  end.

Definition Math_max (a b : number) : number :=
  match SFcompare a b with
  | None => S754_nan
  | Some Lt => b
  | Some Gt => a
  | Some Eq => match a with S754_zero true => b | _ => a end
  end.

(** [x % y]: the remainder has the sign of the dividend and is exact. *)
Definition rem (x y : number) : number :=
  match x, y with
  | S754_nan, _ | _, S754_nan => S754_nan
  | S754_infinity _, _ => S754_nan
  | _, S754_zero _ => S754_nan
  | _, S754_infinity _ => x
  | S754_zero _, _ => x
  | S754_finite sx mx ex, S754_finite sy my ey =>
      let e := Z.min ex ey in
      let X := Zpos mx * 2 ^ (ex - e) in
      let Y := Zpos my * 2 ^ (ey - e) in
      binary_normalize prec emax (cond_Zopp sx (X mod Y)) e sx
  end.

(** [Math.LN2], the double nearest to ln 2. *)
Definition Math_LN2 : number := S754_finite false 6243314768165359 (-53).

End Num.


(** ** The value type *)

Record Timestamp : Type := mkTimestamp { low_ : Z; high_ : Z }.

(** The constructor forces both words into 32 signed bits. *)
Definition new_Timestamp (low high : Z) : Timestamp :=
  {| low_ := JS.or low 0; high_ := JS.or high 0 |}.

Definition fromBits (lowBits highBits : Z) : Timestamp :=
  new_Timestamp lowBits highBits.

(** [fromInt] consults [INT_CACHE_] for values in [-128, 128); a cached entry
    is the object an earlier call built from the same argument, so the value
    returned is the one built here. *)
Definition fromInt (value : Z) : Timestamp :=
  new_Timestamp (JS.or value 0) (if value <? 0 then -1 else 0).

Definition TWO_PWR_16_DBL_ : number := Num.ofZ (JS.shl 1 16).
Definition TWO_PWR_24_DBL_ : number := Num.ofZ (JS.shl 1 24).
Definition TWO_PWR_32_DBL_ : number := Num.mul TWO_PWR_16_DBL_ TWO_PWR_16_DBL_.
Definition TWO_PWR_31_DBL_ : number := Num.div TWO_PWR_32_DBL_ (Num.ofZ 2).
Definition TWO_PWR_48_DBL_ : number := Num.mul TWO_PWR_32_DBL_ TWO_PWR_16_DBL_.
Definition TWO_PWR_64_DBL_ : number := Num.mul TWO_PWR_32_DBL_ TWO_PWR_32_DBL_.
Definition TWO_PWR_63_DBL_ : number := Num.div TWO_PWR_64_DBL_ (Num.ofZ 2).

Definition ZERO : Timestamp := fromInt 0.
Definition ONE : Timestamp := fromInt 1.
Definition NEG_ONE : Timestamp := fromInt (-1).
Definition MAX_VALUE : Timestamp :=
  fromBits (JS.or 4294967295 0) (JS.or 2147483647 0).
Definition MIN_VALUE : Timestamp := fromBits 0 (JS.or 2147483648 0).
Definition TWO_PWR_24_ : Timestamp := fromInt (JS.shl 1 24).

(** Both words inside the signed 32-bit range: what the constructor
    establishes for every object the program builds. *)
Definition wf (x : Timestamp) : Prop :=
  (- 2^31 <= low_ x < 2^31) /\ (- 2^31 <= high_ x < 2^31).

(** The 64-bit integer a word pair stands for. *)
Definition toZ (x : Timestamp) : Z :=
  JS.toInt32 (high_ x) * 2^32 + JS.toUint32 (low_ x).

(** Signed 64-bit wrap-around. *)
Definition wrap64 (z : Z) : Z := (z + 2^63) mod 2^64 - 2^63.

Definition toInt (x : Timestamp) : Z := low_ x.
Definition getHighBits (x : Timestamp) : Z := high_ x.
Definition getLowBits (x : Timestamp) : Z := low_ x.

Definition getLowBitsUnsigned (x : Timestamp) : number :=
  if 0 <=? low_ x then Num.ofZ (low_ x)
  else Num.add TWO_PWR_32_DBL_ (Num.ofZ (low_ x)).

Definition toNumber (x : Timestamp) : number :=
  Num.add (Num.mul (Num.ofZ (high_ x)) TWO_PWR_32_DBL_) (getLowBitsUnsigned x).

Definition isZero (x : Timestamp) : bool :=
  (high_ x =? 0) && (low_ x =? 0).
Definition isNegative (x : Timestamp) : bool := high_ x <? 0.
Definition isOdd (x : Timestamp) : bool := JS.and (low_ x) 1 =? 1.
Definition equals (x other : Timestamp) : bool :=
  (high_ x =? high_ other) && (low_ x =? low_ other).
Definition notEquals (x other : Timestamp) : bool :=
  negb (high_ x =? high_ other) || negb (low_ x =? low_ other).

Definition not (x : Timestamp) : Timestamp :=
  fromBits (JS.not (low_ x)) (JS.not (high_ x)).

(** [add]: four 16-bit chunks per operand, summed with carries. *)
Definition add (x other : Timestamp) : Timestamp :=
  let a48 := JS.ushr (high_ x) 16 in
  let a32 := JS.and (high_ x) 65535 in
  let a16 := JS.ushr (low_ x) 16 in
  let a00 := JS.and (low_ x) 65535 in
  let b48 := JS.ushr (high_ other) 16 in
  let b32 := JS.and (high_ other) 65535 in
  let b16 := JS.ushr (low_ other) 16 in
  let b00 := JS.and (low_ other) 65535 in
  let c48 := 0 in let c32 := 0 in let c16 := 0 in let c00 := 0 in
  let c00 := c00 + (a00 + b00) in
  let c16 := c16 + JS.ushr c00 16 in
  let c00 := JS.and c00 65535 in
  let c16 := c16 + (a16 + b16) in
  let c32 := c32 + JS.ushr c16 16 in
  let c16 := JS.and c16 65535 in
  let c32 := c32 + (a32 + b32) in
  let c48 := c48 + JS.ushr c32 16 in
  let c32 := JS.and c32 65535 in
  let c48 := c48 + (a48 + b48) in
  let c48 := JS.and c48 65535 in
  fromBits (JS.or (JS.shl c16 16) c00) (JS.or (JS.shl c48 16) c32).

Definition negate (x : Timestamp) : Timestamp :=
  if equals x MIN_VALUE then MIN_VALUE else add (not x) ONE.

Definition subtract (x other : Timestamp) : Timestamp :=
  add x (negate other).

(** [compare]: 0 if equal, 1 if [x] is greater, -1 if [other] is. *)
Definition compare (x other : Timestamp) : Z :=
  if equals x other then 0
  else
    let thisNeg := isNegative x in
    let otherNeg := isNegative other in
    if thisNeg && negb otherNeg then -1
    else if negb thisNeg && otherNeg then 1
    else if isNegative (subtract x other) then -1 else 1.

Definition lessThan (x other : Timestamp) : bool := compare x other <? 0.
Definition lessThanOrEqual (x other : Timestamp) : bool := compare x other <=? 0.
Definition greaterThan (x other : Timestamp) : bool := compare x other >? 0.
Definition greaterThanOrEqual (x other : Timestamp) : bool := compare x other >=? 0.

(** [fromNumber]: the negative branch calls the function once more on the
    negated argument; [fuel] bounds that recursion. *)
Fixpoint fromNumber_fuel (fuel : nat) (value : number) : option Timestamp :=
  match fuel with
  | O => None
  | S fuel =>
      if Num.isNaN value || negb (Num.isFinite value) then Some ZERO
      else if Num.leb value (Num.neg TWO_PWR_63_DBL_) then Some MIN_VALUE
      else if Num.leb TWO_PWR_63_DBL_ (Num.add value (Num.ofZ 1)) then Some MAX_VALUE
      else if Num.ltb value (Num.ofZ 0) then
        option_map negate (fromNumber_fuel fuel (Num.neg value))
      else
        Some (new_Timestamp
                (Num.ToInt32 (Num.rem value TWO_PWR_32_DBL_))
                (Num.ToInt32 (Num.div value TWO_PWR_32_DBL_)))
  end.

(** Two rounds always suffice (lemma [fromNumber_fuel_enough]). *)
Definition fromNumber (value : number) : Timestamp :=
  match fromNumber_fuel 2 value with Some t => t | None => ZERO end.

(** The 4x4 partial products of [multiply]. *)
Definition multiply_chunks (x other : Timestamp) : Timestamp :=
  let a48 := JS.ushr (high_ x) 16 in
  let a32 := JS.and (high_ x) 65535 in
  let a16 := JS.ushr (low_ x) 16 in
  let a00 := JS.and (low_ x) 65535 in
  let b48 := JS.ushr (high_ other) 16 in
  let b32 := JS.and (high_ other) 65535 in
  let b16 := JS.ushr (low_ other) 16 in
  let b00 := JS.and (low_ other) 65535 in
  let c48 := 0 in let c32 := 0 in let c16 := 0 in let c00 := 0 in
  let c00 := c00 + a00 * b00 in
  let c16 := c16 + JS.ushr c00 16 in
  let c00 := JS.and c00 65535 in
  let c16 := c16 + a16 * b00 in
  let c32 := c32 + JS.ushr c16 16 in
  let c16 := JS.and c16 65535 in
  let c16 := c16 + a00 * b16 in
  let c32 := c32 + JS.ushr c16 16 in
  let c16 := JS.and c16 65535 in
  let c32 := c32 + a32 * b00 in
  let c48 := c48 + JS.ushr c32 16 in
  let c32 := JS.and c32 65535 in
  let c32 := c32 + a16 * b16 in
  let c48 := c48 + JS.ushr c32 16 in
  let c32 := JS.and c32 65535 in
  let c32 := c32 + a00 * b32 in
  let c48 := c48 + JS.ushr c32 16 in
  let c32 := JS.and c32 65535 in
  let c48 := c48 + (a48 * b00 + a32 * b16 + a16 * b32 + a00 * b48) in
  let c48 := JS.and c48 65535 in
  fromBits (JS.or (JS.shl c16 16) c00) (JS.or (JS.shl c48 16) c32).

(** [multiply]: [fuel] bounds the recursion through the sign cases. *)
Fixpoint multiply_fuel (fuel : nat) (x other : Timestamp) : option Timestamp :=
  match fuel with
  | O => None
  | S fuel =>
      if isZero x then Some ZERO
      else if isZero other then Some ZERO
      else if equals x MIN_VALUE then
        Some (if isOdd other then MIN_VALUE else ZERO)
      else if equals other MIN_VALUE then
        Some (if isOdd x then MIN_VALUE else ZERO)
      else if isNegative x then
        if isNegative other then multiply_fuel fuel (negate x) (negate other)
        else option_map negate (multiply_fuel fuel (negate x) other)
      else if isNegative other then
        option_map negate (multiply_fuel fuel x (negate other))
      else if lessThan x TWO_PWR_24_ && lessThan other TWO_PWR_24_ then
        Some (fromNumber (Num.mul (toNumber x) (toNumber other)))
      else Some (multiply_chunks x other)
  end.

(** Three rounds always suffice (lemma [multiply_fuel_enough]). *)
Definition multiply (x other : Timestamp) : Timestamp :=
  match multiply_fuel 3 x other with Some t => t | None => ZERO end.

Definition and (x other : Timestamp) : Timestamp :=
  fromBits (JS.and (low_ x) (low_ other)) (JS.and (high_ x) (high_ other)).
Definition or (x other : Timestamp) : Timestamp :=
  fromBits (JS.or (low_ x) (low_ other)) (JS.or (high_ x) (high_ other)).
Definition xor (x other : Timestamp) : Timestamp :=
  fromBits (JS.xor (low_ x) (low_ other)) (JS.xor (high_ x) (high_ other)).

Definition shiftLeft (x : Timestamp) (numBits : Z) : Timestamp :=
  let numBits := JS.and numBits 63 in
  if numBits =? 0 then x
  else
    let low := low_ x in
    if numBits <? 32 then
      let high := high_ x in
      fromBits (JS.shl low numBits)
               (JS.or (JS.shl high numBits) (JS.ushr low (32 - numBits)))
    else fromBits 0 (JS.shl low (numBits - 32)).

Definition shiftRight (x : Timestamp) (numBits : Z) : Timestamp :=
  let numBits := JS.and numBits 63 in
  if numBits =? 0 then x
  else
    let high := high_ x in
    if numBits <? 32 then
      let low := low_ x in
      fromBits (JS.or (JS.ushr low numBits) (JS.shl high (32 - numBits)))
               (JS.shr high numBits)
    else fromBits (JS.shr high (numBits - 32)) (if 0 <=? high then 0 else -1).

Definition shiftRightUnsigned (x : Timestamp) (numBits : Z) : Timestamp :=
  let numBits := JS.and numBits 63 in
  if numBits =? 0 then x
  else
    let high := high_ x in
    if numBits <? 32 then
      let low := low_ x in
      fromBits (JS.or (JS.ushr low numBits) (JS.shl high (32 - numBits)))
               (JS.ushr high numBits)
    else if numBits =? 32 then fromBits high 0
    else fromBits (JS.ushr high (numBits - 32)) 0.

(** The scanning loop of [getNumBitsAbs]: [bit] runs from 31 down to 1 and
    stops at the first set bit of [val]; the value left in [bit] is returned
    (0 when the loop runs off the end). *)
Fixpoint numBitsLoop (val : Z) (bit : nat) : Z :=
  match bit with
  | O => 0
  | S bit' =>
      if negb (JS.and val (JS.shl 1 (Z.of_nat bit)) =? 0) then Z.of_nat bit
      else numBitsLoop val bit'
  end.

Fixpoint getNumBitsAbs_fuel (fuel : nat) (x : Timestamp) : option Z :=
  match fuel with
  | O => None
  | S fuel =>
      if isNegative x then
        if equals x MIN_VALUE then Some 64
        else getNumBitsAbs_fuel fuel (negate x)
      else
        let val := if negb (high_ x =? 0) then high_ x else low_ x in
        let bit := numBitsLoop val 31 in
        Some (if negb (high_ x =? 0) then bit + 33 else bit + 1)
  end.


(** ** Errors and partial results *)

(** The four [throw Error(...)] sites of the file. *)
Inductive error : Type :=
| EmptyStringError      (* 'number format error: empty string' *)
| RadixError            (* 'radix out of range: ' + radix *)
| InteriorMinusError    (* 'number format error: interior "-" character: ' + str *)
| DivisionByZero.       (* 'division by zero' *)

Definition is_format_error (e : error) : bool :=
  match e with DivisionByZero => false | _ => true end.

(** What a call does: return, throw, or still be running when the fuel
    granted to its loops and recursive calls is used up. *)
Inductive outcome (A : Type) : Type :=
| Ret (a : A)
| Throw (e : error)
| OutOfFuel.

Arguments Ret {A} a.
Arguments Throw {A} e.
Arguments OutOfFuel {A}.

Definition bind {A B : Type} (c : outcome A) (k : A -> outcome B) : outcome B :=
  match c with
  | Ret a => k a
  | Throw e => Throw e
  | OutOfFuel => OutOfFuel
  end.

Notation "x <- c ;; k" := (bind c (fun x => k))
  (at level 61, c at next level, right associativity).

(** ** String functions of the host language *)

Module Str.

Definition code (c : ascii) : Z := Z.of_N (N_of_ascii c).

(** Value of a digit character, in any radix up to 36. *)
Definition digit_of (c : ascii) : option Z :=
  let n := code c in
  if (48 <=? n) && (n <=? 57) then Some (n - 48)
  else if (97 <=? n) && (n <=? 122) then Some (n - 87)
  else if (65 <=? n) && (n <=? 90) then Some (n - 55)
  else None.

Definition digit_char (d : Z) : ascii :=
  ascii_of_N (Z.to_N (if d <? 10 then 48 + d else 87 + d)).

(** White space skipped by [parseInt] (the code units below 256). *)
Definition is_space (c : ascii) : bool :=
  let n := code c in
  ((9 <=? n) && (n <=? 13)) || (n =? 32) || (n =? 160).

Fixpoint trim_left (s : string) : string :=
  match s with
  | String c r => if is_space c then trim_left r else s
  | EmptyString => s
  end.

(** The longest prefix of radix-[R] digits, read as an integer. *)
Fixpoint parse_digits (R : Z) (s : string) (acc : option Z) : option Z :=
  match s with
  | EmptyString => acc
  | String c r =>
      match digit_of c with
      | Some d =>
          if d <? R then
            parse_digits R r
              (Some (match acc with Some a => a * R + d | None => d end))
          else acc
      | None => acc
      end
  end.

Definition is_x (c : ascii) : bool := (code c =? 120) || (code c =? 88).

(** [parseInt(string, radix)]. *)
Definition parseInt (s : string) (radix : number) : number :=
  let inputS := trim_left s in
  let '(negative, inputS) :=
    match inputS with
    | String c r =>
        if code c =? 45 then (true, r)
        else if code c =? 43 then (false, r) else (false, inputS)
    | EmptyString => (false, inputS)
    end in
  let R := Num.ToInt32 radix in
  if negb (R =? 0) && ((R <? 2) || (36 <? R)) then S754_nan
  else
    let stripPrefix := (R =? 0) || (R =? 16) in
    let R := if R =? 0 then 10 else R in
    let '(R, inputS) :=
      match inputS with
      | String c0 (String c1 r) =>
          if stripPrefix && (code c0 =? 48) && is_x c1 then (16, r)
          else (R, inputS)
      | _ => (R, inputS)
      end in
    match parse_digits R inputS None with
    | None => S754_nan
    | Some z => if negative then Num.neg (Num.ofZ z) else Num.ofZ z
    end.

(** Digits of a non-negative integer, most significant first. *)
Fixpoint digits_fuel (fuel : nat) (R n : Z) (acc : string) : string :=
  match fuel with
  | O => acc
  | S fuel =>
      let acc := String (digit_char (n mod R)) acc in
      if n / R =? 0 then acc else digits_fuel fuel R (n / R) acc
  end.

(** [n.toString(radix)] for a 32-bit integer [n] and a radix the caller has
    checked to lie in [2, 36]: at most 32 digits. *)
Definition int_toString (n : Z) (radix : number) : string :=
  let R := Num.ToInteger radix in
  if n <? 0 then String "-"%char (digits_fuel 32 R (- n) EmptyString)
  else digits_fuel 32 R n EmptyString.

Definition starts_with_minus (s : string) : bool :=
  match s with String c _ => code c =? 45 | EmptyString => false end.

(** [str.indexOf('-') >= 0]. *)
Fixpoint has_minus (s : string) : bool :=
  match s with
  | String c r => (code c =? 45) || has_minus r
  | EmptyString => false
  end.

(** [while (digits.length < 6) digits = '0' + digits]. *)
Fixpoint pad6 (fuel : nat) (digits : string) : string :=
  match fuel with
  | O => digits
  | S fuel =>
      if (Z.of_nat (String.length digits) <? 6)
      then pad6 fuel (String "0"%char digits) else digits
  end.

End Str.

(** [opt_radix || 10]: an absent, zero or NaN radix selects the default. *)
Definition or_default (opt : option number) (d : number) : number :=
  match opt with
  | Some r => if Num.truthy r then r else d
  | None => d
  end.

Section Host.

(** [Math.log] and [Math.pow] are implementation-approximated in the host
    language; the program is embedded over any pair of them. *)
Variable Math_log : number -> number.
Variable Math_pow : number -> number -> number.

(** The inner [while] of [div]: lower [approx] by [delta] until the product
    with [other] is non-negative and at most [rem]. *)
Fixpoint div_adjust (fuel : nat) (rem other : Timestamp) (delta approx : number)
    (approxRes approxRem : Timestamp) : outcome (Timestamp * Timestamp) :=
  match fuel with
  | O => OutOfFuel
  | S fuel =>
      if isNegative approxRem || greaterThan approxRem rem then
        let approx := Num.sub approx delta in
        let approxRes := fromNumber approx in
        let approxRem := multiply approxRes other in
        div_adjust fuel rem other delta approx approxRes approxRem
      else Ret (approxRes, approxRem)
  end.

(** The outer [while] of [div], for non-negative operands. *)
Fixpoint div_loop (fuel : nat) (other res rem : Timestamp) : outcome Timestamp :=
  match fuel with
  | O => OutOfFuel
  | S fuel =>
      if greaterThanOrEqual rem other then
        let approx :=
          Num.Math_max (Num.ofZ 1)
            (Num.Math_floor (Num.div (toNumber rem) (toNumber other))) in
        let log2 := Num.Math_ceil (Num.div (Math_log approx) Num.Math_LN2) in
        let delta :=
          if Num.leb log2 (Num.ofZ 48) then Num.ofZ 1
          else Math_pow (Num.ofZ 2) (Num.sub log2 (Num.ofZ 48)) in
        let approxRes := fromNumber approx in
        let approxRem := multiply approxRes other in
        adjusted <-
           div_adjust fuel rem other delta approx approxRes approxRem ;;
        let '(approxRes, approxRem) := adjusted in
        let approxRes := if isZero approxRes then ONE else approxRes in
        div_loop fuel other (add res approxRes) (subtract rem approxRem)
      else Ret res
  end.

Fixpoint div_fuel (fuel : nat) (x other : Timestamp) : outcome Timestamp :=
  match fuel with
  | O => OutOfFuel
  | S fuel =>
      if isZero other then Throw DivisionByZero
      else if isZero x then Ret ZERO
      else if equals x MIN_VALUE then
        if equals other ONE || equals other NEG_ONE then Ret MIN_VALUE
        else if equals other MIN_VALUE then Ret ONE
        else
          let halfThis := shiftRight x 1 in
          q <- div_fuel fuel halfThis other ;;
          let approx := shiftLeft q 1 in
          if equals approx ZERO then
            Ret (if isNegative other then ONE else NEG_ONE)
          else
            let rem := subtract x (multiply other approx) in
            r <- div_fuel fuel rem other ;;
            Ret (add approx r)
      else if equals other MIN_VALUE then Ret ZERO
      else if isNegative x then
        if isNegative other then div_fuel fuel (negate x) (negate other)
        else q <- div_fuel fuel (negate x) other ;; Ret (negate q)
      else if isNegative other then
        q <- div_fuel fuel x (negate other) ;; Ret (negate q)
      else div_loop fuel other ZERO x
  end.

Definition modulo_fuel (fuel : nat) (x other : Timestamp) : outcome Timestamp :=
  q <- div_fuel fuel x other ;; Ret (subtract x (multiply q other)).

(** The digit loop of [toString], six digits per round. *)
Fixpoint toString_loop (fuel : nat) (radix : number) (radixToPower rem : Timestamp)
    (result : string) : outcome string :=
  match fuel with
  | O => OutOfFuel
  | S fuel =>
      remDiv <- div_fuel fuel rem radixToPower ;;
      let intval := toInt (subtract rem (multiply remDiv radixToPower)) in
      let digits := Str.int_toString intval radix in
      let rem := remDiv in
      if isZero rem then Ret (digits ++ result)%string
      else
        let digits := Str.pad6 6 digits in
        toString_loop fuel radix radixToPower rem (digits ++ result)%string
  end.

Fixpoint toString_fuel (fuel : nat) (x : Timestamp) (opt_radix : option number)
    : outcome string :=
  match fuel with
  | O => OutOfFuel
  | S fuel =>
      let radix := or_default opt_radix (Num.ofZ 10) in
      if Num.ltb radix (Num.ofZ 2) || Num.ltb (Num.ofZ 36) radix then
        Throw RadixError
      else if isZero x then Ret "0"%string
      else if isNegative x then
        if equals x MIN_VALUE then
          let radixTimestamp := fromNumber radix in
          dv <- div_fuel fuel x radixTimestamp ;;
          let rem := subtract (multiply dv radixTimestamp) x in
          s <- toString_fuel fuel dv (Some radix) ;;
          Ret (s ++ Str.int_toString (toInt rem) radix)%string
        else
          s <- toString_fuel fuel (negate x) (Some radix) ;;
          Ret (String "-"%char s)
      else
        let radixToPower := fromNumber (Math_pow radix (Num.ofZ 6)) in
        toString_loop fuel radix radixToPower x EmptyString
  end.

(** The chunk loop of [fromString]: [i] advances by 8 until it reaches the
    length of [str]; [n] bounds the number of rounds. *)
Fixpoint fromString_loop (n : nat) (str : string) (radix : number)
    (radixToPower : Timestamp) (i : nat) (result : Timestamp) : outcome Timestamp :=
  match n with
  | O => OutOfFuel
  | S n =>
      if (i <? String.length str)%nat then
        let size := Nat.min 8 (String.length str - i) in
        let value := Str.parseInt (String.substring i size str) radix in
        let result :=
          if (size <? 8)%nat then
            let power := fromNumber (Math_pow radix (Num.ofZ (Z.of_nat size))) in
            add (multiply result power) (fromNumber value)
          else
            let result := multiply result radixToPower in
            add result (fromNumber value) in
        fromString_loop n str radix radixToPower (i + 8)%nat result
      else Ret result
  end.

(** [fromString]: the call on [str.substring(1)] after a leading '-' is the
    structural recursion. *)
Fixpoint fromString (str : string) (opt_radix : option number)
    : outcome Timestamp :=
  match str with
  | EmptyString => Throw EmptyStringError
  | String c rest =>
      let radix := or_default opt_radix (Num.ofZ 10) in
      if Num.ltb radix (Num.ofZ 2) || Num.ltb (Num.ofZ 36) radix then
        Throw RadixError
      else if Str.code c =? 45 then
        r <- fromString rest (Some radix) ;; Ret (negate r)
      else if Str.has_minus str then Throw InteriorMinusError
      else
        let radixToPower := fromNumber (Math_pow radix (Num.ofZ 8)) in
        fromString_loop (S (String.length str)) str radix radixToPower 0%nat ZERO
  end.

End Host.

(** ** What the proofs ask of the host's [Math.log] and [Math.pow] *)

(** An integer that a number holds exactly. *)
Definition representable (A : Z) : Prop := Num.truncZ (Num.ofZ A) = A.

(** [Math.ceil(Math.log(a) / Math.LN2)] is an integer within 4 of the true
    ceiling of the base-2 logarithm, for integers [a] from 1 to 2^64. *)
Definition log_accurate (Math_log : number -> number) : Prop :=
  forall A, 1 <= A <= 2 ^ 64 -> representable A ->
    exists L, Num.Math_ceil (Num.div (Math_log (Num.ofZ A)) Num.Math_LN2)
              = Num.ofZ L
              /\ Z.log2_up A - 4 <= L <= Z.log2_up A + 4.

(** [Math.pow] is exact on the small integer powers the program asks for:
    bases 2 to 36, exponents up to 21, results below 2^53. *)
Definition pow_exact (Math_pow : number -> number -> number) : Prop :=
  forall b n, 2 <= b <= 36 -> 0 <= n <= 21 -> b ^ n < 2 ^ 53 ->
    Math_pow (Num.ofZ b) (Num.ofZ n) = Num.ofZ (b ^ n).

(** ** A reference host *)

(** An exact power for integer arguments, as every engine computes the
    small integer powers the program asks for. *)
Definition ref_pow (b n : number) : number :=
  if Num.leb (Num.ofZ 0) n then Num.ofZ (Num.truncZ b ^ Num.truncZ n)
  else S754_nan.

(** A logarithm accurate to the integer part of the base-2 logarithm. *)
Definition ref_log (a : number) : number :=
  if Num.leb (Num.ofZ 1) a
  then Num.mul (Num.ofZ (Z.log2_up (Num.truncZ a))) Num.Math_LN2
  else S754_nan.

(** ** Arithmetic facts about the 32-bit operators *)

Module JSFacts.

Lemma toInt32_range z : - 2^31 <= JS.toInt32 z < 2^31.
Proof. unfold JS.toInt32. pose proof (Z.mod_pos_bound (z + 2^31) (2^32)). lia. Qed.

Lemma toInt32_id z : - 2^31 <= z < 2^31 -> JS.toInt32 z = z.
Proof. intros H. unfold JS.toInt32. rewrite Z.mod_small; lia. Qed.

Lemma toInt32_idem z : JS.toInt32 (JS.toInt32 z) = JS.toInt32 z.
Proof. apply toInt32_id, toInt32_range. Qed.

Lemma toUint32_toInt32 z : JS.toUint32 (JS.toInt32 z) = JS.toUint32 z.
Proof.
  unfold JS.toUint32, JS.toInt32.
  change (2^31) with 2147483648. change (2^32) with 4294967296.
  Z.div_mod_to_equations. lia.
Qed.

Lemma or_0 z : JS.or z 0 = JS.toInt32 z.
Proof.
  unfold JS.or. change (JS.toInt32 0) with 0.
  rewrite Z.lor_0_r. apply toInt32_idem.
Qed.

Lemma and_65535 a : JS.and a 65535 = a mod 2^16.
Proof.
  unfold JS.and. change (JS.toInt32 65535) with (Z.ones 16).
  rewrite Z.land_ones by lia.
  assert (E : JS.toInt32 a mod 2^16 = a mod 2^16).
  { unfold JS.toInt32.
    change (2^31) with 2147483648. change (2^32) with 4294967296.
    change (2^16) with 65536. Z.div_mod_to_equations. lia. }
  rewrite E. apply toInt32_id.
  pose proof (Z.mod_pos_bound a (2^16)). lia.
Qed.

Lemma ushr_16 a : JS.ushr a 16 = (a mod 2^32) / 2^16.
Proof.
  unfold JS.ushr, JS.toUint32. change (Z.land 16 31) with 16.
  apply Z.shiftr_div_pow2. lia.
Qed.

Lemma lor_disjoint k lo :
  0 <= lo < 2^16 -> Z.lor (k * 2^16) lo = k * 2^16 + lo.
Proof.
  intros Hlo.
  assert (D : Z.land (k * 2^16) lo = 0).
  { apply Z.bits_inj'. intros n Hn. rewrite Z.land_spec, Z.bits_0.
    destruct (Z.ltb_spec n 16).
    - rewrite Z.mul_pow2_bits_low by lia. reflexivity.
    - destruct (Z.eq_dec lo 0) as [->|Hz].
      + rewrite Z.bits_0. apply andb_false_r.
      + rewrite (Z.bits_above_log2 lo n); [apply andb_false_r | lia |].
        apply Z.log2_lt_pow2; [lia|].
        apply Z.lt_le_trans with (2^16); [lia|].
        apply Z.pow_le_mono_r; lia. }
  pose proof (Z.add_lor_land (k * 2^16) lo). lia.
Qed.

Lemma or_shl16 hi lo :
  0 <= hi < 2^16 -> 0 <= lo < 2^16 ->
  JS.or (JS.shl hi 16) lo = JS.toInt32 (hi * 2^16 + lo).
Proof.
  intros Hhi Hlo. unfold JS.or, JS.shl. change (Z.land 16 31) with 16.
  rewrite toInt32_idem, (toInt32_id hi), (toInt32_id lo) by lia.
  rewrite Z.shiftl_mul_pow2 by lia.
  set (k := (hi * 2^16 + 2^31) / 2^32).
  assert (E : JS.toInt32 (hi * 2^16) = (hi - k * 2^16) * 2^16).
  { unfold JS.toInt32, k.
    change (2^31) with 2147483648 in *. change (2^32) with 4294967296 in *.
    change (2^16) with 65536 in *. Z.div_mod_to_equations. lia. }
  rewrite E, lor_disjoint by lia.
  unfold JS.toInt32, k.
  change (2^31) with 2147483648 in *. change (2^32) with 4294967296 in *.
  change (2^16) with 65536 in *. Z.div_mod_to_equations. lia.
Qed.

End JSFacts.

(** ** [add] is addition modulo 2^64 *)

Lemma add_chunks_sum H1 L1 H2 L2 :
  let a48 := (H1 mod 2^32) / 2^16 in
  let a32 := H1 mod 2^16 in
  let a16 := (L1 mod 2^32) / 2^16 in
  let a00 := L1 mod 2^16 in
  let b48 := (H2 mod 2^32) / 2^16 in
  let b32 := H2 mod 2^16 in
  let b16 := (L2 mod 2^32) / 2^16 in
  let b00 := L2 mod 2^16 in
  let c00 := a00 + b00 in
  let c16 := (c00 mod 2^32) / 2^16 + (a16 + b16) in
  let c32 := (c16 mod 2^32) / 2^16 + (a32 + b32) in
  let c48 := (c32 mod 2^32) / 2^16 + (a48 + b48) in
  JS.toInt32 ((c48 mod 2^16) * 2^16 + c32 mod 2^16) * 2^32
  + JS.toUint32 (JS.toInt32 ((c16 mod 2^16) * 2^16 + c00 mod 2^16))
  = wrap64 (JS.toInt32 H1 * 2^32 + JS.toUint32 L1
            + (JS.toInt32 H2 * 2^32 + JS.toUint32 L2)).
Proof.
  intros. subst a48 a32 a16 a00 b48 b32 b16 b00 c00 c16 c32 c48.
  rewrite JSFacts.toUint32_toInt32.
  unfold JS.toInt32, JS.toUint32, wrap64.
  change (2^31) with 2147483648. change (2^32) with 4294967296.
  change (2^16) with 65536. change (2^63) with 9223372036854775808.
  change (2^64) with 18446744073709551616.
  Z.div_mod_to_equations. lia.
Qed.

Lemma new_Timestamp_wf l h : wf (new_Timestamp l h).
Proof.
  unfold wf, new_Timestamp; simpl. rewrite !JSFacts.or_0.
  split; apply JSFacts.toInt32_range.
Qed.

Lemma toZ_new_Timestamp l h :
  toZ (new_Timestamp l h) = JS.toInt32 h * 2^32 + JS.toUint32 l.
Proof.
  unfold toZ, new_Timestamp; simpl. rewrite !JSFacts.or_0.
  now rewrite JSFacts.toInt32_idem, JSFacts.toUint32_toInt32.
Qed.

Lemma add_wf x y : wf (add x y).
Proof. apply new_Timestamp_wf. Qed.

Lemma toZ_add x y : toZ (add x y) = wrap64 (toZ x + toZ y).
Proof.
  unfold add, fromBits. rewrite toZ_new_Timestamp.
  cbv zeta. rewrite !Z.add_0_l.
  rewrite !JSFacts.and_65535, !JSFacts.ushr_16.
  rewrite !JSFacts.or_shl16
    by (apply Z.mod_pos_bound; reflexivity).
  rewrite JSFacts.toInt32_idem. unfold toZ.
  apply add_chunks_sum.
Qed.

Lemma equals_true_eq x y : equals x y = true -> x = y.
Proof.
  unfold equals. intros H. apply andb_prop in H. destruct H as [H1 H2].
  apply Z.eqb_eq in H1, H2. destruct x, y; simpl in *. congruence.
Qed.

Lemma equals_refl x : equals x x = true.
Proof. unfold equals. now rewrite !Z.eqb_refl. Qed.

Lemma negate_wf x : wf (negate x).
Proof.
  unfold negate. destruct (equals x MIN_VALUE).
  - vm_compute. intuition congruence.
  - apply add_wf.
Qed.

Lemma ZERO_wf : wf ZERO.
Proof. vm_compute. intuition congruence. Qed.

(** C3. [add] is 64-bit two's-complement addition: the integer denoted by
    [x.add(y)] is the sum of the operands' integers wrapped into the signed
    64-bit range, for every pair of word pairs, and the result is a normalised
    word pair; in particular [MAX_VALUE.add(ONE)] equals [MIN_VALUE]. *)
Theorem add_is_wraparound_addition :
  (forall x y : Timestamp,
      toZ (add x y) = wrap64 (toZ x + toZ y) /\ wf (add x y))
  /\ equals (add MAX_VALUE ONE) MIN_VALUE = true.
Proof.
  split.
  - intros x y. split; [apply toZ_add | apply add_wf].
  - vm_compute. reflexivity.
Qed.


(** ** Binary64 rounding: structural facts *)

Module B64.

(** Number of binary digits of a positive integer. *)
Definition digits (z : Z) : Z := Z.log2 z + 1.

Lemma digits2_pos_size m : digits2_pos m = Pos.size m.
Proof. induction m; simpl; congruence. Qed.

Lemma digits_pos m : Zpos (digits2_pos m) = digits (Zpos m).
Proof.
  unfold digits. rewrite digits2_pos_size.
  destruct m; simpl; lia.
Qed.

Lemma digits_bounds z : 0 < z -> 2 ^ (digits z - 1) <= z < 2 ^ digits z.
Proof.
  intros H. unfold digits. pose proof (Z.log2_spec z H).
  replace (Z.log2 z + 1 - 1) with (Z.log2 z) by lia.
  replace (Z.log2 z + 1) with (Z.succ (Z.log2 z)) by lia. exact H0.
Qed.

Lemma digits_unique z d : 2 ^ (d - 1) <= z < 2 ^ d -> 0 < z -> digits z = d.
Proof.
  intros H Hz. unfold digits.
  assert (Z.log2 z = d - 1); [|lia].
  apply Z.log2_unique.
  - destruct (Z.le_gt_cases 0 (d - 1)); [assumption|].
    rewrite (Z.pow_neg_r 2 (d - 1)) in H by lia.
    destruct (Z.eq_dec d 0) as [->|]; [simpl in H; lia|].
    rewrite (Z.pow_neg_r 2 d) in H by lia. lia.
  - replace (Z.succ (d - 1)) with d by lia. exact H.
Qed.

Lemma digits_shift z k : 0 < z -> 0 <= k -> digits (z * 2 ^ k) = digits z + k.
Proof.
  intros Hz Hk. unfold digits. rewrite Z.log2_mul_pow2 by lia. lia.
Qed.

Lemma digits_ge_1 z : 0 < z -> 1 <= digits z.
Proof. intros. unfold digits. pose proof (Z.log2_nonneg z). lia. Qed.

Lemma iter_pos_iter (A : Type) (f : A -> A) p :
  forall x, iter_pos f p x = Pos.iter f x p.
Proof.
  induction p as [p IH|p IH|]; intros x; simpl.
  - rewrite !IH. rewrite Pos.iter_swap. f_equal. now rewrite Pos.iter_swap.
  - now rewrite !IH.
  - reflexivity.
Qed.

Lemma iter_xO m d : Zpos (Pos.iter xO m d) = Zpos m * 2 ^ Zpos d.
Proof.
  induction d as [|d IH] using Pos.peano_ind.
  - simpl. lia.
  - rewrite Pos.iter_succ, Pos2Z.inj_xO, IH, Pos2Z.inj_succ.
    rewrite Z.pow_succ_r by lia. lia.
Qed.

Definition rec0 (m : Z) : shr_record :=
  {| shr_m := m; shr_r := false; shr_s := false |}.

Lemma shr_1_m mrs : 0 <= shr_m mrs -> shr_m (shr_1 mrs) = shr_m mrs / 2.
Proof.
  destruct mrs as [m r s]. simpl. intros H.
  destruct m as [|p|p]; [reflexivity| |lia].
  destruct p; simpl.
  - rewrite Pos2Z.inj_xI. apply Z.div_unique with 1; lia.
  - rewrite Pos2Z.inj_xO. apply Z.div_unique with 0; lia.
  - reflexivity.
Qed.

Lemma shr_m_iter d : forall mrs,
  0 <= shr_m mrs -> shr_m (Pos.iter shr_1 mrs d) = shr_m mrs / 2 ^ Zpos d.
Proof.
  induction d as [|d IH] using Pos.peano_ind; intros mrs H.
  - simpl. rewrite shr_1_m by assumption. reflexivity.
  - rewrite Pos.iter_succ, shr_1_m, IH by (try rewrite IH; try apply Z.div_pos; lia).
    rewrite Pos2Z.inj_succ, Z.pow_succ_r by lia.
    rewrite Z.div_div by lia. f_equal. lia.
Qed.

Lemma shr_iter_exact d : forall m,
  Pos.iter shr_1 (rec0 (Zpos m * 2 ^ Zpos d)) d = rec0 (Zpos m).
Proof.
  induction d as [|d IH] using Pos.peano_ind; intros m.
  - replace (Zpos m * 2 ^ 1) with (Zpos (m~0)) by lia. reflexivity.
  - rewrite Pos.iter_succ, Pos2Z.inj_succ, Z.pow_succ_r by lia.
    replace (Zpos m * (2 * 2 ^ Zpos d)) with (Zpos (m~0) * 2 ^ Zpos d) by lia.
    rewrite IH. reflexivity.
Qed.

(** The state after alignment and the first shift of [binary_round]. *)
Definition norm1 (m : positive) (e : Z) : shr_record * Z :=
  let '(mz, ez) :=
    shl_align m e (fexp Num.prec Num.emax (Zpos (digits2_pos m) + e)) in
  shr_fexp Num.prec Num.emax (Zpos mz) ez loc_Exact.

Definition fexp64 (e : Z) : Z := Z.max (e - 53) (-1074).

Lemma fexp_eq e : fexp Num.prec Num.emax e = fexp64 e.
Proof. reflexivity. Qed.

(** Target exponent of a mantissa [m] held at exponent [e]. *)
Definition target (m : positive) (e : Z) : Z := fexp64 (digits (Zpos m) + e).

Lemma norm1_small m e :
  target m e <= e ->
  exists mz, Zpos mz = Zpos m * 2 ^ (e - target m e)
             /\ norm1 m e = (rec0 (Zpos mz), target m e).
Proof.
  intros Ht. unfold norm1. rewrite fexp_eq, digits_pos. fold (target m e).
  unfold shl_align.
  destruct (target m e - e) as [|p|p] eqn:E; try lia.
  - exists m. replace (e - target m e) with 0 by lia. split; [simpl; lia|].
    unfold shr_fexp. rewrite fexp_eq. cbn [Zdigits2]. rewrite digits_pos.
    fold (target m e). rewrite E. simpl. replace (target m e) with e by lia.
    reflexivity.
  - exists (Pos.iter xO m p). split.
    + rewrite iter_xO. f_equal. f_equal. lia.
    + unfold shr_fexp. rewrite fexp_eq. cbn [Zdigits2]. rewrite digits_pos.
      rewrite iter_xO, digits_shift by lia.
      replace (digits (Zpos m) + Zpos p + target m e) with (digits (Zpos m) + e) by lia.
      fold (target m e). rewrite Z.sub_diag. reflexivity.
Qed.

Lemma norm1_large m e :
  e < target m e ->
  exists p, Zpos p = target m e - e
            /\ norm1 m e = (Pos.iter shr_1 (rec0 (Zpos m)) p, target m e).
Proof.
  intros Ht. unfold norm1. rewrite fexp_eq, digits_pos. fold (target m e).
  unfold shl_align.
  destruct (target m e - e) as [|p|p] eqn:E; try lia.
  exists p. split; [reflexivity|].
  unfold shr_fexp. rewrite fexp_eq. cbn [Zdigits2]. rewrite digits_pos.
  fold (target m e). rewrite E. unfold shr. rewrite iter_pos_iter.
  f_equal. lia.
Qed.

Lemma target_shift m k :
  forall e, target (Pos.iter xO m k) e = target m (e + Zpos k).
Proof.
  intros e. unfold target. rewrite iter_xO, digits_shift by lia.
  f_equal. lia.
Qed.

(** Shift invariance: a mantissa with [k] more trailing zeros at an exponent
    [k] lower rounds through the same state. *)
Lemma norm1_shift m k e :
  norm1 (Pos.iter xO m k) e = norm1 m (e + Zpos k).
Proof.
  pose proof (target_shift m k e) as Ht.
  destruct (Z.le_gt_cases (target m (e + Zpos k)) e) as [H1|H1].
  - destruct (norm1_small (Pos.iter xO m k) e) as [mz [Hz ->]]; [lia|].
    destruct (norm1_small m (e + Zpos k)) as [mz' [Hz' ->]]; [lia|].
    rewrite Ht. f_equal. f_equal. rewrite Hz, Hz', iter_xO, Ht.
    rewrite <- Z.mul_assoc, <- Z.pow_add_r by lia. f_equal. f_equal. lia.
  - destruct (norm1_large (Pos.iter xO m k) e) as [p [Hp ->]]; [lia|].
    rewrite Ht.
    destruct (Z.le_gt_cases (target m (e + Zpos k)) (e + Zpos k)) as [H2|H2].
    + destruct (norm1_small m (e + Zpos k)) as [mz' [Hz' ->]]; [lia|].
      f_equal. rewrite Hz'.
      assert (Hk : Zpos k = Zpos p + (e + Zpos k - target m (e + Zpos k))) by lia.
      destruct (e + Zpos k - target m (e + Zpos k)) as [|q|q] eqn:Eq; try lia.
      * assert (k = p) by lia. subst p.
        rewrite iter_xO, shr_iter_exact. f_equal. simpl. lia.
      * assert (k = (p + q)%positive) by lia. subst k.
        rewrite (Pos.iter_add p q).
        rewrite (iter_xO (Pos.iter xO m q) p), shr_iter_exact.
        rewrite iter_xO. reflexivity.
    + destruct (norm1_large m (e + Zpos k)) as [q [Hq ->]]; [lia|].
      f_equal.
      assert (p = (q + k)%positive) by lia. subst p.
      rewrite Pos.iter_add, iter_xO, shr_iter_exact. reflexivity.
Qed.

(** The second half of [binary_round_aux]: round to nearest even, shift
    once more if the mantissa overflowed, and pack. *)
Definition finish (s : bool) (st : shr_record * Z) : spec_float :=
  let '(mrs', e') := st in
  let '(mrs'', e'') :=
    shr_fexp Num.prec Num.emax
      (round_nearest_even (shr_m mrs') (loc_of_shr_record mrs')) e' loc_Exact in
  match shr_m mrs'' with
  | Z0 => S754_zero s
  | Zpos m =>
      if e'' <=? Num.emax - Num.prec then S754_finite s m e''
      else S754_infinity s
  | Zneg _ => S754_nan
  end.

Lemma binary_round_norm1 s m e :
  binary_round Num.prec Num.emax s m e = finish s (norm1 m e).
Proof.
  unfold binary_round, norm1, binary_round_aux, finish.
  destruct (shl_align m e _) as [mz ez]. reflexivity.
Qed.

Lemma binary_round_shift s m k e :
  binary_round Num.prec Num.emax s (Pos.iter xO m k) e
  = binary_round Num.prec Num.emax s m (e + Zpos k).
Proof. now rewrite !binary_round_norm1, norm1_shift. Qed.

(** Shift invariance of [binary_normalize]. *)
Lemma binary_normalize_shift M k e sz :
  0 <= k ->
  binary_normalize Num.prec Num.emax (M * 2 ^ k) e sz
  = binary_normalize Num.prec Num.emax M (e + k) sz.
Proof.
  intros Hk. destruct k as [|k|k]; [|clear Hk|lia].
  - now rewrite Z.mul_1_r, Z.add_0_r.
  - destruct M as [|p|p].
    + reflexivity.
    + replace (Z.pos p * 2 ^ Z.pos k) with (Zpos (Pos.iter xO p k))
        by apply iter_xO.
      cbn [binary_normalize]. apply binary_round_shift.
    + replace (Z.neg p * 2 ^ Z.pos k) with (Zneg (Pos.iter xO p k))
        by (rewrite <- !Pos2Z.opp_pos, iter_xO; lia).
      cbn [binary_normalize]. apply binary_round_shift.
Qed.

(** A mantissa of at most 53 digits is kept as it is, left-aligned. *)
Lemma binary_round_exact s m e :
  target m e <= e -> target m e <= 971 ->
  exists mz, Zpos mz = Zpos m * 2 ^ (e - target m e)
             /\ binary_round Num.prec Num.emax s m e
                = S754_finite s mz (target m e).
Proof.
  intros Ht Hmax. rewrite binary_round_norm1.
  destruct (norm1_small m e Ht) as [mz [Hz ->]].
  exists mz. split; [exact Hz|].
  unfold finish. cbn [rec0 shr_m loc_of_shr_record round_nearest_even].
  unfold shr_fexp. rewrite fexp_eq. cbn [Zdigits2]. rewrite digits_pos.
  rewrite Hz, digits_shift by lia.
  replace (digits (Zpos m) + (e - target m e) + target m e)
    with (digits (Zpos m) + e) by lia.
  fold (target m e). rewrite Z.sub_diag. cbn [shr shr_record_of_loc shr_m].
  rewrite <- Hz.
  change (Num.emax - Num.prec) with 971.
  destruct (Z.leb_spec (target m e) 971); [reflexivity|lia].
Qed.

End B64.


(** ** Integers held exactly by a binary64 number *)

Module Exact.

Import B64.

(** An integer with at most 53 significant bits, below 2^1024. *)
Definition exactZ (z : Z) : Prop :=
  exists n k, z = n * 2 ^ k /\ 0 <= k /\ Z.abs n < 2 ^ 53
              /\ Z.abs z < 2 ^ 1024.

Lemma pow1024_big : 2 ^ 53 < 2 ^ 1024.
Proof. apply Z.pow_lt_mono_r; lia. Qed.

Lemma exactZ_small z : Z.abs z < 2 ^ 53 -> exactZ z.
Proof.
  intros H. exists z, 0. rewrite Z.mul_1_r. pose proof pow1024_big.
  repeat split; lia.
Qed.

Lemma exactZ_opp z : exactZ z -> exactZ (- z).
Proof.
  intros (n & k & -> & Hk & Hn & Hb). exists (- n), k.
  rewrite !Z.abs_opp. split; [ring|auto].
Qed.

Lemma exactZ_shift z j :
  exactZ z -> 0 <= j -> Z.abs (z * 2 ^ j) < 2 ^ 1024 -> exactZ (z * 2 ^ j).
Proof.
  intros (n & k & -> & Hk & Hn & _) Hj Hb.
  exists n, (k + j). rewrite Z.pow_add_r by lia.
  split; [ring|]. split; [lia|]. split; [exact Hn|exact Hb].
Qed.

Lemma digits_le_53 n : 0 < n -> n < 2 ^ 53 -> digits n <= 53.
Proof.
  intros H0 H. pose proof (digits_bounds n H0) as [Hl _].
  assert (2 ^ (digits n - 1) < 2 ^ 53) by lia.
  apply Z.pow_lt_mono_r_iff in H1; lia.
Qed.

Lemma finish_opp st :
  finish true st = SFopp (finish false st).
Proof.
  unfold finish. destruct st as [mrs e].
  destruct (shr_fexp _ _ _ _ _) as [mrs' e'].
  destruct (shr_m mrs'); [reflexivity| |reflexivity].
  destruct (e' <=? _); reflexivity.
Qed.

Lemma ofZ_opp z : z <> 0 -> Num.ofZ (- z) = Num.neg (Num.ofZ z).
Proof.
  intros Hz. unfold Num.ofZ, Num.neg.
  destruct z as [|p|p]; [lia| |]; cbn [Z.opp binary_normalize];
    rewrite !binary_round_norm1, finish_opp; [reflexivity|].
  destruct (finish false _) as [[]|[]| |[] ? ?]; reflexivity.
Qed.

(** The shape of the number holding a positive exact integer: 53-digit
    mantissa, exponent [digits z - 53], same value. *)
Lemma ofZ_canon z :
  exactZ z -> 0 < z ->
  exists m, Num.ofZ z = S754_finite false m (digits z - 53)
            /\ digits (Zpos m) = 53
            /\ z * 2 ^ 52 = Zpos m * 2 ^ (digits z - 53 + 52).
Proof.
  intros (n & k & -> & Hk & Hn & Hb) Hz.
  assert (Hn0 : 0 < n).
  { assert (0 < 2 ^ k) by (apply Z.pow_pos_nonneg; lia). nia. }
  unfold Num.ofZ. rewrite binary_normalize_shift by lia.
  destruct n as [|n|n]; try lia. cbn [binary_normalize]. rewrite Z.add_0_l.
  pose proof (digits_le_53 (Zpos n) Hn0 ltac:(lia)) as Hd.
  pose proof (digits_ge_1 (Zpos n) Hn0) as Hd1.
  assert (Ht : target n k = digits (Zpos n) + k - 53).
  { unfold target, fexp64. lia. }
  assert (Hd1024 : digits (Zpos n) + k <= 1024).
  { rewrite <- digits_shift by lia.
    pose proof (digits_bounds (Zpos n * 2 ^ k) Hz) as [Hl _].
    rewrite Z.abs_eq in Hb by lia.
    assert (2 ^ (digits (Zpos n * 2 ^ k) - 1) < 2 ^ 1024) by lia.
    apply Z.pow_lt_mono_r_iff in H; lia. }
  destruct (binary_round_exact false n k) as [mz [Hmz ->]]; try lia.
  rewrite digits_shift by lia.
  exists mz. rewrite Ht. split; [f_equal; lia|].
  rewrite Ht in Hmz.
  replace (k - (digits (Zpos n) + k - 53)) with (53 - digits (Zpos n)) in Hmz by lia.
  split.
  - rewrite Hmz, digits_shift by lia. lia.
  - rewrite Hmz, <- !Z.mul_assoc, <- !Z.pow_add_r by lia.
    f_equal. f_equal. lia.
Qed.

(** Two descriptions [M * 2^e] and [z] of one value normalise alike. *)
Lemma binary_normalize_value K M e z sz :
  0 <= K -> 0 <= e + K ->
  M * 2 ^ (e + K) = z * 2 ^ K ->
  binary_normalize Num.prec Num.emax M e sz
  = binary_normalize Num.prec Num.emax z 0 sz.
Proof.
  intros HK He H.
  assert (P : forall j, 0 <= j -> 0 < 2 ^ j) by (intros; apply Z.pow_pos_nonneg; lia).
  destruct (Z.le_gt_cases 0 e) as [He0|He0].
  - rewrite Z.pow_add_r in H by lia.
    assert (z = M * 2 ^ e).
    { pose proof (P K HK). nia. }
    subst z. rewrite binary_normalize_shift by lia. f_equal.
  - assert (M = z * 2 ^ (- e)).
    { replace K with (- e + (e + K)) in H at 2 by lia.
      rewrite (Z.pow_add_r 2 (- e) (e + K)) in H by lia.
      pose proof (P (e + K) He). nia. }
    subst M. rewrite binary_normalize_shift by lia. f_equal. lia.
Qed.

Lemma shl_align_fst m e e' :
  e' <= e -> Zpos (fst (shl_align m e e')) = Zpos m * 2 ^ (e - e').
Proof.
  intros H. unfold shl_align.
  destruct (e' - e) as [|p|p] eqn:E; try lia.
  - replace (e - e') with 0 by lia. simpl. lia.
  - cbn [fst]. rewrite iter_xO. f_equal. f_equal. lia.
Qed.

(** Shape of the number holding any nonzero exact integer. *)
Lemma ofZ_shape z :
  exactZ z -> z <> 0 ->
  exists m e, Num.ofZ z = S754_finite (z <? 0) m e
              /\ digits (Zpos m) = 53 /\ e = digits (Z.abs z) - 53
              /\ z * 2 ^ 52 = Num.signed (z <? 0) m * 2 ^ (e + 52).
Proof.
  intros Hx Hz. destruct (Z.ltb_spec z 0) as [Hneg|Hpos].
  - destruct (ofZ_canon (- z) (exactZ_opp z Hx) ltac:(lia)) as (m & E & Hd & Hv).
    exists m, (digits (- z) - 53).
    replace z with (- - z) at 1 by lia. rewrite ofZ_opp, E by lia.
    rewrite Z.abs_neq by lia. repeat split; auto.
    unfold Num.signed, cond_Zopp. lia.
  - destruct (ofZ_canon z Hx ltac:(lia)) as (m & E & Hd & Hv).
    exists m, (digits z - 53). rewrite Z.abs_eq by lia. repeat split; auto.
Qed.

Lemma shape_exp_ge z : z <> 0 -> - 52 <= digits (Z.abs z) - 53.
Proof. intros. pose proof (digits_ge_1 (Z.abs z)). lia. Qed.

Lemma pow_split a b : 0 <= a -> 0 <= b -> 2 ^ (a + b) = 2 ^ a * 2 ^ b.
Proof. intros. apply Z.pow_add_r; lia. Qed.

(** Addition and subtraction of exact integers round the exact result. *)
Lemma add_exact a b :
  exactZ a -> exactZ b -> Num.add (Num.ofZ a) (Num.ofZ b) = Num.ofZ (a + b).
Proof.
  intros Ha Hb.
  destruct (Z.eq_dec a 0) as [->|Ha0].
  { change (Num.ofZ 0) with (S754_zero false). rewrite Z.add_0_l.
    destruct (Z.eq_dec b 0) as [->|Hb0]; [reflexivity|].
    destruct (ofZ_shape b Hb Hb0) as (m & e & -> & _). reflexivity. }
  destruct (Z.eq_dec b 0) as [->|Hb0].
  { change (Num.ofZ 0) with (S754_zero false). rewrite Z.add_0_r.
    destruct (ofZ_shape a Ha Ha0) as (m & e & -> & _). reflexivity. }
  destruct (ofZ_shape a Ha Ha0) as (ma & ea & -> & _ & Hea & Hva).
  destruct (ofZ_shape b Hb Hb0) as (mb & eb & -> & _ & Heb & Hvb).
  pose proof (shape_exp_ge a Ha0). pose proof (shape_exp_ge b Hb0).
  unfold Num.add, SFadd, Num.ofZ.
  set (ez := Z.min ea eb).
  assert (Hez : - 52 <= ez /\ ez <= ea /\ ez <= eb) by (unfold ez; lia).
  apply (binary_normalize_value 52); try lia.
  rewrite Z.mul_add_distr_r.
  rewrite (Z.mul_add_distr_r a b), Hva, Hvb.
  assert (Q : forall s m e, ez <= e ->
    cond_Zopp s (Zpos (fst (shl_align m e ez))) * 2 ^ (ez + 52)
    = Num.signed s m * 2 ^ (e + 52)).
  { intros s m e He. rewrite shl_align_fst by lia.
    replace (e + 52) with ((e - ez) + (ez + 52)) by lia.
    rewrite (pow_split (e - ez) (ez + 52)) by lia. unfold Num.signed.
    destruct s; cbn [cond_Zopp]; ring. }
  rewrite !Q by lia. reflexivity.
Qed.

Lemma neg_ofZ z : z <> 0 -> Num.neg (Num.ofZ z) = Num.ofZ (- z).
Proof. intros. now rewrite ofZ_opp. Qed.

Lemma sub_exact a b :
  exactZ a -> exactZ b -> Num.sub (Num.ofZ a) (Num.ofZ b) = Num.ofZ (a - b).
Proof.
  intros Ha Hb.
  destruct (Z.eq_dec b 0) as [->|Hb0].
  { change (Num.ofZ 0) with (S754_zero false). rewrite Z.sub_0_r.
    destruct (Z.eq_dec a 0) as [->|Ha0]; [reflexivity|].
    destruct (ofZ_shape a Ha Ha0) as (m & e & -> & _). reflexivity. }
  destruct (Z.eq_dec a 0) as [->|Ha0].
  { change (Num.ofZ 0) with (S754_zero false). rewrite Z.sub_0_l.
    rewrite ofZ_opp by lia.
    destruct (ofZ_shape b Hb Hb0) as (m & e & -> & _). reflexivity. }
  destruct (ofZ_shape a Ha Ha0) as (ma & ea & -> & _ & Hea & Hva).
  destruct (ofZ_shape b Hb Hb0) as (mb & eb & -> & _ & Heb & Hvb).
  pose proof (shape_exp_ge a Ha0). pose proof (shape_exp_ge b Hb0).
  unfold Num.sub, SFsub, Num.ofZ.
  set (ez := Z.min ea eb).
  assert (Hez : - 52 <= ez /\ ez <= ea /\ ez <= eb) by (unfold ez; lia).
  apply (binary_normalize_value 52); try lia.
  rewrite Z.mul_sub_distr_r.
  rewrite (Z.mul_sub_distr_r a b), Hva, Hvb.
  assert (Q : forall s m e, ez <= e ->
    cond_Zopp s (Zpos (fst (shl_align m e ez))) * 2 ^ (ez + 52)
    = Num.signed s m * 2 ^ (e + 52)).
  { intros s m e He. rewrite shl_align_fst by lia.
    replace (e + 52) with ((e - ez) + (ez + 52)) by lia.
    rewrite (pow_split (e - ez) (ez + 52)) by lia. unfold Num.signed.
    destruct s; cbn [cond_Zopp]; ring. }
  rewrite !Q by lia. reflexivity.
Qed.

End Exact.


(** ** Round-to-nearest-even, in integer terms *)

Module Rnd.

Import B64.

Lemma shr_1_spec m r s :
  0 <= m ->
  shr_1 {| shr_m := m; shr_r := r; shr_s := s |}
  = {| shr_m := m / 2; shr_r := Z.odd m; shr_s := r || s |}.
Proof.
  intros H. destruct m as [|p|p]; [reflexivity| |lia].
  destruct p; cbn [shr_1].
  - f_equal. rewrite Pos2Z.inj_xI. apply Z.div_unique with 1; lia.
  - f_equal. rewrite Pos2Z.inj_xO. apply Z.div_unique with 0; lia.
  - reflexivity.
Qed.

Lemma odd_mod2 x : Z.odd x = (1 <=? x mod 2).
Proof.
  rewrite (Z.div_mod x 2) at 1 by lia.
  rewrite Z.add_comm, Z.odd_add_mul_2.
  pose proof (Z.mod_pos_bound x 2 ltac:(lia)).
  assert (C : x mod 2 = 0 \/ x mod 2 = 1) by lia.
  destruct C as [-> | ->]; reflexivity.
Qed.

Lemma odd_div_pow2 m p :
  0 <= m -> 0 <= p ->
  Z.odd (m / 2 ^ p) = (2 ^ p <=? m mod 2 ^ (p + 1)).
Proof.
  intros Hm Hp.
  assert (P : 0 < 2 ^ p) by (apply Z.pow_pos_nonneg; lia).
  rewrite Z.pow_add_r, Z.pow_1_r by lia.
  rewrite Z.rem_mul_r by lia.
  pose proof (Z.mod_pos_bound m (2 ^ p) P).
  pose proof (Z.mod_pos_bound (m / 2 ^ p) 2 ltac:(lia)).
  rewrite odd_mod2.
  assert (B : (m / 2 ^ p) mod 2 = 0 \/ (m / 2 ^ p) mod 2 = 1) by lia.
  destruct B as [B|B]; rewrite B;
  match goal with |- _ = (?a <=? ?b) => destruct (Z.leb_spec a b) end;
    try reflexivity; simpl; lia.
Qed.

(** The record after [p] one-bit shifts: quotient, round bit, sticky bit. *)
Lemma shr_iter_spec p : forall m,
  0 <= m ->
  Pos.iter shr_1 (rec0 m) p
  = {| shr_m := m / 2 ^ Zpos p;
       shr_r := 2 ^ (Zpos p - 1) <=? m mod 2 ^ Zpos p;
       shr_s := negb (m mod 2 ^ (Zpos p - 1) =? 0) |}.
Proof.
  induction p as [|p IH] using Pos.peano_ind; intros m Hm.
  - cbn [Pos.iter]. unfold rec0. rewrite shr_1_spec by lia.
    f_equal.
    + rewrite odd_mod2. reflexivity.
    + change (2 ^ (1 - 1)) with 1. now rewrite Z.mod_1_r.
  - rewrite Pos.iter_succ, IH by lia.
    assert (P : 0 < 2 ^ Zpos p) by (apply Z.pow_pos_nonneg; lia).
    rewrite shr_1_spec by (apply Z.div_pos; lia).
    rewrite Pos2Z.inj_succ.
    replace (Z.succ (Zpos p) - 1) with (Zpos p) by lia.
    f_equal.
    + rewrite Z.div_div by lia. f_equal. rewrite Z.pow_succ_r; lia.
    + rewrite odd_div_pow2 by lia. f_equal.
    + assert (Q : 0 < 2 ^ (Zpos p - 1)) by (apply Z.pow_pos_nonneg; lia).
      assert (E : 2 ^ Zpos p = 2 ^ (Zpos p - 1) * 2).
      { replace (Zpos p) with (Z.succ (Zpos p - 1)) at 1 by lia.
        rewrite Z.pow_succ_r by lia. ring. }
      pose proof (Z.mod_pos_bound m (2 ^ Zpos p) P).
      pose proof (Z.mod_pos_bound m (2 ^ (Zpos p - 1)) Q).
      assert (M : m mod 2 ^ Zpos p
                  = m mod 2 ^ (Zpos p - 1)
                    + 2 ^ (Zpos p - 1) * ((m / 2 ^ (Zpos p - 1)) mod 2)).
      { rewrite E at 1. rewrite Z.rem_mul_r by lia. reflexivity. }
      pose proof (Z.mod_pos_bound (m / 2 ^ (Zpos p - 1)) 2 ltac:(lia)).
      assert (B : (m / 2 ^ (Zpos p - 1)) mod 2 = 0
                  \/ (m / 2 ^ (Zpos p - 1)) mod 2 = 1) by lia.
      destruct B as [B|B]; rewrite B in M;
      destruct (Z.leb_spec (2 ^ (Zpos p - 1)) (m mod 2 ^ Zpos p));
        destruct (Z.eqb_spec (m mod 2 ^ (Zpos p - 1)) 0);
        destruct (Z.eqb_spec (m mod 2 ^ Zpos p) 0); simpl; try reflexivity; lia.
Qed.

(** Does round-to-nearest-even round the quotient [q] up, for a remainder
    [r] against the half-way point [h]? *)
Definition rne_up (q r h : Z) : bool := (h <? r) || ((r =? h) && Z.odd q).

(** Mantissa and exponent of the nearest double to [M * 2^e], [M > 0]. *)
Definition round_mant (M e : Z) : Z * Z :=
  let t := fexp64 (digits M + e) in
  if t <=? e then (M * 2 ^ (e - t), t)
  else
    let p := t - e in
    let q := M / 2 ^ p in
    let r := M mod 2 ^ p in
    let m1 := if rne_up q r (2 ^ (p - 1)) then q + 1 else q in
    if m1 =? 2 ^ 53 then (2 ^ 52, t + 1) else (m1, t).

Definition pack (s : bool) (me : Z * Z) : spec_float :=
  let '(m, e) := me in
  match m with
  | Z0 => S754_zero s
  | Zpos p => if e <=? 971 then S754_finite s p e else S754_infinity s
  | Zneg _ => S754_nan
  end.

(** The final shift of [binary_round_aux] on a mantissa [m1] of at most 53
    digits (or exactly [2^53]) held at its target exponent. *)
Lemma finish_rec0 s m1 t :
  0 <= m1 <= 2 ^ 53 -> - 1074 <= t ->
  (m1 = 0 \/ fexp64 (digits m1 + t) <= t \/ m1 = 2 ^ 53) ->
  forall l, round_nearest_even (shr_m l) (loc_of_shr_record l) = m1 ->
  finish s (l, t)
  = pack s (if m1 =? 2 ^ 53 then (2 ^ 52, t + 1) else (m1, t)).
Proof.
  intros Hm Ht Hcase l Hl. unfold finish. rewrite Hl. clear Hl.
  unfold shr_fexp. rewrite fexp_eq.
  destruct (Z.eqb_spec m1 (2 ^ 53)) as [E|E].
  - subst m1. replace (Zdigits2 (2 ^ 53)) with 54 by reflexivity.
    replace (fexp64 (54 + t) - t) with 1 by (unfold fexp64; lia).
    reflexivity.
  - destruct m1 as [|p|p]; [| |lia].
    + cbn [Zdigits2]. replace (fexp64 (0 + t) - t) with (fexp64 t - t) by (f_equal; lia).
      unfold fexp64.
      destruct (Z.max (t - 53) (-1074) - t) eqn:F; try lia; reflexivity.
    + cbn [Zdigits2]. rewrite digits_pos.
      destruct Hcase as [H|[H|H]]; try lia.
      destruct (fexp64 (digits (Zpos p) + t) - t) eqn:G; try lia; reflexivity.
Qed.

Lemma digits_lt_pow z k : 0 < z -> digits z <= k -> z < 2 ^ k.
Proof.
  intros Hz Hd. pose proof (digits_bounds z Hz) as [_ H].
  eapply Z.lt_le_trans; [exact H|]. apply Z.pow_le_mono_r; lia.
Qed.

Lemma digits_le_of_lt z k : 0 < z -> 0 <= k -> z < 2 ^ k -> digits z <= k.
Proof.
  intros Hz Hk H. pose proof (digits_bounds z Hz) as [Hl _].
  assert (2 ^ (digits z - 1) < 2 ^ k) by lia.
  apply Z.pow_lt_mono_r_iff in H0; lia.
Qed.

Lemma rne_loc q M p :
  0 <= M -> 0 < p ->
  round_nearest_even q
    (loc_of_shr_record
       {| shr_m := q;
          shr_r := 2 ^ (p - 1) <=? M mod 2 ^ p;
          shr_s := negb (M mod 2 ^ (p - 1) =? 0) |})
  = if rne_up q (M mod 2 ^ p) (2 ^ (p - 1)) then q + 1 else q.
Proof.
  intros HM Hp.
  assert (Q : 0 < 2 ^ (p - 1)) by (apply Z.pow_pos_nonneg; lia).
  assert (E : 2 ^ p = 2 ^ (p - 1) * 2).
  { replace p with (Z.succ (p - 1)) at 1 by lia.
    rewrite Z.pow_succ_r by lia. ring. }
  assert (R : M mod 2 ^ p
              = M mod 2 ^ (p - 1) + 2 ^ (p - 1) * ((M / 2 ^ (p - 1)) mod 2)).
  { rewrite E at 1. rewrite Z.rem_mul_r by lia. reflexivity. }
  pose proof (Z.mod_pos_bound M (2 ^ (p - 1)) Q).
  pose proof (Z.mod_pos_bound (M / 2 ^ (p - 1)) 2 ltac:(lia)).
  assert (B : (M / 2 ^ (p - 1)) mod 2 = 0 \/ (M / 2 ^ (p - 1)) mod 2 = 1) by lia.
  unfold rne_up.
  destruct B as [B|B]; rewrite B in R; rewrite R;
    repeat match goal with
    | |- context [?a <=? ?b] => destruct (Z.leb_spec a b)
    | |- context [?a <? ?b] => destruct (Z.ltb_spec a b)
    | |- context [?a =? ?b] => destruct (Z.eqb_spec a b)
    end;
    try lia; cbn [loc_of_shr_record round_nearest_even negb orb andb];
    try reflexivity; rewrite <- ?Z.negb_odd; destruct (Z.odd q); reflexivity.
Qed.

(** [binary_round] computes [round_mant]. *)
Lemma binary_round_spec s M e :
  binary_round Num.prec Num.emax s M e = pack s (round_mant (Zpos M) e).
Proof.
  rewrite binary_round_norm1. unfold round_mant. fold (target M e).
  assert (Ht : - 1074 <= target M e /\ digits (Zpos M) + e - 53 <= target M e)
    by (unfold target, fexp64; lia).
  assert (P : forall j, 0 <= j -> 0 < 2 ^ j) by (intros; apply Z.pow_pos_nonneg; lia).
  destruct (Z.leb_spec (target M e) e) as [Hs|Hl].
  - destruct (norm1_small M e Hs) as [mz [Hz ->]].
    assert (Hd : digits (Zpos mz) = digits (Zpos M) + (e - target M e)).
    { rewrite Hz. apply digits_shift; lia. }
    assert (Hlt : Zpos mz < 2 ^ 53) by (apply digits_lt_pow; lia).
    rewrite (finish_rec0 s (Zpos mz) (target M e)); try lia.
    + destruct (Z.eqb_spec (Zpos mz) (2 ^ 53)); [lia|]. now rewrite Hz.
    + right. left. rewrite Hd.
      replace (digits (Zpos M) + (e - target M e) + target M e)
        with (digits (Zpos M) + e) by lia.
      fold (target M e). lia.
    + reflexivity.
  - destruct (norm1_large M e Hl) as [p [Hp ->]].
    rewrite shr_iter_spec by lia. rewrite <- Hp.
    set (q := Zpos M / 2 ^ Zpos p).
    pose proof (rne_loc q (Zpos M) (Zpos p) ltac:(lia) ltac:(lia)) as Hr.
    set (m1 := if rne_up q (Zpos M mod 2 ^ Zpos p) (2 ^ (Zpos p - 1)) then q + 1 else q) in *.
    assert (Hq : 0 <= q < 2 ^ 53).
    { unfold q. split; [apply Z.div_pos; [lia|apply P; lia]|].
      apply Z.div_lt_upper_bound; [apply P; lia|].
      rewrite <- Z.pow_add_r by lia.
      apply digits_lt_pow; lia. }
    assert (Hm1 : 0 <= m1 <= 2 ^ 53) by (unfold m1; destruct (rne_up _ _ _); lia).
    apply finish_rec0; try lia; [|exact Hr].
    destruct (Z.eq_dec m1 0); [now left|].
    destruct (Z.eq_dec m1 (2 ^ 53)); [now right; right|].
    right. left.
    assert (digits m1 <= 53) by (apply digits_le_of_lt; lia).
    unfold fexp64. lia.
Qed.

End Rnd.


(** ** Arithmetic on numbers that hold integers *)

Module NumFacts.

Import B64 Exact Rnd.

Lemma pow_pos j : 0 <= j -> 0 < 2 ^ j.
Proof. intros. apply Z.pow_pos_nonneg; lia. Qed.

(** A 53-digit mantissa at a non-negative exponent is the number of the
    integer it spells. *)
Lemma ofZ_mant m e :
  digits (Zpos m) = 53 -> 0 <= e <= 971 ->
  Num.ofZ (Zpos m * 2 ^ e) = S754_finite false m e.
Proof.
  intros Hd He. unfold Num.ofZ.
  rewrite binary_normalize_shift by lia. cbn [binary_normalize].
  rewrite Z.add_0_l.
  assert (Ht : target m e = e) by (unfold target, fexp64; lia).
  destruct (binary_round_exact false m e) as [mz [Hz ->]]; try lia.
  rewrite Ht in *. rewrite Z.sub_diag, Z.mul_1_r in Hz.
  congruence.
Qed.

Lemma exactZ_mant m e :
  digits (Zpos m) = 53 -> 0 <= e <= 971 -> exactZ (Zpos m * 2 ^ e).
Proof.
  intros Hd He. exists (Zpos m), e.
  pose proof (digits_bounds (Zpos m) ltac:(lia)) as [_ Hu]. rewrite Hd in Hu.
  repeat split; try lia.
  rewrite Z.abs_eq by (pose proof (pow_pos e); nia).
  apply Z.lt_le_trans with (2 ^ 53 * 2 ^ e).
  - pose proof (pow_pos e ltac:(lia)). nia.
  - rewrite <- Z.pow_add_r by lia. apply Z.pow_le_mono_r; lia.
Qed.

(** Every positive integer below 2^1024 is sent to the number of an exact
    integer within relative distance 2^-53. *)
Lemma ofZ_nearest z :
  0 < z < 2 ^ 1000 ->
  exists z', Num.ofZ z = Num.ofZ z' /\ exactZ z' /\ 0 < z'
             /\ Z.abs (z' - z) * 2 ^ 53 <= z
             /\ Z.abs (z' - z) * 2 <= 2 ^ (digits z - 53).
Proof.
  intros Hz.
  destruct (Z.lt_ge_cases z (2 ^ 53)) as [Hs|Hb].
  { exists z. rewrite Z.sub_diag. simpl Z.abs.
    pose proof (Z.pow_nonneg 2 (digits z - 53)).
    repeat split; try lia. apply exactZ_small; lia. }
  assert (Hd : 54 <= digits z <= 1000).
  { pose proof (digits_bounds z ltac:(lia)) as [Hl Hu].
    pose proof (digits_ge_1 z ltac:(lia)). split.
    - assert (Hp : 2 ^ 53 < 2 ^ digits z) by lia.
      apply Z.pow_lt_mono_r_iff in Hp; lia.
    - apply digits_le_of_lt; lia. }
  destruct z as [|M|M]; try lia.
  unfold Num.ofZ at 1. cbn [binary_normalize]. rewrite binary_round_spec.
  unfold round_mant. rewrite Z.add_0_r.
  set (t := digits (Zpos M) - 53).
  replace (fexp64 (digits (Zpos M))) with t by (unfold fexp64, t; lia).
  destruct (Z.leb_spec t 0); [lia|]. rewrite Z.sub_0_r.
  set (q := Zpos M / 2 ^ t). set (r := Zpos M mod 2 ^ t).
  pose proof (pow_pos t ltac:(lia)) as Pt.
  pose proof (pow_pos (t - 1) ltac:(lia)) as Ph.
  assert (E2 : 2 ^ t = 2 * 2 ^ (t - 1)).
  { replace t with (Z.succ (t - 1)) at 1 by lia. apply Z.pow_succ_r. lia. }
  assert (Hdm : Zpos M = 2 ^ t * q + r) by (apply Z.div_mod; lia).
  assert (Hr : 0 <= r < 2 ^ t) by (apply Z.mod_pos_bound; lia).
  pose proof (digits_bounds (Zpos M) ltac:(lia)) as [Hl Hu].
  assert (Hq : 2 ^ 52 <= q < 2 ^ 53).
  { assert (El : 2 ^ (digits (Zpos M) - 1) = 2 ^ 52 * 2 ^ t).
    { rewrite <- Z.pow_add_r by lia. f_equal. unfold t. lia. }
    assert (Eu : 2 ^ digits (Zpos M) = 2 ^ 53 * 2 ^ t).
    { rewrite <- Z.pow_add_r by lia. f_equal. unfold t. lia. }
    rewrite El in Hl. rewrite Eu in Hu. split; nia. }
  set (m1 := if rne_up q r (2 ^ (t - 1)) then q + 1 else q).
  assert (Hm1 : (m1 = q /\ r <= 2 ^ (t - 1)) \/ (m1 = q + 1 /\ 2 ^ (t - 1) <= r)).
  { unfold m1, rne_up.
    destruct (Z.ltb_spec (2 ^ (t - 1)) r); [right; simpl; lia|].
    destruct (Z.eqb_spec r (2 ^ (t - 1))); [|left; simpl; lia].
    destruct (Z.odd q); [right|left]; simpl; lia. }
  exists (m1 * 2 ^ t).
  assert (Hz' : 0 < m1 * 2 ^ t /\ Z.abs (m1 * 2 ^ t - Zpos M) * 2 ^ 53 <= Zpos M
                /\ Z.abs (m1 * 2 ^ t - Zpos M) * 2 <= 2 ^ t).
  { destruct Hm1 as [[-> Hm1]|[-> Hm1]].
    - split; [nia|]. rewrite Z.abs_neq by nia.
      replace (- (q * 2 ^ t - Zpos M)) with r by lia.
      change (2 ^ 53) with (2 * 2 ^ 52). split; nia.
    - split; [nia|]. rewrite Z.abs_eq by nia.
      replace ((q + 1) * 2 ^ t - Zpos M) with (2 ^ t - r) by lia.
      change (2 ^ 53) with (2 * 2 ^ 52). split; nia. }
  destruct (Z.eqb_spec m1 (2 ^ 53)) as [E|E].
  - split; [|split; [|exact Hz']]; rewrite E.
    + replace (2 ^ 53 * 2 ^ t) with (Zpos (2 ^ 52)%positive * 2 ^ (t + 1)).
      * rewrite ofZ_mant by (try reflexivity; unfold t; lia).
        cbn [pack]. change (2 ^ 52) with (Zpos (2 ^ 52)%positive).
        cbv iota. destruct (Z.leb_spec (t + 1) 971); [reflexivity|unfold t in *; lia].
      * rewrite Z.pow_add_r by lia. change (Z.pos (2 ^ 52)) with (2 ^ 52). lia.
    + replace (2 ^ 53 * 2 ^ t) with (Zpos (2 ^ 52)%positive * 2 ^ (t + 1)).
      * apply exactZ_mant; [reflexivity|unfold t; lia].
      * rewrite Z.pow_add_r by lia. change (Z.pos (2 ^ 52)) with (2 ^ 52). lia.
  - assert (Hm1r : 2 ^ 52 <= m1 < 2 ^ 53) by lia.
    destruct m1 as [|m1p|m1p] eqn:Em; try lia.
    assert (Hdm1 : digits (Zpos m1p) = 53) by (apply digits_unique; lia).
    cbn [pack]. destruct (Z.leb_spec t 971); [|unfold t in *; lia].
    rewrite ofZ_mant by (unfold t in *; lia).
    split; [reflexivity|]. split; [|exact Hz'].
    apply exactZ_mant; unfold t in *; lia.
Qed.

Lemma binary_round_aux_eq s m e :
  e <= target m e ->
  binary_round Num.prec Num.emax s m e
  = binary_round_aux Num.prec Num.emax s (Zpos m) e loc_Exact.
Proof.
  intros H. unfold binary_round. rewrite fexp_eq, digits_pos.
  fold (target m e). unfold shl_align.
  destruct (target m e - e) eqn:E; try lia; reflexivity.
Qed.

Lemma digits_mul_ge a b :
  digits (Zpos a) = 53 -> digits (Zpos b) = 53 -> 105 <= digits (Zpos (a * b)).
Proof.
  intros Ha Hb.
  pose proof (digits_bounds (Zpos a) ltac:(lia)) as [La _].
  pose proof (digits_bounds (Zpos b) ltac:(lia)) as [Lb _].
  rewrite Ha in La. rewrite Hb in Lb.
  pose proof (digits_bounds (Zpos (a * b)) ltac:(lia)) as [_ U].
  rewrite Pos2Z.inj_mul in *.
  assert (2 ^ 104 < 2 ^ digits (Zpos a * Zpos b)).
  { eapply Z.le_lt_trans; [|exact U]. change (2 ^ 104) with (2 ^ 52 * 2 ^ 52).
    change (2 ^ (53 - 1)) with (2 ^ 52) in *. nia. }
  pose proof (digits_ge_1 (Zpos a * Zpos b) ltac:(lia)).
  apply Z.pow_lt_mono_r_iff in H; lia.
Qed.

(** Products of exact integers round the exact product. *)
Lemma mul_exact a b :
  exactZ a -> exactZ b -> 0 < b ->
  Num.mul (Num.ofZ a) (Num.ofZ b) = Num.ofZ (a * b).
Proof.
  intros Ha Hb Hb0.
  destruct (ofZ_shape b Hb ltac:(lia)) as (mb & eb & Eb & Hdb & Heb & Hvb).
  destruct (Z.ltb_spec b 0); [lia|].
  destruct (Z.eq_dec a 0) as [->|Ha0].
  { rewrite Eb. reflexivity. }
  destruct (ofZ_shape a Ha Ha0) as (ma & ea & Ea & Hda & Hea & Hva).
  pose proof (shape_exp_ge a Ha0). pose proof (shape_exp_ge b ltac:(lia)).
  rewrite Ea, Eb. unfold Num.mul, SFmul.
  rewrite xorb_false_r.
  pose proof (digits_mul_ge ma mb Hda Hdb) as Hd.
  rewrite <- binary_round_aux_eq by (unfold target, fexp64; lia).
  assert (E : binary_round Num.prec Num.emax (a <? 0) (ma * mb) (ea + eb)
              = binary_normalize Num.prec Num.emax
                  (Num.signed (a <? 0) (ma * mb)) (ea + eb) false).
  { destruct (a <? 0); reflexivity. }
  rewrite E. unfold Num.ofZ.
  apply (binary_normalize_value 104); try lia.
  replace (ea + eb + 104) with ((ea + 52) + (eb + 52)) by lia.
  rewrite pow_split by lia.
  change (2 ^ 104) with (2 ^ 52 * 2 ^ 52).
  replace (Num.signed (a <? 0) (ma * mb))
    with (Num.signed (a <? 0) ma * Num.signed false mb)
    by (unfold Num.signed; destruct (a <? 0); simpl; lia).
  transitivity ((Num.signed (a <? 0) ma * 2 ^ (ea + 52))
                * (Num.signed false mb * 2 ^ (eb + 52))); [ring|].
  rewrite <- Hva, <- Hvb. ring.
Qed.

Lemma lex_compare ma ea mb eb A B :
  digits (Zpos ma) = 53 -> digits (Zpos mb) = 53 ->
  - 52 <= ea -> - 52 <= eb ->
  A * 2 ^ 52 = Zpos ma * 2 ^ (ea + 52) ->
  B * 2 ^ 52 = Zpos mb * 2 ^ (eb + 52) ->
  match ea ?= eb with
  | Lt => Lt
  | Gt => Gt
  | Eq => Pos.compare_cont Eq ma mb
  end = (A ?= B).
Proof.
  intros Ha Hb Hea Heb HA HB.
  pose proof (digits_bounds (Zpos ma) ltac:(lia)) as [La Ua].
  pose proof (digits_bounds (Zpos mb) ltac:(lia)) as [Lb Ub].
  rewrite Ha in *. rewrite Hb in *.
  change (2 ^ (53 - 1)) with (2 ^ 52) in *.
  pose proof (pow_pos (ea + 52) ltac:(lia)) as Pa.
  pose proof (pow_pos (eb + 52) ltac:(lia)) as Pb.
  assert (Mono : forall x y, 0 <= x -> x < y -> 2 * 2 ^ x <= 2 ^ y).
  { intros x y Hx Hxy. rewrite <- Z.pow_succ_r by lia.
    apply Z.pow_le_mono_r; lia. }
  symmetry. destruct (Z.compare_spec ea eb) as [E|E|E].
  - subst eb. change (Pos.compare_cont Eq ma mb) with (Pos.compare ma mb).
    rewrite Pos2Z.inj_compare.
    destruct (Z.compare_spec (Zpos ma) (Zpos mb)) as [C|C|C].
    + apply Z.compare_eq_iff. nia.
    + apply Z.compare_lt_iff. nia.
    + apply Z.compare_gt_iff. nia.
  - apply Z.compare_lt_iff.
    pose proof (Mono (ea + 52) (eb + 52) ltac:(lia) ltac:(lia)).
    change (2 ^ 53) with (2 * 2 ^ 52) in *. nia.
  - apply Z.compare_gt_iff.
    pose proof (Mono (eb + 52) (ea + 52) ltac:(lia) ltac:(lia)).
    change (2 ^ 53) with (2 * 2 ^ 52) in *. nia.
Qed.

(** Comparison of numbers holding exact integers is integer comparison. *)
Lemma compare_exact a b :
  exactZ a -> exactZ b ->
  SFcompare (Num.ofZ a) (Num.ofZ b) = Some (a ?= b).
Proof.
  intros Ha Hb.
  destruct (Z.eq_dec a 0) as [->|Ha0]; destruct (Z.eq_dec b 0) as [->|Hb0].
  - reflexivity.
  - destruct (ofZ_shape b Hb Hb0) as (mb & eb & -> & _).
    change (Num.ofZ 0) with (S754_zero false). cbn [SFcompare].
    destruct (Z.ltb_spec b 0); f_equal; symmetry;
      [apply Z.compare_gt_iff | apply Z.compare_lt_iff]; lia.
  - destruct (ofZ_shape a Ha Ha0) as (ma & ea & -> & _).
    change (Num.ofZ 0) with (S754_zero false). cbn [SFcompare].
    destruct (Z.ltb_spec a 0); f_equal; symmetry;
      [apply Z.compare_lt_iff | apply Z.compare_gt_iff]; lia.
  - destruct (ofZ_shape a Ha Ha0) as (ma & ea & -> & Hda & Hea & Hva).
    destruct (ofZ_shape b Hb Hb0) as (mb & eb & -> & Hdb & Heb & Hvb).
    pose proof (shape_exp_ge a Ha0). pose proof (shape_exp_ge b Hb0).
    cbn [SFcompare]. unfold Num.signed in *.
    destruct (Z.ltb_spec a 0); destruct (Z.ltb_spec b 0); cbn [cond_Zopp] in *; f_equal.
    + pose proof (lex_compare ma ea mb eb (- a) (- b)
                    Hda Hdb ltac:(lia) ltac:(lia) ltac:(lia) ltac:(lia)) as L.
      rewrite Z.compare_opp in L. rewrite (Z.compare_antisym b a), <- L.
      destruct (ea ?= eb); reflexivity.
    + symmetry. apply Z.compare_lt_iff. lia.
    + symmetry. apply Z.compare_gt_iff. lia.
    + apply lex_compare; lia.
Qed.

Lemma ltb_exact a b :
  exactZ a -> exactZ b -> Num.ltb (Num.ofZ a) (Num.ofZ b) = (a <? b).
Proof.
  intros. unfold Num.ltb, SFltb. rewrite compare_exact by assumption.
  unfold Z.ltb. destruct (a ?= b); reflexivity.
Qed.

Lemma leb_exact a b :
  exactZ a -> exactZ b -> Num.leb (Num.ofZ a) (Num.ofZ b) = (a <=? b).
Proof.
  intros. unfold Num.leb, SFleb. rewrite compare_exact by assumption.
  unfold Z.leb. destruct (a ?= b); reflexivity.
Qed.

Lemma truncZ_exact a : exactZ a -> Num.truncZ (Num.ofZ a) = a.
Proof.
  intros Ha. destruct (Z.eq_dec a 0) as [->|Ha0]; [reflexivity|].
  destruct (ofZ_shape a Ha Ha0) as (m & e & -> & Hd & He & Hv).
  pose proof (shape_exp_ge a Ha0).
  cbn [Num.truncZ]. destruct (Z.leb_spec 0 e).
  - rewrite pow_split in Hv by lia.
    pose proof (pow_pos 52 ltac:(lia)). nia.
  - assert (E : Num.signed (a <? 0) m = a * 2 ^ (- e)).
    { replace 52 with (- e + (e + 52)) in Hv at 1 by lia.
      rewrite (pow_split (- e) (e + 52)) in Hv by lia.
      pose proof (pow_pos (e + 52) ltac:(lia)). nia. }
    pose proof (pow_pos (- e) ltac:(lia)).
    unfold Num.signed in E. destruct (Z.ltb_spec a 0); cbn [cond_Zopp] in *.
    + replace (Zpos m) with ((- a) * 2 ^ (- e)) by lia.
      rewrite Z.div_mul by lia. lia.
    + rewrite E, Z.div_mul by lia. reflexivity.
Qed.

Lemma Math_floor_exact a : exactZ a -> Num.Math_floor (Num.ofZ a) = Num.ofZ a.
Proof.
  intros Ha. destruct (Z.eq_dec a 0) as [->|Ha0]; [reflexivity|].
  destruct (ofZ_shape a Ha Ha0) as (m & e & E & Hd & He & Hv).
  pose proof (shape_exp_ge a Ha0).
  rewrite E. cbn [Num.Math_floor]. destruct (Z.leb_spec 0 e); [reflexivity|].
  rewrite <- E. f_equal.
  assert (E' : Num.signed (a <? 0) m = a * 2 ^ (- e)).
  { replace 52 with (- e + (e + 52)) in Hv at 1 by lia.
    rewrite (pow_split (- e) (e + 52)) in Hv by lia.
    pose proof (pow_pos (e + 52) ltac:(lia)). nia. }
  rewrite E'. apply Z.div_mul. pose proof (pow_pos (- e) ltac:(lia)). lia.
Qed.

(** *** Division *)

Lemma div_shape sa ma ea sb mb eb :
  digits (Zpos ma) = 53 -> digits (Zpos mb) = 53 -> - 1021 <= ea - eb ->
  Num.div (S754_finite sa ma ea) (S754_finite sb mb eb)
  = binary_round_aux Num.prec Num.emax (xorb sa sb)
      (Zpos ma * 2 ^ 53 / Zpos mb) (ea - eb - 53)
      (new_location (Zpos mb) ((Zpos ma * 2 ^ 53) mod Zpos mb)).
Proof.
  intros Ha Hb He. unfold Num.div, SFdiv, SFdiv_core_binary.
  cbn [Zdigits2]. rewrite !digits_pos, Ha, Hb, fexp_eq.
  replace (Z.min (fexp64 (53 + ea - (53 + eb))) (ea - eb)) with (ea - eb - 53)
    by (unfold fexp64; lia).
  replace (ea - eb - (ea - eb - 53)) with 53 by lia.
  cbv zeta. rewrite Z.shiftl_mul_pow2 by lia.
  unfold Z.div, Z.modulo.
  destruct (Z.div_eucl (Zpos ma * 2 ^ 53) (Zpos mb)) as [q r]. reflexivity.
Qed.

Lemma rne_range x l : x <= round_nearest_even x l <= x + 1.
Proof.
  destruct l as [|[]]; cbn [round_nearest_even]; try lia.
  destruct (Z.even x); lia.
Qed.

Lemma binary_round_aux_finish s q e l :
  binary_round_aux Num.prec Num.emax s q e l
  = finish s (shr_fexp Num.prec Num.emax q e l).
Proof.
  unfold binary_round_aux, finish.
  destruct (shr_fexp _ _ q e l) as [mrs' e']. reflexivity.
Qed.

Lemma shr_record_of_loc_m q l : shr_m (shr_record_of_loc q l) = q.
Proof. destruct l as [|[]]; reflexivity. Qed.

(** Rounding a 53- or 54-digit mantissa with any location: the result is
    within two units of the mantissa. *)
Lemma bra_bounds s q e l :
  2 ^ 52 <= q < 2 ^ 54 -> - 1074 <= e <= 969 ->
  exists m e',
    binary_round_aux Num.prec Num.emax s q e l = S754_finite s m e'
    /\ digits (Zpos m) = 53 /\ e <= e' <= e + 2
    /\ Zpos m * 2 ^ (e' - e) <= q + 2.
Proof.
  intros Hq He. rewrite binary_round_aux_finish.
  unfold shr_fexp. rewrite fexp_eq.
  destruct q as [|qp|qp]; try lia. cbn [Zdigits2]. rewrite digits_pos.
  assert (Fin : forall m1 t, 2 ^ 52 <= m1 <= 2 ^ 53 -> - 1074 <= t <= 970 ->
    exists m e', pack s (if m1 =? 2 ^ 53 then (2 ^ 52, t + 1) else (m1, t))
                 = S754_finite s m e'
                 /\ digits (Zpos m) = 53 /\ t <= e' <= t + 1
                 /\ Zpos m * 2 ^ (e' - t) = m1).
  { intros m1 t Hm Ht. destruct (Z.eqb_spec m1 (2 ^ 53)) as [E|E].
    - exists (2 ^ 52)%positive, (t + 1). cbn [pack].
      change (2 ^ 52) with (Zpos (2 ^ 52)%positive). cbv iota.
      destruct (Z.leb_spec (t + 1) 971); [|lia].
      repeat split; try lia. replace (t + 1 - t) with 1 by lia. now rewrite E.
    - destruct m1 as [|p|p]; try lia. exists p, t. cbn [pack].
      destruct (Z.leb_spec t 971); [|lia].
      repeat split; try lia.
      + apply digits_unique; lia.
      + rewrite Z.sub_diag. lia. }
  destruct (Z.lt_ge_cases (Zpos qp) (2 ^ 53)) as [H53|H54].
  - assert (Hd : digits (Zpos qp) = 53) by (apply digits_unique; lia).
    rewrite Hd. replace (fexp64 (53 + e) - e) with 0 by (unfold fexp64; lia).
    cbn [shr].
    set (l0 := shr_record_of_loc (Z.pos qp) l).
    assert (Hl0 : shr_m l0 = Zpos qp) by apply shr_record_of_loc_m.
    pose proof (rne_range (shr_m l0) (loc_of_shr_record l0)) as Hr.
    set (m1 := round_nearest_even (shr_m l0) (loc_of_shr_record l0)) in *.
    rewrite Hl0 in Hr.
    assert (Hc : m1 = 0 \/ fexp64 (digits m1 + e) <= e \/ m1 = 2 ^ 53).
    { destruct (Z.eq_dec m1 (2 ^ 53)); [right; right; assumption|].
      right; left. replace (digits m1) with 53
        by (symmetry; apply digits_unique; lia). unfold fexp64; lia. }
    rewrite (finish_rec0 s m1 e ltac:(lia) ltac:(lia) Hc l0 eq_refl).
    destruct (Fin m1 e ltac:(lia) ltac:(lia)) as (m & e' & Ep & Hdm & He' & Hv).
    exists m, e'. rewrite Ep. repeat split; try lia.
  - assert (Hd : digits (Zpos qp) = 54) by (apply digits_unique; lia).
    rewrite Hd. replace (fexp64 (54 + e) - e) with 1 by (unfold fexp64; lia).
    cbn [shr iter_pos].
    set (l0 := shr_1 (shr_record_of_loc (Z.pos qp) l)).
    assert (Hl0 : shr_m l0 = Zpos qp / 2).
    { unfold l0. rewrite shr_1_m; rewrite shr_record_of_loc_m; lia. }
    pose proof (rne_range (shr_m l0) (loc_of_shr_record l0)) as Hr.
    set (m1 := round_nearest_even (shr_m l0) (loc_of_shr_record l0)) in *.
    rewrite Hl0 in Hr.
    assert (Hh : 2 ^ 52 <= Zpos qp / 2 < 2 ^ 53).
    { change (2 ^ 54) with (2 * 2 ^ 53) in Hq. change (2 ^ 53) with (2 * 2 ^ 52) in H54.
      split; [apply Z.div_le_lower_bound | apply Z.div_lt_upper_bound]; lia. }
    assert (Hc : m1 = 0 \/ fexp64 (digits m1 + (e + 1)) <= e + 1 \/ m1 = 2 ^ 53).
    { destruct (Z.eq_dec m1 (2 ^ 53)); [right; right; assumption|].
      right; left. replace (digits m1) with 53
        by (symmetry; apply digits_unique; lia). unfold fexp64; lia. }
    rewrite (finish_rec0 s m1 (e + 1) ltac:(lia) ltac:(lia) Hc l0 eq_refl).
    destruct (Fin m1 (e + 1) ltac:(lia) ltac:(lia)) as (m & e' & Ep & Hdm & He' & Hv).
    exists m, e'. rewrite Ep. repeat split; try lia.
    replace (e' - e) with ((e' - (e + 1)) + 1) by lia.
    rewrite pow_split, Z.mul_assoc, Hv by lia.
    pose proof (Z.div_mod (Zpos qp) 2 ltac:(lia)).
    pose proof (Z.mod_pos_bound (Zpos qp) 2 ltac:(lia)).
    change (2 ^ 1) with 2. lia.
Qed.

End NumFacts.


(** ** Splitting a number into words, and quotients of numbers *)

Module NumSplit.

Import B64 Exact Rnd NumFacts.

Lemma TWO_PWR_32_DBL_eq : TWO_PWR_32_DBL_ = S754_finite false (2 ^ 52) (- 20).
Proof. reflexivity. Qed.

Lemma TWO_PWR_63_DBL_eq : TWO_PWR_63_DBL_ = Num.ofZ (2 ^ 63).
Proof. reflexivity. Qed.

Lemma shape_scale m e a :
  - 52 <= e -> a * 2 ^ 52 = Zpos m * 2 ^ (e + 52) ->
  (0 <= e -> a = Zpos m * 2 ^ e) /\ (e < 0 -> Zpos m = a * 2 ^ (- e)).
Proof.
  intros He Hv. split; intros H.
  - rewrite pow_split in Hv by lia. pose proof (pow_pos 52 ltac:(lia)). nia.
  - replace 52 with (- e + (e + 52)) in Hv at 1 by lia.
    rewrite (pow_split (- e) (e + 52)) in Hv by lia.
    pose proof (pow_pos (e + 52) ltac:(lia)). nia.
Qed.

(** [value % 2^32] on a non-negative exact integer. *)
Lemma rem_exact a :
  exactZ a -> 0 <= a ->
  Num.rem (Num.ofZ a) TWO_PWR_32_DBL_ = Num.ofZ (a mod 2 ^ 32).
Proof.
  intros Ha H0. destruct (Z.eq_dec a 0) as [->|Hn]; [reflexivity|].
  destruct (ofZ_shape a Ha Hn) as (m & e & E & Hd & He & Hv).
  pose proof (shape_exp_ge a Hn).
  destruct (Z.ltb_spec a 0); [lia|]. unfold Num.signed, cond_Zopp in Hv.
  rewrite E, TWO_PWR_32_DBL_eq. cbn [Num.rem cond_Zopp]. unfold Num.ofZ.
  set (ez := Z.min e (- 20)).
  assert (Hez : - 52 <= ez <= - 20 /\ ez <= e) by (unfold ez; lia).
  apply (binary_normalize_value 52); try lia.
  assert (X : Zpos m * 2 ^ (e - ez) = a * 2 ^ (- ez)).
  { destruct (shape_scale m e a ltac:(lia) Hv) as [S1 S2].
    destruct (Z.le_gt_cases 0 e).
    - rewrite (S1 ltac:(lia)). rewrite <- Z.mul_assoc, <- pow_split by lia.
      repeat (f_equal; try lia).
    - rewrite (S2 ltac:(lia)). rewrite <- Z.mul_assoc, <- pow_split by lia.
      repeat (f_equal; try lia). }
  assert (Y : Zpos (2 ^ 52) * 2 ^ (- 20 - ez) = 2 ^ 32 * 2 ^ (- ez)).
  { change (Zpos (2 ^ 52)) with (2 ^ 52). rewrite <- !pow_split by lia.
    repeat (f_equal; try lia). }
  rewrite X, Y. rewrite Z.mul_mod_distr_r by (pose proof (pow_pos (- ez)); lia).
  rewrite <- Z.mul_assoc, <- pow_split by lia. repeat (f_equal; try lia).
Qed.

(** [value / 2^32] on a 53-digit mantissa only lowers the exponent. *)
Lemma div_two32 s m e :
  digits (Zpos m) = 53 -> - 1041 <= e <= 971 ->
  Num.div (S754_finite s m e) TWO_PWR_32_DBL_ = S754_finite s m (e - 32).
Proof.
  intros Hd He. rewrite TWO_PWR_32_DBL_eq.
  rewrite div_shape by (try reflexivity; lia).
  rewrite xorb_false_r.
  assert (Q : Zpos m * 2 ^ 53 / Zpos (2 ^ 52) = Zpos (m~0)).
  { change (2 ^ 53) with (2 * Zpos (2 ^ 52)). rewrite Z.mul_assoc, Z.div_mul by lia. lia. }
  assert (R : (Zpos m * 2 ^ 53) mod Zpos (2 ^ 52) = 0).
  { change (2 ^ 53) with (2 * Zpos (2 ^ 52)). rewrite Z.mul_assoc. apply Z.mod_mul. lia. }
  rewrite Q, R.
  change (new_location (Zpos (2 ^ 52)) 0) with loc_Exact.
  replace (e - - 20 - 53) with (e - 33) by lia.
  assert (Hd2 : digits (Zpos m~0) = 54).
  { rewrite Pos2Z.inj_xO. replace (2 * Zpos m) with (Zpos m * 2 ^ 1) by lia.
    rewrite digits_shift by lia. lia. }
  rewrite <- binary_round_aux_eq by (unfold target, fexp64; lia).
  change (m~0)%positive with (Pos.iter xO m 1).
  rewrite binary_round_shift.
  destruct (binary_round_exact s m (e - 33 + 1)) as [mz [Hz ->]];
    try (unfold target, fexp64; lia).
  replace (target m (e - 33 + 1)) with (e - 32) in * by (unfold target, fexp64; lia).
  replace (e - 33 + 1 - (e - 32)) with 0 in Hz by lia.
  f_equal. lia.
Qed.

Lemma truncZ_div_two32 a :
  exactZ a -> 0 <= a < 2 ^ 1000 ->
  Num.truncZ (Num.div (Num.ofZ a) TWO_PWR_32_DBL_) = a / 2 ^ 32.
Proof.
  intros Ha H0. destruct (Z.eq_dec a 0) as [->|Hn]; [reflexivity|].
  destruct (ofZ_shape a Ha Hn) as (m & e & E & Hd & He & Hv).
  pose proof (shape_exp_ge a Hn) as Ga.
  assert (He2 : e <= 971).
  { rewrite Z.abs_eq in He, Ga by lia.
    assert (digits a <= 1000) by (apply digits_le_of_lt; lia). lia. }
  destruct (Z.ltb_spec a 0); [lia|]. unfold Num.signed, cond_Zopp in Hv.
  rewrite E, div_two32 by lia. cbn [Num.truncZ]. unfold Num.signed, cond_Zopp.
  destruct (shape_scale m e a ltac:(lia) Hv) as [S1 S2].
  destruct (Z.leb_spec 0 (e - 32)).
  - rewrite (S1 ltac:(lia)). replace e with ((e - 32) + 32) at 2 by lia.
    rewrite pow_split, Z.mul_assoc, Z.div_mul by lia. reflexivity.
  - destruct (Z.le_gt_cases 0 e).
    + rewrite (S1 ltac:(lia)).
      replace (- (e - 32)) with (32 - e) by lia.
      replace 32 with ((32 - e) + e) at 2 by lia.
      rewrite pow_split by lia.
      rewrite Z.div_mul_cancel_r; pose proof (pow_pos e); pose proof (pow_pos (32 - e)); lia.
    + rewrite (S2 ltac:(lia)).
      replace (- (e - 32)) with (32 + - e) by lia.
      rewrite pow_split by lia.
      rewrite Z.div_mul_cancel_r; pose proof (pow_pos (- e)); pose proof (pow_pos 32); lia.
Qed.

(** The floor of a quotient of exact positive integers is an exact integer
    that exceeds the true quotient by a factor of at most [1 + 2^-51]. *)
Lemma div_floor_bound r d :
  exactZ r -> exactZ d -> 0 < r < 2 ^ 70 -> 0 < d < 2 ^ 70 ->
  exists A, Num.Math_floor (Num.div (Num.ofZ r) (Num.ofZ d)) = Num.ofZ A
            /\ exactZ A /\ 0 <= A
            /\ A * d * 2 ^ 51 <= r * (2 ^ 51 + 1).
Proof.
  intros Hr Hd Hr0 Hd0.
  destruct (ofZ_shape r Hr ltac:(lia)) as (mr & er & Er & Hdr & Her & Hvr).
  destruct (ofZ_shape d Hd ltac:(lia)) as (md & ed & Ed & Hdd & Hed & Hvd).
  pose proof (shape_exp_ge r ltac:(lia)) as Gr.
  pose proof (shape_exp_ge d ltac:(lia)) as Gd.
  rewrite Z.abs_eq in Her, Hed, Gr, Gd by lia.
  assert (digits r <= 70) by (apply digits_le_of_lt; lia).
  assert (digits d <= 70) by (apply digits_le_of_lt; lia).
  destruct (Z.ltb_spec r 0); [lia|]. destruct (Z.ltb_spec d 0); [lia|].
  unfold Num.signed, cond_Zopp in Hvr, Hvd.
  rewrite Er, Ed, div_shape by (try assumption; lia).
  pose proof (digits_bounds (Zpos mr) ltac:(lia)) as [Lr Ur].
  pose proof (digits_bounds (Zpos md) ltac:(lia)) as [Ld Ud].
  rewrite Hdr in *. rewrite Hdd in *.
  change (2 ^ (53 - 1)) with (2 ^ 52) in *.
  set (q := Zpos mr * 2 ^ 53 / Zpos md).
  assert (Hqd : Zpos mr * 2 ^ 53 = Zpos md * q + (Zpos mr * 2 ^ 53) mod Zpos md)
    by (apply Z.div_mod; lia).
  pose proof (Z.mod_pos_bound (Zpos mr * 2 ^ 53) (Zpos md) ltac:(lia)) as Hm.
  assert (Hq : 2 ^ 52 <= q < 2 ^ 54).
  { change (2 ^ 54) with (2 * 2 ^ 53). change (2 ^ 53) with (2 * 2 ^ 52) in *. split; nia. }
  destruct (bra_bounds (xorb false false) q (er - ed - 53)
              (new_location (Zpos md) ((Zpos mr * 2 ^ 53) mod Zpos md))
              Hq ltac:(lia)) as (m & e' & -> & Hdm & He' & Hb).
  set (e0 := er - ed - 53) in *.
  pose proof (digits_bounds (Zpos m) ltac:(lia)) as [Lm Um]. rewrite Hdm in *.
  set (A := if 0 <=? e' then Zpos m * 2 ^ e' else Zpos m / 2 ^ (- e')).
  exists A.
  set (W := ed + 105).
  assert (HW : 0 <= W /\ 0 <= e0 + W /\ 0 <= e' + W) by (unfold W, e0 in *; lia).
  (* A, scaled, is at most the mantissa, scaled *)
  assert (HA : 0 <= A /\ A * 2 ^ W <= Zpos m * 2 ^ (e' + W)
               /\ Num.Math_floor (S754_finite false m e') = Num.ofZ A /\ exactZ A).
  { unfold A. cbn [Num.Math_floor xorb]. destruct (Z.leb_spec 0 e').
    - pose proof (pow_pos e' ltac:(lia)). split; [nia|].
      rewrite pow_split by lia. split; [lia|].
      split; [symmetry; apply ofZ_mant; unfold e0 in *; lia|].
      apply exactZ_mant; unfold e0 in *; lia.
    - pose proof (pow_pos (- e') ltac:(lia)) as Pn.
      pose proof (Z.div_mod (Zpos m) (2 ^ (- e')) ltac:(lia)) as Hdm'.
      pose proof (Z.mod_pos_bound (Zpos m) (2 ^ (- e')) Pn).
      assert (0 <= Zpos m / 2 ^ (- e')) by (apply Z.div_pos; lia).
      split; [lia|]. split.
      + replace W with (- e' + (e' + W)) at 1 by lia.
        rewrite (pow_split (- e') (e' + W)) by lia.
        pose proof (pow_pos (e' + W) ltac:(lia)). nia.
      + unfold Num.signed, cond_Zopp. split; [reflexivity|].
        apply exactZ_small. rewrite Z.abs_eq by lia. nia. }
  destruct HA as (HA0 & HA1 & HA2 & HA3).
  split; [exact HA2|]. split; [exact HA3|]. split; [exact HA0|].
  (* scaled comparison with the quotient of mantissas *)
  set (U := 2 ^ (er + 52)) in *. set (V := 2 ^ (ed + 52)) in *.
  assert (PU : 0 < U) by (apply pow_pos; lia).
  assert (PV : 0 < V) by (apply pow_pos; lia).
  assert (EW : 2 ^ W = V * 2 ^ 53).
  { unfold W, V. rewrite <- pow_split by lia. f_equal. lia. }
  assert (E0 : 2 ^ (e0 + W) = U).
  { unfold U, W, e0. f_equal. lia. }
  assert (K1 : A * (V * 2 ^ 53) <= (q + 2) * U).
  { rewrite <- EW, <- E0.
    eapply Z.le_trans; [exact HA1|].
    replace (e' + W) with ((e' - e0) + (e0 + W)) by lia.
    rewrite pow_split by lia.
    pose proof (pow_pos (e0 + W) ltac:(lia)).
    rewrite Z.mul_assoc. apply Z.mul_le_mono_nonneg_r; [lia|exact Hb]. }
  (* r * 2^52 = mr * U, d * 2^52 = md * V *)
  assert (K2 : A * (d * 2 ^ 52) * 2 ^ 53 <= (r * 2 ^ 52) * 2 ^ 53 + 2 * Zpos md * U).
  { rewrite Hvr, Hvd. fold U V.
    transitivity ((q + 2) * U * Zpos md); [|nia].
    replace (A * (Zpos md * V) * 2 ^ 53) with (A * (V * 2 ^ 53) * Zpos md) by ring.
    apply Z.mul_le_mono_nonneg_r; lia. }
  assert (K3 : U <= r).
  { fold U in Hvr. apply (Z.mul_le_mono_pos_r _ _ (2 ^ 52)); [reflexivity|].
    rewrite Hvr, (Z.mul_comm U). apply Z.mul_le_mono_nonneg_r; lia. }
  change (2 ^ 53) with (4 * 2 ^ 51) in K2, Ud.
  change (2 ^ 52) with (2 * 2 ^ 51) in K2.
  set (T := 2 ^ 51) in *. assert (0 < T) by reflexivity.
  assert (K4 : 2 * Zpos md * U <= 8 * T * r) by nia.
  nia.
Qed.

End NumSplit.


(** ** Word pairs as 64-bit integers *)

Module Int64.

Ltac pow2 :=
  change (2 ^ 16) with 65536 in *; change (2 ^ 31) with 2147483648 in *;
  change (2 ^ 32) with 4294967296 in *;
  change (2 ^ 63) with 9223372036854775808 in *;
  change (2 ^ 64) with 18446744073709551616 in *.

Lemma toZ_wf x : wf x -> toZ x = high_ x * 2 ^ 32 + low_ x mod 2 ^ 32.
Proof.
  intros [_ Hh]. unfold toZ, JS.toUint32. now rewrite JSFacts.toInt32_id.
Qed.

Lemma toZ_range x : - 2 ^ 63 <= toZ x < 2 ^ 63.
Proof.
  unfold toZ, JS.toUint32.
  pose proof (JSFacts.toInt32_range (high_ x)).
  pose proof (Z.mod_pos_bound (low_ x) (2 ^ 32) ltac:(lia)).
  pow2. lia.
Qed.

Lemma toZ_inj x y : wf x -> wf y -> toZ x = toZ y -> x = y.
Proof.
  intros Hx Hy H. rewrite !toZ_wf in H by assumption.
  destruct x as [lx hx], y as [ly hy]. destruct Hx, Hy. simpl in *.
  assert (hx = hy /\ lx = ly); [|intuition congruence].
  pow2. Z.div_mod_to_equations. lia.
Qed.

Lemma wrap64_id z : - 2 ^ 63 <= z < 2 ^ 63 -> wrap64 z = z.
Proof. intros H. unfold wrap64. rewrite Z.mod_small; lia. Qed.

Lemma wrap64_range z : - 2 ^ 63 <= wrap64 z < 2 ^ 63.
Proof.
  unfold wrap64. pose proof (Z.mod_pos_bound (z + 2 ^ 63) (2 ^ 64) ltac:(lia)). lia.
Qed.

Lemma wrap64_add_mul z k : wrap64 (z + k * 2 ^ 64) = wrap64 z.
Proof.
  unfold wrap64. replace (z + k * 2 ^ 64 + 2 ^ 63) with (z + 2 ^ 63 + k * 2 ^ 64) by ring.
  now rewrite Z.mod_add by lia.
Qed.

Lemma wrap64_eqm a b : (a - b) mod 2 ^ 64 = 0 -> wrap64 a = wrap64 b.
Proof.
  intros H. apply Z.mod_divide in H; [|lia]. destruct H as [k Hk].
  replace a with (b + k * 2 ^ 64) by lia. apply wrap64_add_mul.
Qed.

Lemma wrap64_wrap_l a b : wrap64 (wrap64 a + b) = wrap64 (a + b).
Proof.
  apply wrap64_eqm. unfold wrap64.
  replace ((a + 2 ^ 63) mod 2 ^ 64 - 2 ^ 63 + b - (a + b))
    with (- ((a + 2 ^ 63) / 2 ^ 64) * 2 ^ 64).
  - apply Z.mod_mul. lia.
  - pose proof (Z.div_mod (a + 2 ^ 63) (2 ^ 64) ltac:(lia)). lia.
Qed.

Lemma wrap64_wrap_r a b : wrap64 (a + wrap64 b) = wrap64 (a + b).
Proof. rewrite Z.add_comm, wrap64_wrap_l. f_equal. lia. Qed.

Lemma toZ_fromInt v : - 2 ^ 31 <= v < 2 ^ 31 -> toZ (fromInt v) = v.
Proof.
  intros H. unfold fromInt. rewrite toZ_new_Timestamp.
  rewrite JSFacts.or_0, JSFacts.toUint32_toInt32.
  unfold JS.toUint32, JS.toInt32.
  destruct (Z.ltb_spec v 0); pow2; Z.div_mod_to_equations; lia.
Qed.

Lemma isNegative_spec x : wf x -> isNegative x = (toZ x <? 0).
Proof.
  intros Hx. rewrite toZ_wf by assumption. unfold isNegative.
  pose proof (Z.mod_pos_bound (low_ x) (2 ^ 32) ltac:(lia)).
  destruct Hx. destruct (Z.ltb_spec (high_ x) 0);
    destruct (Z.ltb_spec (high_ x * 2 ^ 32 + low_ x mod 2 ^ 32) 0); try reflexivity; pow2; lia.
Qed.

Lemma equals_spec x y : wf x -> wf y -> equals x y = (toZ x =? toZ y).
Proof.
  intros Hx Hy. destruct (Z.eqb_spec (toZ x) (toZ y)) as [E|E].
  - apply toZ_inj in E; try assumption. subst. apply equals_refl.
  - destruct (equals x y) eqn:Q; [|reflexivity].
    apply equals_true_eq in Q. congruence.
Qed.

Lemma isZero_spec x : wf x -> isZero x = (toZ x =? 0).
Proof.
  intros Hx. change (isZero x) with (equals x ZERO).
  rewrite equals_spec by (assumption || apply ZERO_wf). reflexivity.
Qed.

Lemma MIN_VALUE_wf : wf MIN_VALUE.
Proof. vm_compute. intuition congruence. Qed.

Lemma MAX_VALUE_wf : wf MAX_VALUE.
Proof. vm_compute. intuition congruence. Qed.

Lemma ONE_wf : wf ONE.
Proof. vm_compute. intuition congruence. Qed.

Lemma toZ_not x : toZ (not x) = - toZ x - 1.
Proof.
  unfold not, fromBits. rewrite toZ_new_Timestamp.
  unfold JS.not. rewrite JSFacts.toInt32_idem, JSFacts.toUint32_toInt32.
  unfold toZ, Z.lnot.
  unfold JS.toUint32, JS.toInt32. pow2. Z.div_mod_to_equations. lia.
Qed.

Lemma toZ_negate x : wf x -> toZ (negate x) = wrap64 (- toZ x).
Proof.
  intros Hx. unfold negate. rewrite equals_spec by (assumption || apply MIN_VALUE_wf).
  destruct (Z.eqb_spec (toZ x) (toZ MIN_VALUE)) as [E|E].
  - rewrite E. reflexivity.
  - rewrite toZ_add, toZ_not. f_equal. change (toZ ONE) with 1. lia.
Qed.

Lemma toZ_subtract x y : wf y -> toZ (subtract x y) = wrap64 (toZ x - toZ y).
Proof.
  intros Hy. unfold subtract. rewrite toZ_add, toZ_negate by assumption.
  rewrite wrap64_wrap_r. f_equal.
Qed.

Lemma subtract_wf x y : wf (subtract x y).
Proof. apply add_wf. Qed.

(** [compare] orders word pairs as the integers they denote. *)
Lemma compare_spec x y :
  wf x -> wf y ->
  compare x y = match toZ x ?= toZ y with Lt => -1 | Eq => 0 | Gt => 1 end.
Proof.
  intros Hx Hy. unfold compare.
  rewrite equals_spec, !isNegative_spec by (assumption || apply subtract_wf).
  rewrite toZ_subtract by assumption.
  pose proof (toZ_range x). pose proof (toZ_range y).
  destruct (Z.compare_spec (toZ x) (toZ y)) as [E|E|E].
  - rewrite (proj2 (Z.eqb_eq _ _) E). reflexivity.
  - rewrite (proj2 (Z.eqb_neq _ _)) by lia.
    destruct (Z.ltb_spec (toZ x) 0); destruct (Z.ltb_spec (toZ y) 0);
      cbn [andb negb]; try reflexivity; try lia;
      rewrite wrap64_id by lia;
      destruct (Z.ltb_spec (toZ x - toZ y) 0); try reflexivity; lia.
  - rewrite (proj2 (Z.eqb_neq _ _)) by lia.
    destruct (Z.ltb_spec (toZ x) 0); destruct (Z.ltb_spec (toZ y) 0);
      cbn [andb negb]; try reflexivity; try lia;
      rewrite wrap64_id by lia;
      destruct (Z.ltb_spec (toZ x - toZ y) 0); try reflexivity; lia.
Qed.

Lemma lessThan_spec x y : wf x -> wf y -> lessThan x y = (toZ x <? toZ y).
Proof.
  intros. unfold lessThan. rewrite compare_spec by assumption.
  unfold Z.ltb at 2. destruct (toZ x ?= toZ y); reflexivity.
Qed.

Lemma greaterThan_spec x y : wf x -> wf y -> greaterThan x y = (toZ y <? toZ x).
Proof.
  intros. unfold greaterThan. rewrite compare_spec by assumption.
  rewrite Z.ltb_antisym, Z.leb_compare.
  destruct (toZ x ?= toZ y); reflexivity.
Qed.

Lemma greaterThanOrEqual_spec x y :
  wf x -> wf y -> greaterThanOrEqual x y = (toZ y <=? toZ x).
Proof.
  intros. unfold greaterThanOrEqual. rewrite compare_spec by assumption.
  rewrite Z.leb_antisym, Z.ltb_compare.
  destruct (toZ x ?= toZ y); reflexivity.
Qed.

Lemma isOdd_spec x : isOdd x = Z.odd (toZ x).
Proof.
  unfold isOdd, toZ, JS.and. change (JS.toInt32 1) with (Z.ones 1).
  rewrite Z.land_ones by lia. change (2 ^ 1) with 2.
  rewrite Rnd.odd_mod2.
  assert (E : (JS.toInt32 (high_ x) * 2 ^ 32 + JS.toUint32 (low_ x)) mod 2
              = JS.toInt32 (low_ x) mod 2).
  { unfold JS.toInt32, JS.toUint32. pow2. Z.div_mod_to_equations. lia. }
  rewrite E.
  pose proof (Z.mod_pos_bound (JS.toInt32 (low_ x)) 2 ltac:(lia)).
  rewrite JSFacts.toInt32_id by (pow2; lia).
  destruct (Z.eqb_spec (JS.toInt32 (low_ x) mod 2) 1);
    destruct (Z.leb_spec 1 (JS.toInt32 (low_ x) mod 2)); try reflexivity; lia.
Qed.

End Int64.


(** ** Conversions between word pairs and numbers *)

Module Conv.

Import B64 Exact Rnd NumFacts NumSplit Int64.

Lemma exactZ_int32 z : - 2 ^ 31 <= z < 2 ^ 31 -> exactZ z.
Proof. intros. apply exactZ_small. pow2. lia. Qed.

Lemma exactZ_bounded z : Z.abs z <= 2 ^ 53 -> exactZ z.
Proof.
  intros H. destruct (Z.eq_dec (Z.abs z) (2 ^ 53)) as [E|E].
  - exists (Z.sgn z), 53. rewrite <- E at 1.
    rewrite Z.mul_comm, Z.abs_sgn.
    pose proof pow1024_big. repeat split; try lia.
  - apply exactZ_small. lia.
Qed.

Lemma exactZ_mul_pow2 n k :
  Z.abs n < 2 ^ 53 -> 0 <= k <= 900 -> exactZ (n * 2 ^ k).
Proof.
  intros Hn Hk. exists n, k. repeat split; try lia.
  pose proof (pow_pos k ltac:(lia)).
  rewrite Z.abs_mul, (Z.abs_eq (2 ^ k)) by lia.
  apply Z.lt_le_trans with (2 ^ 53 * 2 ^ k); [nia|].
  rewrite <- pow_split by lia. apply Z.pow_le_mono_r; lia.
Qed.

Lemma exactZ_two63 : exactZ (2 ^ 63).
Proof. apply (exactZ_mul_pow2 1 63); [reflexivity|lia]. Qed.

Lemma exactZ_neg_two63 : exactZ (- 2 ^ 63).
Proof. apply (exactZ_mul_pow2 (-1) 63); [reflexivity|lia]. Qed.

(** [toNumber] is the nearest double to the integer denoted. *)
Lemma toNumber_spec x : wf x -> toNumber x = Num.ofZ (toZ x).
Proof.
  intros Hx. rewrite toZ_wf by assumption. destruct Hx as [Hl Hh].
  unfold toNumber.
  change TWO_PWR_32_DBL_ with (Num.ofZ (2 ^ 32)).
  rewrite mul_exact by (try apply exactZ_small; pow2; lia).
  assert (L : getLowBitsUnsigned x = Num.ofZ (low_ x mod 2 ^ 32)).
  { unfold getLowBitsUnsigned. destruct (Z.leb_spec 0 (low_ x)).
    - rewrite Z.mod_small by lia. reflexivity.
    - change TWO_PWR_32_DBL_ with (Num.ofZ (2 ^ 32)).
      rewrite add_exact by (apply exactZ_small; pow2; lia).
      f_equal. pow2. Z.div_mod_to_equations. lia. }
  rewrite L. apply add_exact.
  - exists (high_ x), 32. repeat split; try (pow2; lia).
  - pose proof (Z.mod_pos_bound (low_ x) (2 ^ 32) ltac:(lia)).
    apply exactZ_small. pow2. lia.
Qed.

(** Without the negative branch the fuel of [fromNumber] is not used. *)
Lemma fromNumber_fuel_nonneg v n m :
  Num.ltb v (Num.ofZ 0) = false ->
  fromNumber_fuel (S n) v = fromNumber_fuel (S m) v.
Proof. intros H. cbn [fromNumber_fuel]. now rewrite H. Qed.

Lemma ltb_neg_false v :
  Num.ltb v (Num.ofZ 0) = true -> Num.ltb (Num.neg v) (Num.ofZ 0) = false.
Proof. destruct v as [[]|[]| |[] m e]; cbn; congruence. Qed.

(** Two rounds of fuel are enough for [fromNumber]. *)
Lemma fromNumber_fuel_enough n v :
  fromNumber_fuel (S (S n)) v = Some (fromNumber v).
Proof.
  unfold fromNumber.
  assert (E : fromNumber_fuel (S (S n)) v = fromNumber_fuel 2 v).
  { cbn [fromNumber_fuel].
    destruct (Num.isNaN v || negb (Num.isFinite v)); [reflexivity|].
    destruct (Num.leb v (Num.neg TWO_PWR_63_DBL_)); [reflexivity|].
    destruct (Num.leb TWO_PWR_63_DBL_ (Num.add v (Num.ofZ 1))); [reflexivity|].
    destruct (Num.ltb v (Num.ofZ 0)) eqn:L; [|reflexivity].
    apply ltb_neg_false in L. now rewrite L. }
  rewrite E. cbn [fromNumber_fuel].
  destruct (Num.isNaN v || negb (Num.isFinite v)); [reflexivity|].
  destruct (Num.leb v (Num.neg TWO_PWR_63_DBL_)); [reflexivity|].
  destruct (Num.leb TWO_PWR_63_DBL_ (Num.add v (Num.ofZ 1))); [reflexivity|].
  destruct (Num.ltb v (Num.ofZ 0)) eqn:L; [|reflexivity].
  apply ltb_neg_false in L. rewrite L.
  destruct (Num.isNaN (Num.neg v) || negb (Num.isFinite (Num.neg v))); [reflexivity|].
  destruct (Num.leb (Num.neg v) (Num.neg TWO_PWR_63_DBL_)); [reflexivity|].
  destruct (Num.leb TWO_PWR_63_DBL_ (Num.add (Num.neg v) (Num.ofZ 1))); reflexivity.
Qed.

Lemma fromNumber_wf v : wf (fromNumber v).
Proof.
  unfold fromNumber. cbn [fromNumber_fuel].
  destruct (Num.isNaN v || negb (Num.isFinite v)); [apply ZERO_wf|].
  destruct (Num.leb v (Num.neg TWO_PWR_63_DBL_)); [apply MIN_VALUE_wf|].
  destruct (Num.leb TWO_PWR_63_DBL_ (Num.add v (Num.ofZ 1))); [apply MAX_VALUE_wf|].
  destruct (Num.ltb v (Num.ofZ 0)).
  - destruct (Num.isNaN (Num.neg v) || negb (Num.isFinite (Num.neg v)));
      [apply negate_wf|].
    destruct (Num.leb (Num.neg v) (Num.neg TWO_PWR_63_DBL_)); [apply negate_wf|].
    destruct (Num.leb TWO_PWR_63_DBL_ (Num.add (Num.neg v) (Num.ofZ 1)));
      [apply negate_wf|].
    destruct (Num.ltb (Num.neg v) (Num.ofZ 0)); [apply ZERO_wf | apply negate_wf].
  - apply new_Timestamp_wf.
Qed.

(** Exact integers below 2^63 stop 1024 short of it. *)
Lemma exact_gap A : exactZ A -> 0 <= A < 2 ^ 63 -> A <= 2 ^ 63 - 1024.
Proof.
  intros (n & k & -> & Hk & Hn & _) HA.
  pose proof (pow_pos k Hk) as Pk.
  assert (0 <= n) by nia.
  destruct (Z.le_gt_cases 10 k).
  - replace k with ((k - 10) + 10) in * by lia.
    rewrite pow_split in * by lia. change (2 ^ 10) with 1024 in *.
    pose proof (pow_pos (k - 10) ltac:(lia)).
    set (j := n * 2 ^ (k - 10)) in *.
    replace (n * (2 ^ (k - 10) * 1024)) with (1024 * j) in * by (unfold j; ring).
    pow2. lia.
  - assert (2 ^ k <= 2 ^ 9) by (apply Z.pow_le_mono_r; lia).
    rewrite Z.abs_eq in Hn by lia.
    change (2 ^ 9) with 512 in *. change (2 ^ 53) with 9007199254740992 in *.
    pow2. nia.
Qed.

Lemma is_finite_ofZ A :
  exactZ A -> Num.isNaN (Num.ofZ A) || negb (Num.isFinite (Num.ofZ A)) = false.
Proof.
  intros HA. destruct (Z.eq_dec A 0) as [->|Hn]; [reflexivity|].
  destruct (ofZ_shape A HA Hn) as (m & e & -> & _). reflexivity.
Qed.

(** Is the rounded [A + 1] at least 2^63? *)
Lemma leb_two63_succ A :
  exactZ A -> 0 <= A < 2 ^ 70 ->
  Num.leb TWO_PWR_63_DBL_ (Num.add (Num.ofZ A) (Num.ofZ 1)) = (2 ^ 63 <=? A).
Proof.
  intros HA H0. rewrite add_exact by first [assumption | apply exactZ_small; reflexivity].
  destruct (ofZ_nearest (A + 1)) as (z' & -> & Hz' & Hp & Hrel & Habs).
  { split; [lia|]. apply Z.lt_trans with (2 ^ 71); [|apply Z.pow_lt_mono_r; lia].
    change (2 ^ 71) with (2 * 2 ^ 70). lia. }
  rewrite TWO_PWR_63_DBL_eq, leb_exact by first [assumption | apply exactZ_two63].
  destruct (Z.leb_spec (2 ^ 63) A) as [Hbig|Hsmall].
  - destruct (Z.leb_spec (2 ^ 63) z') as [|Hlt]; [reflexivity|].
    pose proof (exact_gap z' Hz' ltac:(lia)).
    change (2 ^ 53) with 9007199254740992 in *. pow2. lia.
  - pose proof (exact_gap A HA ltac:(lia)).
    assert (Hd : digits (A + 1) <= 63) by (apply digits_le_of_lt; pow2; lia).
    assert (2 ^ (digits (A + 1) - 53) <= 2 ^ 10).
    { destruct (Z.le_gt_cases 0 (digits (A + 1) - 53)).
      - apply Z.pow_le_mono_r; lia.
      - rewrite Z.pow_neg_r by lia. lia. }
    change (2 ^ 10) with 1024 in *.
    destruct (Z.leb_spec (2 ^ 63) z'); [pow2; lia|reflexivity].
Qed.

(** [fromNumber] on a non-negative exact integer. *)
Lemma fromNumber_exact A :
  exactZ A -> 0 <= A < 2 ^ 70 ->
  fromNumber (Num.ofZ A)
  = if 2 ^ 63 <=? A then MAX_VALUE
    else new_Timestamp (A mod 2 ^ 32) (A / 2 ^ 32).
Proof.
  intros HA H0. unfold fromNumber. cbn [fromNumber_fuel].
  rewrite is_finite_ofZ by assumption.
  change (Num.neg TWO_PWR_63_DBL_) with (Num.ofZ (- 2 ^ 63)).
  rewrite leb_exact by first [assumption | apply exactZ_neg_two63].
  destruct (Z.leb_spec A (- 2 ^ 63)); [pow2; lia|].
  rewrite leb_two63_succ by assumption.
  destruct (Z.leb_spec (2 ^ 63) A); [reflexivity|].
  rewrite ltb_exact by first [assumption | apply exactZ_small; reflexivity].
  destruct (Z.ltb_spec A 0); [lia|].
  unfold Num.ToInt32.
  rewrite rem_exact by (try assumption; lia).
  pose proof (Z.mod_pos_bound A (2 ^ 32) ltac:(lia)).
  rewrite truncZ_exact by (apply exactZ_small; pow2; lia).
  assert (A < 2 ^ 1000).
  { apply Z.lt_trans with (2 ^ 70); [lia|apply Z.pow_lt_mono_r; lia]. }
  rewrite truncZ_div_two32 by (try assumption; lia).
  unfold new_Timestamp. now rewrite !JSFacts.or_0, !JSFacts.toInt32_idem.
Qed.

Lemma toZ_fromNumber_exact A :
  exactZ A -> 0 <= A < 2 ^ 70 ->
  toZ (fromNumber (Num.ofZ A)) = Z.min A (2 ^ 63 - 1).
Proof.
  intros HA H0. rewrite fromNumber_exact by assumption.
  destruct (Z.leb_spec (2 ^ 63) A).
  - change (toZ MAX_VALUE) with (2 ^ 63 - 1). lia.
  - rewrite toZ_new_Timestamp. unfold JS.toUint32, JS.toInt32.
    pow2. Z.div_mod_to_equations. lia.
Qed.

End Conv.


(** ** [multiply] is multiplication modulo 2^64 *)

Module Mul.

Import Exact NumFacts Int64 Conv.

(** The carry chain of [multiply], with the partial products abstracted:
    the four result chunks spell the sum of the weighted products, up to a
    multiple of 2^64. *)
Lemma mul_carry_chain p00 p10 p01 p20 p11 p02 p3 :
  0 <= p00 <= 4294836225 -> 0 <= p10 <= 4294836225 ->
  0 <= p01 <= 4294836225 -> 0 <= p20 <= 4294836225 ->
  0 <= p11 <= 4294836225 -> 0 <= p02 <= 4294836225 ->
  0 <= p3 ->
  let c00 := p00 in
  let c16 := (c00 mod 4294967296) / 65536 in
  let c00 := c00 mod 65536 in
  let c16 := c16 + p10 in
  let c32 := (c16 mod 4294967296) / 65536 in
  let c16 := c16 mod 65536 in
  let c16 := c16 + p01 in
  let c32 := c32 + (c16 mod 4294967296) / 65536 in
  let c16 := c16 mod 65536 in
  let c32 := c32 + p20 in
  let c48 := (c32 mod 4294967296) / 65536 in
  let c32 := c32 mod 65536 in
  let c32 := c32 + p11 in
  let c48 := c48 + (c32 mod 4294967296) / 65536 in
  let c32 := c32 mod 65536 in
  let c32 := c32 + p02 in
  let c48 := c48 + (c32 mod 4294967296) / 65536 in
  let c32 := c32 mod 65536 in
  let c48 := c48 + p3 in
  let c48' := c48 mod 65536 in
  (0 <= c48' * 65536 + c32 < 4294967296
   /\ 0 <= c16 * 65536 + c00 < 4294967296)
  /\ (c48' * 65536 + c32) * 4294967296 + (c16 * 65536 + c00)
     = (p00 + 65536 * (p10 + p01) + 4294967296 * (p20 + p11 + p02)
        + 281474976710656 * p3)
       - (c48 / 65536) * 18446744073709551616.
Proof.
  intros B00 B10 B01 B20 B11 B02 B3. cbv zeta.
  repeat match goal with
  | |- context [?t mod 4294967296] =>
      rewrite (Z.mod_small t 4294967296) by (Z.div_mod_to_equations; lia)
  end.
  split; [split|]; Z.div_mod_to_equations; lia.
Qed.

Lemma words_wrap hi lo k :
  0 <= hi < 2^32 -> 0 <= lo < 2^32 ->
  JS.toInt32 hi * 2^32 + JS.toUint32 (JS.toInt32 lo)
  = wrap64 (hi * 2^32 + lo + k * 2^64).
Proof.
  intros Hh Hl. rewrite wrap64_add_mul, JSFacts.toUint32_toInt32.
  unfold JS.toInt32, JS.toUint32, wrap64. pow2.
  Z.div_mod_to_equations. lia.
Qed.

Lemma chunk_decomp H L :
  JS.toInt32 H * 2^32 + JS.toUint32 L
  = L mod 2^16 + 2^16 * ((L mod 2^32) / 2^16) + 2^32 * (H mod 2^16)
    + 2^48 * ((H mod 2^32) / 2^16) - 2^64 * ((H mod 2^32) / 2^31).
Proof.
  unfold JS.toInt32, JS.toUint32.
  change (2^31) with 2147483648. change (2^32) with 4294967296.
  change (2^16) with 65536. change (2^48) with 281474976710656.
  change (2^64) with 18446744073709551616.
  Z.div_mod_to_equations. lia.
Qed.

Lemma chunk_bounds z :
  0 <= z mod 2^16 <= 65535 /\ 0 <= (z mod 2^32) / 2^16 <= 65535.
Proof.
  change (2^32) with 4294967296. change (2^16) with 65536.
  Z.div_mod_to_equations. lia.
Qed.

Lemma prod_bound a b :
  0 <= a <= 65535 -> 0 <= b <= 65535 -> 0 <= a * b <= 4294836225.
Proof. intros. nia. Qed.

Lemma toZ_multiply_chunks x y :
  toZ (multiply_chunks x y) = wrap64 (toZ x * toZ y).
Proof.
  unfold multiply_chunks, fromBits. rewrite toZ_new_Timestamp.
  cbv zeta. rewrite !Z.add_0_l.
  rewrite !JSFacts.and_65535, !JSFacts.ushr_16.
  rewrite !JSFacts.or_shl16 by (apply Z.mod_pos_bound; reflexivity).
  rewrite JSFacts.toInt32_idem.
  set (a00 := low_ x mod 2^16). set (a16 := (low_ x mod 2^32) / 2^16).
  set (a32 := high_ x mod 2^16). set (a48 := (high_ x mod 2^32) / 2^16).
  set (b00 := low_ y mod 2^16). set (b16 := (low_ y mod 2^32) / 2^16).
  set (b32 := high_ y mod 2^16). set (b48 := (high_ y mod 2^32) / 2^16).
  destruct (chunk_bounds (low_ x)) as [A0 A1].
  destruct (chunk_bounds (high_ x)) as [A2 A3].
  destruct (chunk_bounds (low_ y)) as [B0 B1].
  destruct (chunk_bounds (high_ y)) as [B2 B3].
  fold a00 a16 a32 a48 b00 b16 b32 b48 in A0, A1, A2, A3, B0, B1, B2, B3.
  pose proof (mul_carry_chain (a00 * b00) (a16 * b00) (a00 * b16)
                (a32 * b00) (a16 * b16) (a00 * b32)
                (a48 * b00 + a32 * b16 + a16 * b32 + a00 * b48)
                (prod_bound _ _ A0 B0) (prod_bound _ _ A1 B0)
                (prod_bound _ _ A0 B1) (prod_bound _ _ A2 B0)
                (prod_bound _ _ A1 B1) (prod_bound _ _ A0 B2)
                ltac:(nia)) as E.
  cbv zeta in E. destruct E as [[Rh Rl] E].
  change 65536 with (2^16) in Rh, Rl, E.
  change 4294967296 with (2^32) in Rh, Rl, E.
  match type of E with _ = _ - ?k * _ =>
    rewrite (words_wrap _ _ k Rh Rl)
  end.
  change 18446744073709551616 with (2^64) in E. rewrite E. clear E Rh Rl.
  rewrite Z.sub_add.
  apply wrap64_eqm.
  unfold toZ. rewrite (chunk_decomp (high_ x) (low_ x)), (chunk_decomp (high_ y) (low_ y)).
  fold a00 a16 a32 a48 b00 b16 b32 b48.
  set (sx := (high_ x mod 2^32) / 2^31). set (sy := (high_ y mod 2^32) / 2^31).
  match goal with |- (?P - ?XY) mod _ = 0 =>
    replace (P - XY) with
      ((- (a16 * b48 + a32 * b32 + a48 * b16
           + 2^16 * (a32 * b48 + a48 * b32) + 2^32 * (a48 * b48))
        + sx * (b00 + 2^16 * b16 + 2^32 * b32 + 2^48 * b48)
        + sy * (a00 + 2^16 * a16 + 2^32 * a32 + 2^48 * a48)
        - 2^64 * sx * sy) * 2^64)
  end.
  - apply Z.mod_mul. lia.
  - change 281474976710656 with (2^16 * 2^16 * 2^16).
    change (2^64) with (2^16 * 2^16 * 2^16 * 2^16).
    change (2^48) with (2^16 * 2^16 * 2^16).
    change (2^32) with (2^16 * 2^16). ring.
Qed.

Lemma multiply_chunks_wf x y : wf (multiply_chunks x y).
Proof. apply new_Timestamp_wf. Qed.

Lemma wrap64_opp_wrap a : wrap64 (- wrap64 a) = wrap64 (- a).
Proof.
  apply wrap64_eqm. unfold wrap64.
  replace (- ((a + 2 ^ 63) mod 2 ^ 64 - 2 ^ 63) - - a)
    with ((a + 2 ^ 63) / 2 ^ 64 * 2 ^ 64).
  - apply Z.mod_mul. lia.
  - pose proof (Z.div_mod (a + 2 ^ 63) (2 ^ 64) ltac:(lia)). lia.
Qed.

Lemma wrap64_MIN_mul Y :
  wrap64 (- 2 ^ 63 * Y) = if Z.odd Y then - 2 ^ 63 else 0.
Proof.
  destruct (Z.odd Y) eqn:O.
  - apply Z.odd_spec in O. destruct O as [k ->].
    replace (- 2 ^ 63 * (2 * k + 1)) with (- 2 ^ 63 + (- k) * 2 ^ 64)
      by (change (2 ^ 64) with (2 * 2 ^ 63); ring).
    rewrite wrap64_add_mul. reflexivity.
  - rewrite <- Z.negb_even in O. apply negb_false_iff, Z.even_spec in O.
    destruct O as [k ->].
    replace (- 2 ^ 63 * (2 * k)) with (0 + (- k) * 2 ^ 64)
      by (change (2 ^ 64) with (2 * 2 ^ 63); ring).
    rewrite wrap64_add_mul. reflexivity.
Qed.

Lemma toZ_TWO_PWR_24_ : toZ TWO_PWR_24_ = 2 ^ 24.
Proof. reflexivity. Qed.

Lemma TWO_PWR_24_wf : wf TWO_PWR_24_.
Proof. vm_compute. intuition congruence. Qed.

(** The float path for two small non-negative operands is exact. *)
Lemma toZ_multiply_small x y :
  wf x -> wf y -> 0 <= toZ x < 2 ^ 24 -> 0 < toZ y < 2 ^ 24 ->
  toZ (fromNumber (Num.mul (toNumber x) (toNumber y))) = toZ x * toZ y.
Proof.
  intros Hx Hy HX HY. rewrite !toNumber_spec by assumption.
  assert (P : 0 <= toZ x * toZ y < 2 ^ 48).
  { change (2 ^ 48) with (2 ^ 24 * 2 ^ 24). nia. }
  rewrite mul_exact by (try lia; apply exactZ_small;
                        change (2 ^ 53) with (2 ^ 24 * 2 ^ 29) in *; lia).
  rewrite toZ_fromNumber_exact.
  - change (2 ^ 48) with 281474976710656 in P. pow2. lia.
  - apply exactZ_small. change (2 ^ 48) with 281474976710656 in P.
    change (2 ^ 53) with 9007199254740992. lia.
  - change (2 ^ 48) with 281474976710656 in P.
    change (2 ^ 70) with 1180591620717411303424. lia.
Qed.

Lemma multiply_fuel_unfold fuel x other :
  multiply_fuel (S fuel) x other
  = if isZero x then Some ZERO
    else if isZero other then Some ZERO
    else if equals x MIN_VALUE then
      Some (if isOdd other then MIN_VALUE else ZERO)
    else if equals other MIN_VALUE then
      Some (if isOdd x then MIN_VALUE else ZERO)
    else if isNegative x then
      if isNegative other then multiply_fuel fuel (negate x) (negate other)
      else option_map negate (multiply_fuel fuel (negate x) other)
    else if isNegative other then
      option_map negate (multiply_fuel fuel x (negate other))
    else if lessThan x TWO_PWR_24_ && lessThan other TWO_PWR_24_ then
      Some (fromNumber (Num.mul (toNumber x) (toNumber other)))
    else Some (multiply_chunks x other).
Proof. reflexivity. Qed.

(** Non-negative operands: one round of fuel. *)
Lemma multiply_nonneg x y :
  wf x -> wf y -> isNegative x = false -> isNegative y = false ->
  exists r, (forall n, multiply_fuel (S n) x y = Some r)
            /\ toZ r = wrap64 (toZ x * toZ y) /\ wf r.
Proof.
  intros Hx Hy Nx Ny.
  pose proof (toZ_range x) as Rx. pose proof (toZ_range y) as Ry.
  assert (Ex : equals x MIN_VALUE = false).
  { destruct (equals x MIN_VALUE) eqn:E; [|reflexivity].
    apply equals_true_eq in E. subst x. discriminate. }
  assert (Ey : equals y MIN_VALUE = false).
  { destruct (equals y MIN_VALUE) eqn:E; [|reflexivity].
    apply equals_true_eq in E. subst y. discriminate. }
  cbn [multiply_fuel]. rewrite Nx, Ny, Ex, Ey.
  rewrite (isNegative_spec x Hx) in Nx. rewrite (isNegative_spec y Hy) in Ny.
  apply Z.ltb_ge in Nx, Ny.
  rewrite (isZero_spec x Hx), (isZero_spec y Hy).
  destruct (Z.eqb_spec (toZ x) 0) as [Zx|Zx].
  { exists ZERO. rewrite Zx. split; [|split]; auto using ZERO_wf. }
  destruct (Z.eqb_spec (toZ y) 0) as [Zy|Zy].
  { exists ZERO. rewrite Zy, Z.mul_0_r. split; [|split]; auto using ZERO_wf. }
  rewrite !lessThan_spec by (assumption || apply TWO_PWR_24_wf).
  rewrite toZ_TWO_PWR_24_.
  destruct (Z.ltb_spec (toZ x) (2 ^ 24)); destruct (Z.ltb_spec (toZ y) (2 ^ 24));
    cbn [andb].
  2-4: exists (multiply_chunks x y); (split; [|split]);
       auto using toZ_multiply_chunks, multiply_chunks_wf.
  exists (fromNumber (Num.mul (toNumber x) (toNumber y))).
  split; [reflexivity|]. split; [|apply fromNumber_wf].
  rewrite toZ_multiply_small by (assumption || lia).
  symmetry. apply wrap64_id.
  assert (0 <= toZ x * toZ y < 2 ^ 24 * 2 ^ 24) by nia.
  change (2 ^ 24 * 2 ^ 24) with 281474976710656 in *. pow2. lia.
Qed.

Lemma toZ_MIN_VALUE : toZ MIN_VALUE = - 2 ^ 63.
Proof. reflexivity. Qed.

Lemma negate_nonneg x :
  wf x -> isNegative x = true -> equals x MIN_VALUE = false ->
  toZ (negate x) = - toZ x /\ isNegative (negate x) = false.
Proof.
  intros Hx N E.
  rewrite equals_spec, toZ_MIN_VALUE in E by (assumption || apply MIN_VALUE_wf).
  rewrite isNegative_spec in N by assumption.
  apply Z.eqb_neq in E. apply Z.ltb_lt in N.
  pose proof (toZ_range x).
  assert (T : toZ (negate x) = - toZ x).
  { rewrite toZ_negate by assumption. apply wrap64_id. lia. }
  split; [exact T|].
  rewrite isNegative_spec by apply negate_wf. rewrite T.
  apply Z.ltb_ge. lia.
Qed.

(** [multiply] returns the product modulo 2^64, within three rounds. *)
Lemma multiply_spec x y :
  wf x -> wf y ->
  (forall n, multiply_fuel (3 + n) x y = Some (multiply x y))
  /\ toZ (multiply x y) = wrap64 (toZ x * toZ y)
  /\ wf (multiply x y).
Proof.
  intros Hx Hy.
  assert (G : exists r, (forall n, multiply_fuel (S (S n)) x y = Some r)
                        /\ toZ r = wrap64 (toZ x * toZ y) /\ wf r).
  { destruct (isZero x) eqn:Zx.
    { exists ZERO. rewrite isZero_spec in Zx by assumption.
      apply Z.eqb_eq in Zx. rewrite Zx. cbn [multiply_fuel].
      rewrite isZero_spec, Zx by assumption.
      split; [|split]; auto using ZERO_wf. }
    destruct (isZero y) eqn:Zy.
    { exists ZERO. rewrite isZero_spec in Zy by assumption.
      apply Z.eqb_eq in Zy. rewrite Zy, Z.mul_0_r. cbn [multiply_fuel].
      rewrite Zx. rewrite isZero_spec, Zy by assumption.
      split; [|split]; auto using ZERO_wf. }
    destruct (equals x MIN_VALUE) eqn:Ex.
    { exists (if isOdd y then MIN_VALUE else ZERO).
      split; [intros n; rewrite multiply_fuel_unfold; now rewrite Zx, Zy, Ex|].
      apply equals_true_eq in Ex. subst x. rewrite toZ_MIN_VALUE, wrap64_MIN_mul.
      rewrite isOdd_spec.
      destruct (Z.odd (toZ y)); split; auto using MIN_VALUE_wf, ZERO_wf. }
    destruct (equals y MIN_VALUE) eqn:Ey.
    { exists (if isOdd x then MIN_VALUE else ZERO).
      split; [intros n; rewrite multiply_fuel_unfold; now rewrite Zx, Zy, Ex, Ey|].
      apply equals_true_eq in Ey. subst y.
      rewrite toZ_MIN_VALUE, Z.mul_comm, wrap64_MIN_mul, isOdd_spec.
      destruct (Z.odd (toZ x)); split; auto using MIN_VALUE_wf, ZERO_wf. }
    destruct (isNegative x) eqn:Nx; destruct (isNegative y) eqn:Ny.
    - destruct (negate_nonneg x Hx Nx Ex) as [Tx Nx'].
      destruct (negate_nonneg y Hy Ny Ey) as [Ty Ny'].
      destruct (multiply_nonneg (negate x) (negate y)
                  (negate_wf x) (negate_wf y) Nx' Ny') as (r & Hr & Tr & Wr).
      exists r. split; [|split; [|exact Wr]].
      + intros n. rewrite multiply_fuel_unfold. rewrite Zx, Zy, Ex, Ey, Nx, Ny.
        apply Hr.
      + rewrite Tr, Tx, Ty. f_equal. ring.
    - destruct (negate_nonneg x Hx Nx Ex) as [Tx Nx'].
      destruct (multiply_nonneg (negate x) y (negate_wf x) Hy Nx' Ny)
        as (r & Hr & Tr & Wr).
      exists (negate r). split; [|split; [|apply negate_wf]].
      + intros n. rewrite multiply_fuel_unfold. rewrite Zx, Zy, Ex, Ey, Nx, Ny.
        rewrite Hr. reflexivity.
      + rewrite toZ_negate, Tr, Tx, wrap64_opp_wrap by assumption. f_equal. ring.
    - destruct (negate_nonneg y Hy Ny Ey) as [Ty Ny'].
      destruct (multiply_nonneg x (negate y) Hx (negate_wf y) Nx Ny')
        as (r & Hr & Tr & Wr).
      exists (negate r). split; [|split; [|apply negate_wf]].
      + intros n. rewrite multiply_fuel_unfold. rewrite Zx, Zy, Ex, Ey, Nx, Ny.
        rewrite Hr. reflexivity.
      + rewrite toZ_negate, Tr, Ty, wrap64_opp_wrap by assumption. f_equal. ring.
    - destruct (multiply_nonneg x y Hx Hy Nx Ny) as (r & Hr & Tr & Wr).
      exists r. split; [|split; assumption]. intros n. apply Hr. }
  destruct G as (r & Hr & Tr & Wr).
  assert (E : multiply x y = r) by (unfold multiply; now rewrite (Hr 1%nat)).
  rewrite E. split; [|split; assumption].
  intros n. apply (Hr (S n)).
Qed.

Lemma toZ_multiply x y :
  wf x -> wf y -> toZ (multiply x y) = wrap64 (toZ x * toZ y).
Proof. intros Hx Hy. apply (multiply_spec x y Hx Hy). Qed.

Lemma multiply_wf x y : wf x -> wf y -> wf (multiply x y).
Proof. intros Hx Hy. apply (multiply_spec x y Hx Hy). Qed.

End Mul.


(** ** The loops of [div] *)

Module DivLoop.

Import B64 Exact NumFacts NumSplit Int64 Conv Mul.

(** The integer held by [fromNumber] of a non-negative exact integer. *)
Definition clamp (A : Z) : Z := Z.min A (2 ^ 63 - 1).

Lemma Math_max_exact F :
  exactZ F -> Num.Math_max (Num.ofZ 1) (Num.ofZ F) = Num.ofZ (Z.max 1 F).
Proof.
  intros HF. unfold Num.Math_max.
  rewrite compare_exact by (try assumption; apply exactZ_small; reflexivity).
  destruct (Z.compare_spec 1 F) as [E|E|E].
  - subst F. reflexivity.
  - now rewrite Z.max_r by lia.
  - now rewrite Z.max_l by lia.
Qed.

Section Adjust.

Variables rem other : Timestamp.
Hypothesis Hrem : wf rem.
Hypothesis Hother : wf other.
Let R := toZ rem.
Let D := toZ other.
Hypothesis HD : 0 < D.
Hypothesis HR : D <= R < 2 ^ 63.

Variable Delta : Z.
Hypothesis HDelta : 1 <= Delta.
Hypothesis HDelta_exact : exactZ Delta.
Hypothesis HDeltaD : Delta * D <= R.

(** What the inner loop holds for an approximation [A]. *)
Lemma approx_product A :
  exactZ A -> 1 <= A -> A * D < 2 ^ 64 ->
  wf (fromNumber (Num.ofZ A))
  /\ toZ (fromNumber (Num.ofZ A)) = clamp A
  /\ wf (multiply (fromNumber (Num.ofZ A)) other)
  /\ toZ (multiply (fromNumber (Num.ofZ A)) other) = wrap64 (clamp A * D)
  /\ (isNegative (multiply (fromNumber (Num.ofZ A)) other)
      || greaterThan (multiply (fromNumber (Num.ofZ A)) other) rem
      = (R <? clamp A * D)).
Proof.
  intros HA H1 HAD.
  assert (HA70 : 0 <= A < 2 ^ 70).
  { split; [lia|]. assert (A < 2 ^ 64) by nia.
    apply Z.lt_trans with (2 ^ 64); [assumption|reflexivity]. }
  pose proof (fromNumber_wf (Num.ofZ A)) as W1.
  pose proof (toZ_fromNumber_exact A HA HA70) as T1. fold (clamp A) in T1.
  pose proof (multiply_wf _ _ W1 Hother) as W2.
  pose proof (toZ_multiply _ _ W1 Hother) as T2. rewrite T1 in T2. fold D in T2.
  split; [exact W1|]. split; [exact T1|]. split; [exact W2|]. split; [exact T2|].
  rewrite isNegative_spec, greaterThan_spec by assumption.
  rewrite T2. fold R.
  assert (C : 1 <= clamp A <= A) by (unfold clamp; pow2; lia).
  assert (0 < clamp A * D < 2 ^ 64) by nia.
  destruct (Z.lt_ge_cases (clamp A * D) (2 ^ 63)).
  - rewrite wrap64_id by lia.
    destruct (Z.ltb_spec (clamp A * D) 0); [lia|]. reflexivity.
  - assert (E : wrap64 (clamp A * D) = clamp A * D - 2 ^ 64).
    { replace (clamp A * D) with (clamp A * D - 2 ^ 64 + 1 * 2 ^ 64) at 1 by ring.
      rewrite wrap64_add_mul. apply wrap64_id. pow2. lia. }
    rewrite E.
    destruct (Z.ltb_spec (clamp A * D - 2 ^ 64) 0); [|pow2; lia].
    destruct (Z.ltb_spec R (clamp A * D)); [reflexivity|lia].
Qed.

(** The inner loop stops, at an approximation that is still positive and
    whose product does not exceed the remainder. *)
Lemma div_adjust_stops n :
  forall A,
    Z.to_nat A = n ->
    1 <= A -> A * D < 2 ^ 64 ->
    (forall j, 0 <= j -> 1 <= A - j * Delta -> exactZ (A - j * Delta)) ->
    exists fuel0 A',
      (forall fuel, (fuel0 <= fuel)%nat ->
        div_adjust fuel rem other (Num.ofZ Delta) (Num.ofZ A)
          (fromNumber (Num.ofZ A)) (multiply (fromNumber (Num.ofZ A)) other)
        = Ret (fromNumber (Num.ofZ A'),
               multiply (fromNumber (Num.ofZ A')) other))
      /\ 1 <= A' <= A /\ exactZ A' /\ clamp A' * D <= R.
Proof.
  induction n as [n IH] using (well_founded_induction lt_wf).
  intros A Hn H1 HAD Hgrid.
  assert (HA : exactZ A).
  { specialize (Hgrid 0 ltac:(lia)). rewrite Z.mul_0_l, Z.sub_0_r in Hgrid. auto. }
  destruct (approx_product A HA H1 HAD) as (W1 & T1 & W2 & T2 & Test).
  destruct (Z.ltb_spec R (clamp A * D)) as [Hgt|Hle].
  - (* the product is too large: lower the approximation *)
    assert (HAgt : Delta < A).
    { destruct (Z.lt_ge_cases Delta A); [assumption|].
      assert (clamp A <= A) by (unfold clamp; lia). nia. }
    destruct (IH (Z.to_nat (A - Delta)) ltac:(lia) (A - Delta) eq_refl
                 ltac:(lia) ltac:(nia)) as (f0 & A' & Hrun & HA' & HE' & Hstop).
    { intros j Hj Hpos.
      replace (A - Delta - j * Delta) with (A - (j + 1) * Delta) in * by ring.
      apply Hgrid; lia. }
    exists (S f0), A'. split; [|split; [lia|split; assumption]].
    intros fuel Hf. destruct fuel as [|fuel]; [lia|].
    cbn [div_adjust]. rewrite Test.
    rewrite sub_exact by assumption. apply Hrun. lia.
  - exists 1%nat, A. split; [|split; [lia|split; assumption]].
    intros fuel Hf. destruct fuel as [|fuel]; [lia|].
    cbn [div_adjust]. rewrite Test. reflexivity.
Qed.

End Adjust.

(** The first approximation of a round: a positive exact integer whose
    product with the divisor is at most twice the remainder. *)
Lemma approx_init R D :
  0 < D -> D <= R < 2 ^ 63 ->
  exists A0,
    Num.Math_max (Num.ofZ 1) (Num.Math_floor (Num.div (Num.ofZ R) (Num.ofZ D)))
    = Num.ofZ A0
    /\ exactZ A0 /\ 1 <= A0 /\ A0 * D <= 2 * R.
Proof.
  intros HD HR.
  assert (B1000 : 2 ^ 63 < 2 ^ 1000) by (apply Z.pow_lt_mono_r; lia).
  destruct (ofZ_nearest R ltac:(lia)) as (r' & -> & Hr' & Pr' & Er' & _).
  destruct (ofZ_nearest D ltac:(lia)) as (d' & -> & Hd' & Pd' & Ed' & _).
  assert (Br : r' < 2 ^ 70).
  { change (2 ^ 70) with 1180591620717411303424.
    change (2 ^ 53) with 9007199254740992 in *. pow2. lia. }
  assert (Bd : d' < 2 ^ 70).
  { change (2 ^ 70) with 1180591620717411303424.
    change (2 ^ 53) with 9007199254740992 in *. pow2. lia. }
  destruct (div_floor_bound r' d' Hr' Hd' ltac:(lia) ltac:(lia))
    as (F & -> & HF & F0 & HFb).
  rewrite Math_max_exact by assumption.
  exists (Z.max 1 F). split; [reflexivity|].
  split; [destruct (Z.max_spec 1 F) as [[_ ->]|[_ ->]];
          [assumption | apply exactZ_small; reflexivity]|].
  split; [lia|].
  destruct (Z.max_spec 1 F) as [[H1 ->]|[H1 ->]]; [|lia].
  change (2 ^ 53) with 9007199254740992 in *.
  change (2 ^ 51) with 2251799813685248 in *.
  assert (K0 : D * 9007199254740991 <= d' * 9007199254740992) by lia.
  assert (K3 : r' * 9007199254740992 <= R * 9007199254740993) by lia.
  assert (K1 : F * (D * 9007199254740991) <= F * (d' * 9007199254740992)).
  { apply Z.mul_le_mono_nonneg_l; lia. }
  assert (K2 : F * d' * 2251799813685248 * 9007199254740992
               <= r' * 2251799813685249 * 9007199254740992).
  { apply Z.mul_le_mono_nonneg_r; lia. }
  assert (K4 : r' * 9007199254740992 * 2251799813685249
               <= R * 9007199254740993 * 2251799813685249).
  { apply Z.mul_le_mono_nonneg_r; lia. }
  assert (K5 : F * D * (9007199254740991 * 2251799813685248)
               <= R * (9007199254740993 * 2251799813685249)).
  { transitivity (F * (D * 9007199254740991) * 2251799813685248); [lia|].
    transitivity (F * (d' * 9007199254740992) * 2251799813685248);
      [apply Z.mul_le_mono_nonneg_r; lia|].
    lia. }
  assert (K6 : R * (9007199254740993 * 2251799813685249)
               <= 2 * R * (9007199254740991 * 2251799813685248)) by lia.
  assert (K7 : F * D * (9007199254740991 * 2251799813685248)
               <= 2 * R * (9007199254740991 * 2251799813685248)) by lia.
  apply Z.mul_le_mono_pos_r in K7; lia.
Qed.

Lemma representable_exact A : exactZ A -> representable A.
Proof. apply truncZ_exact. Qed.

Lemma log2_up_digits A : 1 < A -> digits A - 1 <= Z.log2_up A <= digits A.
Proof.
  intros H. unfold digits.
  pose proof (Z.le_log2_log2_up A). pose proof (Z.le_log2_up_succ_log2 A). lia.
Qed.

(** An exact integer is a multiple of the unit of its binade. *)
Lemma exactZ_multiple A :
  exactZ A -> 0 < A -> 53 <= digits A ->
  exists n, A = n * 2 ^ (digits A - 53).
Proof.
  intros (n & k & E & Hk & Hn & _) H0 Hd.
  assert (Hn0 : 0 < n).
  { pose proof (pow_pos k Hk). nia. }
  assert (Hdn : digits A = digits n + k).
  { rewrite E. apply digits_shift; lia. }
  assert (digits n <= 53) by (apply digits_le_53; lia).
  exists (n * 2 ^ (k - (digits A - 53))).
  rewrite <- Z.mul_assoc, <- pow_split by lia.
  rewrite E. repeat (f_equal; try lia).
Qed.

Section Delta.

Variable Math_log : number -> number.
Variable Math_pow : number -> number -> number.
Hypothesis Hlog : log_accurate Math_log.
Hypothesis Hpow : pow_exact Math_pow.

(** The step by which the inner loop lowers the approximation. *)
Lemma delta_choice A0 R D :
  exactZ A0 -> 1 <= A0 -> 0 < D -> D <= R -> A0 * D <= 2 * R -> R < 2 ^ 63 ->
  let log2 := Num.Math_ceil (Num.div (Math_log (Num.ofZ A0)) Num.Math_LN2) in
  exists Delta,
    (if Num.leb log2 (Num.ofZ 48) then Num.ofZ 1
     else Math_pow (Num.ofZ 2) (Num.sub log2 (Num.ofZ 48)))
    = Num.ofZ Delta
    /\ 1 <= Delta /\ exactZ Delta /\ Delta * D <= R
    /\ (forall j, 0 <= j -> 1 <= A0 - j * Delta -> exactZ (A0 - j * Delta)).
Proof.
  intros HA H1 HD HDR HAD HR. cbv zeta.
  assert (A64 : A0 <= 2 ^ 64) by (pow2; nia).
  destruct (Hlog A0 ltac:(lia) (representable_exact A0 HA)) as (L & -> & HL).
  assert (HLr : - 4 <= L <= 68).
  { pose proof (Z.log2_up_nonneg A0).
    assert (Z.log2_up A0 <= 64); [|lia].
    apply Z.log2_up_le_pow2; lia. }
  rewrite leb_exact by (apply exactZ_small; change (2 ^ 53) with 9007199254740992; lia).
  destruct (Z.leb_spec L 48) as [Hs|Hb].
  - exists 1. split; [reflexivity|]. split; [lia|].
    split; [apply exactZ_small; reflexivity|]. split; [lia|].
    intros j Hj Hp. apply exactZ_small.
    assert (Z.log2_up A0 <= 52) by lia.
    assert (A0 <= 2 ^ 52).
    { destruct (Z.eq_dec A0 1) as [->|]; [vm_compute; discriminate|].
      apply Z.log2_up_le_pow2; lia. }
    change (2 ^ 52) with 4503599627370496 in *.
    change (2 ^ 53) with 9007199254740992. nia.
  - rewrite sub_exact by (apply exactZ_small; change (2 ^ 53) with 9007199254740992; lia).
    change (Num.ofZ 2) with (Num.ofZ 2).
    rewrite Hpow; try lia.
    2:{ apply Z.pow_lt_mono_r; lia. }
    set (Delta := 2 ^ (L - 48)).
    assert (PD : 0 < Delta) by (apply pow_pos; lia).
    assert (A1 : 1 < A0).
    { destruct (Z.eq_dec A0 1) as [->|]; [|lia].
      change (Z.log2_up 1) with 0 in HL. lia. }
    pose proof (log2_up_digits A0 A1) as Hdg.
    pose proof (digits_bounds A0 ltac:(lia)) as [Dl Du].
    (* Delta * 2^43 <= A0 *)
    assert (HDA : Delta * 2 ^ 43 <= A0).
    { unfold Delta. rewrite <- pow_split by lia.
      eapply Z.le_trans; [|exact Dl]. apply Z.pow_le_mono_r; lia. }
    exists Delta. split; [reflexivity|]. split; [lia|].
    split; [replace Delta with (1 * Delta) by lia;
            apply (exactZ_mul_pow2 1 (L - 48)); [reflexivity|lia]|].
    split.
    { change (2 ^ 43) with 8796093022208 in HDA. nia. }
    intros j Hj Hp.
    destruct (Z.lt_ge_cases (digits A0) 54) as [Hsm|Hlg].
    + apply exactZ_small.
      assert (A0 < 2 ^ 53).
      { eapply Z.lt_le_trans; [exact Du|]. apply Z.pow_le_mono_r; lia. }
      nia.
    + destruct (exactZ_multiple A0 HA ltac:(lia) ltac:(lia)) as [n Hn].
      set (g := digits A0 - 53) in *.
      assert (Pg : 0 < 2 ^ g) by (apply pow_pos; lia).
      assert (ED : Delta = 2 ^ (L - 48 - g) * 2 ^ g).
      { unfold Delta. rewrite <- pow_split by lia. f_equal. lia. }
      assert (EA : A0 - j * Delta = (n - j * 2 ^ (L - 48 - g)) * 2 ^ g).
      { rewrite ED, Hn at 1. ring. }
      rewrite EA. apply exactZ_mul_pow2; [|lia].
      assert (Bu : A0 < 2 ^ 53 * 2 ^ g).
      { rewrite <- pow_split by lia. replace (53 + g) with (digits A0) by lia.
        exact Du. }
      rewrite EA in Hp.
      assert (0 <= j * Delta) by nia.
      assert (0 < n - j * 2 ^ (L - 48 - g)) by nia.
      rewrite Z.abs_eq by lia.
      assert ((n - j * 2 ^ (L - 48 - g)) * 2 ^ g < 2 ^ 53 * 2 ^ g) by lia.
      nia.
Qed.

End Delta.

End DivLoop.


(** ** The outer loop of [div] computes the quotient *)

Module DivOuter.

Import B64 Exact NumFacts NumSplit Int64 Conv Mul DivLoop.

Section Loop.

Variable Math_log : number -> number.
Variable Math_pow : number -> number -> number.
Hypothesis Hlog : log_accurate Math_log.
Hypothesis Hpow : pow_exact Math_pow.

Lemma div_loop_unfold fuel other res rem :
  div_loop Math_log Math_pow (S fuel) other res rem
  = if greaterThanOrEqual rem other then
      let approx :=
        Num.Math_max (Num.ofZ 1)
          (Num.Math_floor (Num.div (toNumber rem) (toNumber other))) in
      let log2 := Num.Math_ceil (Num.div (Math_log approx) Num.Math_LN2) in
      let delta :=
        if Num.leb log2 (Num.ofZ 48) then Num.ofZ 1
        else Math_pow (Num.ofZ 2) (Num.sub log2 (Num.ofZ 48)) in
      let approxRes := fromNumber approx in
      let approxRem := multiply approxRes other in
      adjusted <-
         div_adjust fuel rem other delta approx approxRes approxRem ;;
      let '(approxRes, approxRem) := adjusted in
      let approxRes := if isZero approxRes then ONE else approxRes in
      div_loop Math_log Math_pow fuel other (add res approxRes)
        (subtract rem approxRem)
    else Ret res.
Proof. reflexivity. Qed.

Variable other : Timestamp.
Hypothesis Hother : wf other.
Hypothesis HD : 0 < toZ other.

Lemma div_loop_correct n :
  forall res rem,
    Z.to_nat (toZ rem) = n ->
    wf res -> wf rem -> 0 <= toZ rem -> 0 <= toZ res ->
    toZ res * toZ other + toZ rem < 2 ^ 63 ->
    exists fuel0 q,
      (forall fuel, (fuel0 <= fuel)%nat ->
         div_loop Math_log Math_pow fuel other res rem = Ret q)
      /\ wf q /\ toZ q = toZ res + toZ rem / toZ other.
Proof.
  induction n as [n IH] using (well_founded_induction lt_wf).
  intros res rem Hn Wres Wrem R0 Q0 Hinv.
  set (R := toZ rem) in *. set (D := toZ other) in *. set (Q := toZ res) in *.
  assert (RD : R < 2 ^ 63) by nia.
  destruct (Z.lt_ge_cases R D) as [Hlt|Hge].
  - exists 1%nat, res. split; [|split; [assumption|]].
    + intros fuel Hf. destruct fuel as [|fuel]; [lia|].
      rewrite div_loop_unfold, greaterThanOrEqual_spec by assumption.
      fold R D. destruct (Z.leb_spec D R); [lia|reflexivity].
    + rewrite Z.div_small by lia. lia.
  - destruct (approx_init R D HD ltac:(lia)) as (A0 & EA0 & XA0 & A01 & A0D).
    destruct (delta_choice Math_log Math_pow Hlog Hpow A0 R D
                XA0 A01 HD Hge A0D RD) as (Delta & EDelta & D1 & XD & DD & Grid).
    destruct (div_adjust_stops rem other Wrem Hother HD ltac:(fold R D; lia)
                Delta D1 XD DD (Z.to_nat A0) A0 eq_refl A01
                ltac:(fold D; pow2; lia) Grid)
      as (fa & A' & Hrun & HA' & XA' & Hstop).
    fold R D in Hstop.
    destruct (approx_product rem other Wrem Hother HD ltac:(fold R D; lia)
                A' XA' ltac:(lia) ltac:(fold D; pow2; nia))
      as (W1 & T1 & W2 & T2 & _).
    fold D in T2.
    set (approxRes := fromNumber (Num.ofZ A')) in *.
    set (approxRem := multiply approxRes other) in *.
    assert (C1 : 1 <= clamp A') by (unfold clamp; pow2; lia).
    assert (T2' : toZ approxRem = clamp A' * D).
    { rewrite T2. apply wrap64_id. pow2. nia. }
    assert (Z1 : isZero approxRes = false).
    { rewrite isZero_spec, T1 by assumption. apply Z.eqb_neq. lia. }
    assert (Tres : toZ (add res approxRes) = Q + clamp A').
    { rewrite toZ_add, T1. fold Q. apply wrap64_id. pow2. nia. }
    assert (Trem : toZ (subtract rem approxRem) = R - clamp A' * D).
    { rewrite toZ_subtract, T2' by assumption. fold R. apply wrap64_id. pow2. nia. }
    destruct (IH (Z.to_nat (R - clamp A' * D)) ltac:(nia)
                 (add res approxRes) (subtract rem approxRem))
      as (fr & q & Hq & Wq & Tq).
    { now rewrite Trem. }
    { apply add_wf. }
    { apply subtract_wf. }
    { rewrite Trem. lia. }
    { rewrite Tres. lia. }
    { rewrite Tres, Trem. fold D. nia. }
    exists (S (Nat.max fa fr)), q. split; [|split; [assumption|]].
    + intros fuel Hf. destruct fuel as [|fuel]; [lia|].
      rewrite div_loop_unfold, greaterThanOrEqual_spec by assumption.
      fold R D. destruct (Z.leb_spec D R); [|lia].
      cbv zeta. rewrite !toNumber_spec by assumption. fold R D.
      rewrite EA0, EDelta.
      rewrite Hrun by lia. cbn [bind]. fold approxRes approxRem.
      rewrite Z1. apply Hq. lia.
    + rewrite Tq, Tres, Trem. fold D Q.
      replace (R - clamp A' * D) with (R + (- clamp A') * D) by ring.
      rewrite Z.div_add by lia. lia.
Qed.

End Loop.

End DivOuter.


(** ** [div] returns the truncated quotient *)

Module DivSpec.

Import Int64 Conv Mul DivLoop DivOuter.

Lemma toZ_ZERO : toZ ZERO = 0. Proof. reflexivity. Qed.
Lemma toZ_ONE : toZ ONE = 1. Proof. reflexivity. Qed.
Lemma toZ_NEG_ONE : toZ NEG_ONE = -1. Proof. reflexivity. Qed.
Lemma NEG_ONE_wf : wf NEG_ONE. Proof. vm_compute. intuition congruence. Qed.

Lemma toZ_negate_exact x :
  wf x -> toZ x <> - 2 ^ 63 -> toZ (negate x) = - toZ x.
Proof.
  intros Hx Hn. rewrite toZ_negate by assumption.
  pose proof (toZ_range x). apply wrap64_id. lia.
Qed.

Lemma lor_bit k b : 0 <= b <= 1 -> Z.lor (2 * k) b = 2 * k + b.
Proof.
  intros Hb.
  assert (D : Z.land (2 * k) b = 0).
  { assert (C : b = 0 \/ b = 1) by lia. destruct C as [-> | ->].
    - apply Z.land_0_r.
    - change 1 with (Z.ones 1). rewrite Z.land_ones by lia.
      change (2 ^ 1) with 2. rewrite Z.mul_comm. apply Z.mod_mul. lia. }
  pose proof (Z.add_lor_land (2 * k) b). lia.
Qed.

Lemma toZ_shiftLeft_1 x : toZ (shiftLeft x 1) = wrap64 (2 * toZ x).
Proof.
  unfold shiftLeft. change (JS.and 1 63) with 1. cbv iota beta zeta.
  change (1 =? 0) with false. change (1 <? 32) with true. cbv iota.
  unfold fromBits. rewrite toZ_new_Timestamp.
  unfold JS.or, JS.shl, JS.ushr.
  change (Z.land 1 31) with 1. change (Z.land (32 - 1) 31) with 31.
  rewrite !JSFacts.toInt32_idem.
  rewrite !Z.shiftl_mul_pow2, Z.shiftr_div_pow2 by lia. change (2 ^ 1) with 2.
  set (h := JS.toInt32 (high_ x)). set (l := JS.toInt32 (low_ x)).
  assert (Eh : exists k, JS.toInt32 (h * 2) = 2 * k /\ k = h - 2 ^ 31 * ((h * 2 + 2 ^ 31) / 2 ^ 32)).
  { eexists. split; [|reflexivity]. unfold JS.toInt32. pow2.
    Z.div_mod_to_equations. lia. }
  destruct Eh as (k & Ek & Hk). rewrite Ek.
  set (b := JS.toUint32 (low_ x) / 2 ^ 31).
  assert (Hb : 0 <= b <= 1).
  { unfold b, JS.toUint32. pow2. Z.div_mod_to_equations. lia. }
  assert (Eb : JS.toInt32 b = b) by (apply JSFacts.toInt32_id; pow2; lia).
  rewrite Eb, lor_bit by assumption.
  rewrite JSFacts.toUint32_toInt32.
  apply eq_trans with (wrap64 (2 * toZ x + 0 * 2 ^ 64)); [|now rewrite wrap64_add_mul].
  unfold toZ. fold h. subst k. unfold b, l, h.
  unfold JS.toInt32, JS.toUint32, wrap64. pow2.
  Z.div_mod_to_equations. lia.
Qed.

Lemma shiftLeft_wf x : wf x -> wf (shiftLeft x 1).
Proof. intros. unfold shiftLeft. apply new_Timestamp_wf. Qed.

Lemma toZ_half_MIN : toZ (shiftRight MIN_VALUE 1) = - 2 ^ 62.
Proof. reflexivity. Qed.

Lemma half_MIN_wf : wf (shiftRight MIN_VALUE 1).
Proof. vm_compute. intuition congruence. Qed.

Lemma quot_MIN_big Y :
  2 ^ 62 < Z.abs Y < 2 ^ 63 ->
  Z.quot (- 2 ^ 63) Y = if Y <? 0 then 1 else -1.
Proof.
  intros H. change (2 ^ 62) with 4611686018427387904 in *.
  change (2 ^ 63) with 9223372036854775808 in *.
  destruct (Z.ltb_spec Y 0).
  - rewrite <- (Z.opp_involutive Y) at 1. rewrite Z.quot_opp_opp by lia.
    rewrite Z.quot_div_nonneg by lia.
    symmetry. apply Z.div_unique with (9223372036854775808 + Y); lia.
  - rewrite Z.quot_opp_l by lia. rewrite Z.quot_div_nonneg by lia.
    replace (9223372036854775808 / Y) with 1; [reflexivity|].
    apply Z.div_unique with (9223372036854775808 - Y); lia.
Qed.

Lemma quot_MIN_split Y :
  Y <> 0 -> 2 <= Z.abs Y < 2 ^ 63 ->
  Z.quot (- 2 ^ 62) Y <> 0 ->
  let q1 := Z.quot (- 2 ^ 62) Y in
  let r := - 2 ^ 63 - Y * (2 * q1) in
  - 2 ^ 63 <= Y * (2 * q1) < 0
  /\ - 2 ^ 63 < r <= 0
  /\ - 2 ^ 62 <= 2 * q1 + Z.quot r Y <= 2 ^ 62
  /\ 2 * q1 + Z.quot r Y = Z.quot (- 2 ^ 63) Y.
Proof.
  intros Y0 HY Q q1 r.
  pose proof (Z.quot_rem' (- 2 ^ 62) Y) as E. fold q1 in E.
  pose proof (Z.rem_bound_abs (- 2 ^ 62) Y Y0) as B.
  pose proof (Z.rem_nonpos (- 2 ^ 62) Y Y0 ltac:(lia)) as N.
  assert (L : Z.abs Y <= 2 ^ 62).
  { destruct (Z.le_gt_cases (Z.abs Y) (2 ^ 62)); [assumption|].
    exfalso. apply Q. apply Z.quot_small_iff; [assumption|].
    change (Z.abs (- 2 ^ 62)) with (2 ^ 62). assumption. }
  set (r1 := Z.rem (- 2 ^ 62) Y) in *.
  assert (Er : r = 2 * r1).
  { unfold r. change (2 ^ 63) with (2 * 2 ^ 62). lia. }
  assert (T : 2 * q1 + Z.quot r Y = Z.quot (- 2 ^ 63) Y).
  { rewrite Z.add_comm. rewrite <- Z.quot_add.
    - f_equal. unfold r. lia.
    - assumption.
    - replace (r + 2 * q1 * Y) with (- 2 ^ 63) by (unfold r; lia).
      rewrite Er. change (2 ^ 63) with 9223372036854775808. lia. }
  change (2 ^ 62) with 4611686018427387904 in *.
  change (2 ^ 63) with 9223372036854775808 in *.
  split; [lia|]. split; [lia|]. split; [|assumption].
  rewrite T.
  pose proof (Z.quot_abs (- (9223372036854775808)) Y Y0) as A.
  change (Z.abs (- (9223372036854775808))) with 9223372036854775808 in A.
  assert (9223372036854775808 ÷ Z.abs Y <= 4611686018427387904).
  { rewrite Z.quot_div_nonneg by lia.
    apply Z.div_le_upper_bound; lia. }
  lia.
Qed.

Ltac wf_side :=
  first [ assumption | apply MIN_VALUE_wf | apply ONE_wf | apply NEG_ONE_wf
        | apply ZERO_wf | apply negate_wf | apply new_Timestamp_wf ].

Section Div.

Variable Math_log : number -> number.
Variable Math_pow : number -> number -> number.
Hypothesis Hlog : log_accurate Math_log.
Hypothesis Hpow : pow_exact Math_pow.

Local Abbreviation div_fuel := (div_fuel Math_log Math_pow).

Lemma div_fuel_unfold fuel x other :
  div_fuel (S fuel) x other
  = if isZero other then Throw DivisionByZero
    else if isZero x then Ret ZERO
    else if equals x MIN_VALUE then
      if equals other ONE || equals other NEG_ONE then Ret MIN_VALUE
      else if equals other MIN_VALUE then Ret ONE
      else
        let halfThis := shiftRight x 1 in
        q <- div_fuel fuel halfThis other ;;
        let approx := shiftLeft q 1 in
        if equals approx ZERO then
          Ret (if isNegative other then ONE else NEG_ONE)
        else
          let rem := subtract x (multiply other approx) in
          r <- div_fuel fuel rem other ;;
          Ret (add approx r)
    else if equals other MIN_VALUE then Ret ZERO
    else if isNegative x then
      if isNegative other then div_fuel fuel (negate x) (negate other)
      else q <- div_fuel fuel (negate x) other ;; Ret (negate q)
    else if isNegative other then
      q <- div_fuel fuel x (negate other) ;; Ret (negate q)
    else div_loop Math_log Math_pow fuel other ZERO x.
Proof. reflexivity. Qed.

(** Non-negative dividend, positive divisor. *)
Lemma div_nonneg x y :
  wf x -> wf y -> 0 <= toZ x -> 0 < toZ y ->
  exists fuel0 q,
    (forall fuel, (fuel0 <= fuel)%nat -> div_fuel fuel x y = Ret q)
    /\ wf q /\ toZ q = toZ x / toZ y.
Proof.
  intros Hx Hy X0 Y0.
  pose proof (toZ_range x). pose proof (toZ_range y).
  destruct (div_loop_correct Math_log Math_pow Hlog Hpow y Hy Y0
              (Z.to_nat (toZ x)) ZERO x eq_refl ZERO_wf Hx X0)
    as (f0 & q & Hq & Wq & Tq).
  { rewrite toZ_ZERO. lia. }
  { rewrite toZ_ZERO. lia. }
  rewrite toZ_ZERO in Tq.
  exists (S f0), q. split; [|split; [assumption|lia]].
  intros fuel Hf. destruct fuel as [|fuel]; [lia|].
  rewrite div_fuel_unfold.
  rewrite !isZero_spec, !equals_spec, !isNegative_spec
    by wf_side.
  rewrite toZ_MIN_VALUE.
  destruct (Z.eqb_spec (toZ y) 0); [lia|].
  destruct (Z.eqb_spec (toZ x) 0) as [E|E].
  { assert (q = ZERO); [|congruence].
    apply toZ_inj; try assumption; [apply ZERO_wf|].
    rewrite Tq, E, toZ_ZERO. apply Z.div_0_l. lia. }
  destruct (Z.eqb_spec (toZ x) (- 2 ^ 63)); [lia|].
  destruct (Z.eqb_spec (toZ y) (- 2 ^ 63)); [lia|].
  destruct (Z.ltb_spec (toZ x) 0); [lia|].
  destruct (Z.ltb_spec (toZ y) 0); [lia|].
  apply Hq. lia.
Qed.

(** Any dividend but [MIN_VALUE], any divisor but zero. *)
Lemma div_general x y :
  wf x -> wf y -> toZ y <> 0 -> toZ x <> - 2 ^ 63 ->
  exists fuel0 q,
    (forall fuel, (fuel0 <= fuel)%nat -> div_fuel fuel x y = Ret q)
    /\ wf q /\ toZ q = Z.quot (toZ x) (toZ y).
Proof.
  intros Hx Hy Y0 XM.
  pose proof (toZ_range x) as Rx. pose proof (toZ_range y) as Ry.
  assert (Pre : forall fuel,
    div_fuel (S fuel) x y
    = if toZ x =? 0 then Ret ZERO
      else if toZ y =? - 2 ^ 63 then Ret ZERO
      else if toZ x <? 0 then
        if toZ y <? 0 then div_fuel fuel (negate x) (negate y)
        else q <- div_fuel fuel (negate x) y ;; Ret (negate q)
      else if toZ y <? 0 then
        q <- div_fuel fuel x (negate y) ;; Ret (negate q)
      else div_loop Math_log Math_pow fuel y ZERO x).
  { intros fuel. rewrite div_fuel_unfold.
    rewrite !isZero_spec, !equals_spec, !isNegative_spec
      by wf_side.
    rewrite toZ_MIN_VALUE.
    destruct (Z.eqb_spec (toZ y) 0); [lia|].
    destruct (Z.eqb_spec (toZ x) 0); [reflexivity|].
    destruct (Z.eqb_spec (toZ x) (- 2 ^ 63)); [lia|]. reflexivity. }
  destruct (Z.eq_dec (toZ x) 0) as [X0|X0].
  { exists 1%nat, ZERO. split; [|split; [apply ZERO_wf|]].
    - intros fuel Hf. destruct fuel as [|fuel]; [lia|].
      rewrite Pre, X0. reflexivity.
    - rewrite X0, toZ_ZERO. symmetry. apply Z.quot_0_l. assumption. }
  destruct (Z.eq_dec (toZ y) (- 2 ^ 63)) as [YM|YM].
  { exists 1%nat, ZERO. split; [|split; [apply ZERO_wf|]].
    - intros fuel Hf. destruct fuel as [|fuel]; [lia|].
      rewrite Pre. destruct (Z.eqb_spec (toZ x) 0); [lia|].
      rewrite YM. reflexivity.
    - rewrite YM, toZ_ZERO. symmetry.
      rewrite <- (Z.opp_involutive (- 2 ^ 63)), Z.quot_opp_r by lia.
      destruct (Z.le_gt_cases 0 (toZ x)).
      + rewrite Z.quot_small; lia.
      + rewrite <- (Z.opp_involutive (toZ x)), Z.quot_opp_l by lia.
        rewrite Z.quot_small; lia. }
  pose proof (toZ_negate_exact x Hx XM) as Nx.
  pose proof (toZ_negate_exact y Hy YM) as Ny.
  destruct (Z.lt_ge_cases (toZ x) 0) as [Xn|Xp];
    destruct (Z.lt_ge_cases (toZ y) 0) as [Yn|Yp].
  - destruct (div_nonneg (negate x) (negate y) (negate_wf x) (negate_wf y)
                ltac:(lia) ltac:(lia)) as (f0 & q & Hq & Wq & Tq).
    exists (S f0), q. split; [|split; [assumption|]].
    + intros fuel Hf. destruct fuel as [|fuel]; [lia|].
      rewrite Pre. destruct (Z.eqb_spec (toZ x) 0); [lia|].
      destruct (Z.eqb_spec (toZ y) (- 2 ^ 63)); [lia|].
      destruct (Z.ltb_spec (toZ x) 0); [|lia].
      destruct (Z.ltb_spec (toZ y) 0); [|lia].
      apply Hq. lia.
    + rewrite Tq, Nx, Ny. rewrite <- Z.quot_div_nonneg by lia.
      apply Z.quot_opp_opp. lia.
  - destruct (div_nonneg (negate x) y (negate_wf x) Hy
                ltac:(lia) ltac:(lia)) as (f0 & q & Hq & Wq & Tq).
    assert (Tq' : toZ q = - Z.quot (toZ x) (toZ y)).
    { rewrite Tq, Nx. rewrite <- Z.quot_div_nonneg by lia.
      apply Z.quot_opp_l. lia. }
    assert (Bq : 0 <= toZ q).
    { rewrite Tq. apply Z.div_pos; lia. }
    exists (S f0), (negate q). split; [|split; [apply negate_wf|]].
    + intros fuel Hf. destruct fuel as [|fuel]; [lia|].
      rewrite Pre. destruct (Z.eqb_spec (toZ x) 0); [lia|].
      destruct (Z.eqb_spec (toZ y) (- 2 ^ 63)); [lia|].
      destruct (Z.ltb_spec (toZ x) 0); [|lia].
      destruct (Z.ltb_spec (toZ y) 0); [lia|].
      rewrite Hq by lia. reflexivity.
    + rewrite toZ_negate_exact by (assumption || lia). lia.
  - destruct (div_nonneg x (negate y) Hx (negate_wf y)
                ltac:(lia) ltac:(lia)) as (f0 & q & Hq & Wq & Tq).
    assert (Tq' : toZ q = - Z.quot (toZ x) (toZ y)).
    { rewrite Tq, Ny. rewrite <- Z.quot_div_nonneg by lia.
      apply Z.quot_opp_r. lia. }
    assert (Bq : 0 <= toZ q).
    { rewrite Tq. apply Z.div_pos; lia. }
    exists (S f0), (negate q). split; [|split; [apply negate_wf|]].
    + intros fuel Hf. destruct fuel as [|fuel]; [lia|].
      rewrite Pre. destruct (Z.eqb_spec (toZ x) 0); [lia|].
      destruct (Z.eqb_spec (toZ y) (- 2 ^ 63)); [lia|].
      destruct (Z.ltb_spec (toZ x) 0); [lia|].
      destruct (Z.ltb_spec (toZ y) 0); [|lia].
      rewrite Hq by lia. reflexivity.
    + rewrite toZ_negate_exact by (assumption || lia). lia.
  - destruct (div_nonneg x y Hx Hy ltac:(lia) ltac:(lia))
      as (f0 & q & Hq & Wq & Tq).
    exists f0, q. split; [assumption|]. split; [assumption|].
    rewrite Tq. symmetry. apply Z.quot_div_nonneg; lia.
Qed.

(** Dividend [MIN_VALUE]: the halving branch. *)
Lemma div_MIN y :
  wf y -> toZ y <> 0 ->
  exists fuel0 q,
    (forall fuel, (fuel0 <= fuel)%nat -> div_fuel fuel MIN_VALUE y = Ret q)
    /\ wf q /\ toZ q = wrap64 (Z.quot (- 2 ^ 63) (toZ y)).
Proof.
  intros Hy Y0. pose proof (toZ_range y) as Ry.
  assert (Pre : forall fuel,
    div_fuel (S fuel) MIN_VALUE y
    = if (toZ y =? 1) || (toZ y =? -1) then Ret MIN_VALUE
      else if toZ y =? - 2 ^ 63 then Ret ONE
      else
        q <- div_fuel fuel (shiftRight MIN_VALUE 1) y ;;
        let approx := shiftLeft q 1 in
        if equals approx ZERO then
          Ret (if toZ y <? 0 then ONE else NEG_ONE)
        else
          let rem := subtract MIN_VALUE (multiply y approx) in
          r <- div_fuel fuel rem y ;;
          Ret (add approx r)).
  { intros fuel. rewrite div_fuel_unfold.
    change (isZero MIN_VALUE) with false.
    change (equals MIN_VALUE MIN_VALUE) with true. cbv iota.
    rewrite isZero_spec, !(equals_spec y), isNegative_spec by wf_side.
    rewrite toZ_MIN_VALUE, toZ_ONE, toZ_NEG_ONE.
    destruct (Z.eqb_spec (toZ y) 0); [lia|]. reflexivity. }
  destruct (Z.eq_dec (toZ y) 1) as [E1|N1].
  { exists 1%nat, MIN_VALUE. split; [|split; [apply MIN_VALUE_wf|]].
    - intros fuel Hf. destruct fuel as [|fuel]; [lia|].
      rewrite Pre, E1. reflexivity.
    - rewrite E1. reflexivity. }
  destruct (Z.eq_dec (toZ y) (-1)) as [E2|N2].
  { exists 1%nat, MIN_VALUE. split; [|split; [apply MIN_VALUE_wf|]].
    - intros fuel Hf. destruct fuel as [|fuel]; [lia|].
      rewrite Pre, E2. reflexivity.
    - rewrite E2. reflexivity. }
  destruct (Z.eq_dec (toZ y) (- 2 ^ 63)) as [E3|N3].
  { exists 1%nat, ONE. split; [|split; [apply ONE_wf|]].
    - intros fuel Hf. destruct fuel as [|fuel]; [lia|].
      rewrite Pre, E3. reflexivity.
    - rewrite E3. reflexivity. }
  assert (Pre' : forall fuel,
    div_fuel (S fuel) MIN_VALUE y
    = q <- div_fuel fuel (shiftRight MIN_VALUE 1) y ;;
      let approx := shiftLeft q 1 in
      if equals approx ZERO then
        Ret (if toZ y <? 0 then ONE else NEG_ONE)
      else
        let rem := subtract MIN_VALUE (multiply y approx) in
        r <- div_fuel fuel rem y ;;
        Ret (add approx r)).
  { intros fuel. rewrite Pre.
    destruct (Z.eqb_spec (toZ y) 1); [lia|].
    destruct (Z.eqb_spec (toZ y) (-1)); [lia|].
    destruct (Z.eqb_spec (toZ y) (- 2 ^ 63)); [lia|]. reflexivity. }
  assert (AY : 2 <= Z.abs (toZ y) < 2 ^ 63) by lia.
  destruct (div_general (shiftRight MIN_VALUE 1) y half_MIN_wf Hy Y0)
    as (f1 & q1 & Hq1 & Wq1 & Tq1).
  { rewrite toZ_half_MIN. pow2. lia. }
  rewrite toZ_half_MIN in Tq1.
  set (approx := shiftLeft q1 1).
  assert (Wa : wf approx) by (apply shiftLeft_wf; assumption).
  assert (B1 : - 2 ^ 61 <= toZ q1 <= 2 ^ 61).
  { rewrite Tq1.
    pose proof (Z.quot_abs (- 2 ^ 62) (toZ y) Y0) as A.
    change (Z.abs (- 2 ^ 62)) with (2 ^ 62) in A.
    assert (2 ^ 62 ÷ Z.abs (toZ y) <= 2 ^ 61).
    { rewrite Z.quot_div_nonneg by lia.
      apply Z.div_le_upper_bound; [lia|]. change (2 ^ 62) with (2 * 2 ^ 61).
      apply Z.mul_le_mono_nonneg_r; lia. }
    lia. }
  assert (Ta : toZ approx = 2 * toZ q1).
  { unfold approx. rewrite toZ_shiftLeft_1. apply wrap64_id.
    change (2 ^ 63) with (2 * 2 ^ 62). change (2 ^ 62) with (2 * 2 ^ 61). lia. }
  destruct (Z.eq_dec (toZ q1) 0) as [Q0|Q0].
  { exists (S f1), (if toZ y <? 0 then ONE else NEG_ONE).
    split; [|split].
    - intros fuel Hf. destruct fuel as [|fuel]; [lia|].
      rewrite Pre', Hq1 by lia. cbn [bind]. fold approx. cbv zeta.
      rewrite equals_spec by wf_side. rewrite Ta, Q0. reflexivity.
    - destruct (toZ y <? 0); wf_side.
    - rewrite quot_MIN_big.
      + destruct (toZ y <? 0); reflexivity.
      + split; [|lia]. rewrite Tq1 in Q0.
        apply Z.quot_small_iff in Q0; [|assumption].
        exact Q0. }
  rewrite Tq1 in Q0.
  destruct (quot_MIN_split (toZ y) Y0 AY Q0) as (S1 & S2 & S3 & S4).
  rewrite <- Tq1 in S1, S2, S3, S4.
  set (m := multiply y approx).
  assert (Wm : wf m) by (apply multiply_wf; assumption).
  assert (Tm : toZ m = toZ y * (2 * toZ q1)).
  { unfold m. rewrite toZ_multiply by assumption. rewrite Ta.
    apply wrap64_id. lia. }
  set (rem := subtract MIN_VALUE m).
  assert (Wr : wf rem) by (apply subtract_wf).
  assert (Tr : toZ rem = - 2 ^ 63 - toZ y * (2 * toZ q1)).
  { unfold rem. rewrite toZ_subtract by wf_side.
    rewrite toZ_MIN_VALUE, Tm. apply wrap64_id. lia. }
  destruct (div_general rem y Wr Hy Y0) as (f2 & q2 & Hq2 & Wq2 & Tq2).
  { rewrite Tr. lia. }
  rewrite Tr in Tq2.
  exists (S (Nat.max f1 f2)), (add approx q2).
  split; [|split].
  - intros fuel Hf. destruct fuel as [|fuel]; [lia|].
    rewrite Pre', Hq1 by lia. cbn [bind]. fold approx. cbv zeta.
    rewrite equals_spec by wf_side. rewrite Ta, toZ_ZERO.
    rewrite <- Tq1 in Q0.
    destruct (Z.eqb_spec (2 * toZ q1) 0); [lia|].
    fold m. fold rem. rewrite Hq2 by lia. reflexivity.
  - apply add_wf.
  - rewrite toZ_add, Ta, Tq2, S4.
    rewrite <- S4. rewrite !wrap64_id; lia.
Qed.

(** [div] returns, and returns the quotient truncated toward zero (the one
    overflowing quotient, [MIN_VALUE / -1], wraps to [MIN_VALUE]). *)
Lemma div_spec x y :
  wf x -> wf y -> toZ y <> 0 ->
  exists fuel0 q,
    (forall fuel, (fuel0 <= fuel)%nat -> div_fuel fuel x y = Ret q)
    /\ wf q /\ toZ q = wrap64 (Z.quot (toZ x) (toZ y)).
Proof.
  intros Hx Hy Y0.
  destruct (Z.eq_dec (toZ x) (- 2 ^ 63)) as [E|E].
  - assert (x = MIN_VALUE) as ->.
    { apply toZ_inj; [assumption|apply MIN_VALUE_wf|]. rewrite E. reflexivity. }
    rewrite toZ_MIN_VALUE. apply div_MIN; assumption.
  - destruct (div_general x y Hx Hy Y0 E) as (f0 & q & Hq & Wq & Tq).
    exists f0, q. split; [assumption|]. split; [assumption|].
    rewrite Tq. symmetry. apply wrap64_id. rewrite <- Tq. apply toZ_range.
Qed.

Lemma div_by_zero fuel x y :
  wf y -> toZ y = 0 -> div_fuel (S fuel) x y = Throw DivisionByZero.
Proof.
  intros Hy Y0. rewrite div_fuel_unfold, isZero_spec, Y0 by assumption.
  reflexivity.
Qed.

End Div.

End DivSpec.


(** ** The reference host meets the requirements *)

Module RefHost.

Import Exact NumFacts Int64 Conv DivLoop.

Definition number_eq_dec (a b : number) : {a = b} + {a <> b}.
Proof.
  decide equality; try apply Bool.bool_dec; try apply Z.eq_dec;
    apply Pos.eq_dec.
Defined.

Definition log2_of (k : Z) : number :=
  Num.Math_ceil (Num.div (Num.mul (Num.ofZ k) Num.Math_LN2) Num.Math_LN2).

Definition log2_ok (k : Z) : bool :=
  let L := Num.truncZ (log2_of k) in
  (if number_eq_dec (log2_of k) (Num.ofZ L) then true else false)
  && (k - 4 <=? L) && (L <=? k + 4).

Lemma log2_ok_all :
  forallb log2_ok (map Z.of_nat (seq 0 65)) = true.
Proof. vm_compute. reflexivity. Qed.

Lemma representable_is_exact A :
  0 < A < 2 ^ 1000 -> representable A -> exactZ A.
Proof.
  intros HA R. destruct (ofZ_nearest A HA) as (z & E & Hz & _).
  unfold representable in R. rewrite E, truncZ_exact in R by assumption.
  now subst z.
Qed.

Lemma ref_log_accurate : log_accurate ref_log.
Proof.
  intros A HA R.
  assert (EA : exactZ A).
  { apply representable_is_exact; [|assumption]. split; [lia|].
    apply Z.le_lt_trans with (2 ^ 64); [lia|]. apply Z.pow_lt_mono_r; lia. }
  unfold ref_log.
  rewrite leb_exact by (try assumption; apply exactZ_small; reflexivity).
  destruct (Z.leb_spec 1 A); [|lia]. rewrite R.
  set (k := Z.log2_up A).
  assert (Hk : 0 <= k <= 64).
  { unfold k. split; [apply Z.log2_up_nonneg|].
    change 64 with (Z.log2_up (2 ^ 64)). apply Z.log2_up_le_mono. lia. }
  pose proof log2_ok_all as F. rewrite forallb_forall in F.
  specialize (F k). fold (log2_of k).
  assert (I : In k (map Z.of_nat (seq 0 65))).
  { apply in_map_iff. exists (Z.to_nat k). split; [lia|].
    apply in_seq. lia. }
  specialize (F I). unfold log2_ok in F.
  apply andb_prop in F. destruct F as [F F3].
  apply andb_prop in F. destruct F as [F1 F2].
  destruct (number_eq_dec _ _) as [E|]; [|discriminate].
  exists (Num.truncZ (log2_of k)). split; [exact E|]. lia.
Qed.

Lemma ref_pow_exact : pow_exact ref_pow.
Proof.
  intros b n Hb Hn Hp. unfold ref_pow.
  assert (Eb : exactZ b) by (apply exactZ_small; pow2; lia).
  assert (En : exactZ n) by (apply exactZ_small; pow2; lia).
  rewrite leb_exact by (try assumption; apply exactZ_small; reflexivity).
  destruct (Z.leb_spec 0 n); [|lia].
  rewrite !truncZ_exact by assumption. reflexivity.
Qed.

End RefHost.


(** ** [div] and [modulo]: errors, termination and the division identity *)

Module DivErrors.

Import Int64 Mul DivSpec.

Section NoThrow.

Variable Math_log : number -> number.
Variable Math_pow : number -> number -> number.

Lemma div_adjust_no_throw fuel : forall rem other delta approx approxRes approxRem e,
  div_adjust fuel rem other delta approx approxRes approxRem <> Throw e.
Proof.
  induction fuel as [|fuel IH]; intros; cbn [div_adjust]; [discriminate|].
  destruct (_ || _); [apply IH|discriminate].
Qed.

Lemma div_loop_no_throw fuel : forall other res rem e,
  div_loop Math_log Math_pow fuel other res rem <> Throw e.
Proof.
  induction fuel as [|fuel IH]; intros; cbn [div_loop]; [discriminate|].
  destruct (greaterThanOrEqual rem other); [|discriminate].
  cbv zeta.
  match goal with
  | |- bind ?c _ <> _ => destruct c as [[a b]| |] eqn:E
  end; cbn [bind].
  - apply IH.
  - exfalso. eapply div_adjust_no_throw. exact E.
  - discriminate.
Qed.

Lemma isZero_negate y :
  wf y -> isZero y = false -> isZero (negate y) = false.
Proof.
  intros Hy Hz. rewrite isZero_spec in * by wf_side.
  rewrite toZ_negate by assumption.
  pose proof (toZ_range y).
  destruct (Z.eqb_spec (toZ y) 0); [discriminate|].
  destruct (Z.eqb_spec (wrap64 (- toZ y)) 0) as [E|]; [|reflexivity].
  exfalso. destruct (Z.eq_dec (toZ y) (- 2 ^ 63)) as [M|M].
  - rewrite M in E. vm_compute in E. discriminate.
  - rewrite wrap64_id in E; lia.
Qed.

Lemma div_fuel_no_throw fuel : forall x y e,
  wf y -> isZero y = false ->
  div_fuel Math_log Math_pow fuel x y <> Throw e.
Proof.
  induction fuel as [|fuel IH]; intros x y e Hy Hz; [discriminate|].
  cbn [div_fuel]. rewrite Hz.
  destruct (isZero x); [discriminate|].
  pose proof (isZero_negate y Hy Hz) as Hn.
  pose proof (negate_wf y) as Wn.
  destruct (equals x MIN_VALUE).
  - destruct (_ || _); [discriminate|].
    destruct (equals y MIN_VALUE); [discriminate|]. cbv zeta.
    destruct (div_fuel _ _ fuel (shiftRight x 1) y) as [q| |] eqn:E1;
      cbn [bind]; [|exfalso; exact (IH _ y _ Hy Hz E1)|discriminate].
    destruct (equals (shiftLeft q 1) ZERO); [discriminate|].
    destruct (div_fuel _ _ fuel (subtract _ _) y) as [r| |] eqn:E2;
      cbn [bind]; [discriminate|exfalso; exact (IH _ y _ Hy Hz E2)|discriminate].
  - destruct (equals y MIN_VALUE); [discriminate|].
    destruct (isNegative x); destruct (isNegative y).
    + apply IH; assumption.
    + destruct (div_fuel _ _ fuel _ y) as [r| |] eqn:E2;
        cbn [bind]; [discriminate|exfalso; exact (IH _ y _ Hy Hz E2)|discriminate].
    + destruct (div_fuel _ _ fuel x _) as [r| |] eqn:E2;
        cbn [bind]; [discriminate|exfalso; exact (IH _ _ _ Wn Hn E2)|discriminate].
    + apply div_loop_no_throw.
Qed.

Lemma modulo_fuel_no_throw fuel x y e :
  wf y -> isZero y = false ->
  modulo_fuel Math_log Math_pow fuel x y <> Throw e.
Proof.
  intros Hy Hz. unfold modulo_fuel.
  destruct (div_fuel _ _ fuel x y) as [q| |] eqn:E; cbn [bind];
    [discriminate|exfalso; exact (div_fuel_no_throw _ _ _ _ Hy Hz E)|discriminate].
Qed.

End NoThrow.

End DivErrors.

(** C4. On a host whose [Math.log] and [Math.pow] meet [log_accurate] and
    [pow_exact], [div] terminates for every dividend and every nonzero
    divisor: there is an amount of fuel from which on the call returns a
    value, the same one for every larger amount.  This covers the
    approximation loop and the recursion on a [MIN_VALUE] dividend. *)
Theorem div_terminates (Math_log : number -> number)
    (Math_pow : number -> number -> number) (x y : Timestamp) :
  log_accurate Math_log -> pow_exact Math_pow ->
  wf x -> wf y -> isZero y = false ->
  exists fuel0 q,
    wf q /\
    forall fuel, (fuel0 <= fuel)%nat ->
      div_fuel Math_log Math_pow fuel x y = Ret q.
Proof.
  intros Hlog Hpow Hx Hy Hz.
  rewrite Int64.isZero_spec in Hz by assumption.
  apply Z.eqb_neq in Hz.
  destruct (DivSpec.div_spec Math_log Math_pow Hlog Hpow x y Hx Hy Hz)
    as (f0 & q & Hq & Wq & _).
  exists f0, q. split; assumption.
Qed.

Lemma div_terminates_witness :
  log_accurate ref_log /\ pow_exact ref_pow
  /\ wf MIN_VALUE /\ wf (fromInt 7) /\ isZero (fromInt 7) = false
  /\ exists fuel0 q,
       wf q /\
       forall fuel, (fuel0 <= fuel)%nat ->
         div_fuel ref_log ref_pow fuel MIN_VALUE (fromInt 7) = Ret q.
Proof.
  split; [exact RefHost.ref_log_accurate|].
  split; [exact RefHost.ref_pow_exact|].
  split; [exact Int64.MIN_VALUE_wf|].
  split; [apply new_Timestamp_wf|].
  split; [reflexivity|].
  apply (div_terminates ref_log ref_pow MIN_VALUE (fromInt 7)
           RefHost.ref_log_accurate RefHost.ref_pow_exact
           Int64.MIN_VALUE_wf (new_Timestamp_wf _ _) eq_refl).
Defined.

(** C6. [div] and [modulo] throw exactly when the divisor is the zero value,
    and then the error is the division-by-zero error.  With any other
    divisor neither throws, whatever the fuel, and on a host meeting
    [log_accurate] and [pow_exact] both return a value. *)
Theorem div_modulo_throw_iff_zero_divisor (Math_log : number -> number)
    (Math_pow : number -> number -> number) (x y : Timestamp) :
  log_accurate Math_log -> pow_exact Math_pow ->
  wf x -> wf y ->
  (isZero y = true ->
     forall fuel,
       div_fuel Math_log Math_pow (S fuel) x y = Throw DivisionByZero
       /\ modulo_fuel Math_log Math_pow (S fuel) x y = Throw DivisionByZero)
  /\ (isZero y = false ->
       (forall fuel e,
          div_fuel Math_log Math_pow fuel x y <> Throw e
          /\ modulo_fuel Math_log Math_pow fuel x y <> Throw e)
       /\ exists fuel0 q r,
            forall fuel, (fuel0 <= fuel)%nat ->
              div_fuel Math_log Math_pow fuel x y = Ret q
              /\ modulo_fuel Math_log Math_pow fuel x y = Ret r).
Proof.
  intros Hlog Hpow Hx Hy. split.
  - intros Hz fuel. unfold modulo_fuel. cbn [div_fuel]. rewrite Hz.
    split; reflexivity.
  - intros Hz. split.
    + intros fuel e. split.
      * apply DivErrors.div_fuel_no_throw; assumption.
      * apply DivErrors.modulo_fuel_no_throw; assumption.
    + pose proof Hz as Hz'.
      rewrite Int64.isZero_spec in Hz' by assumption.
      apply Z.eqb_neq in Hz'.
      destruct (DivSpec.div_spec Math_log Math_pow Hlog Hpow x y Hx Hy Hz')
        as (f0 & q & Hq & _).
      exists f0, q, (subtract x (multiply q y)).
      intros fuel Hf. unfold modulo_fuel. rewrite Hq by assumption.
      split; reflexivity.
Qed.

Lemma div_modulo_throw_iff_zero_divisor_witness :
  log_accurate ref_log /\ pow_exact ref_pow
  /\ wf MIN_VALUE /\ wf ZERO /\ wf NEG_ONE
  /\ div_fuel ref_log ref_pow 1 MIN_VALUE ZERO = Throw DivisionByZero
  /\ modulo_fuel ref_log ref_pow 1 MIN_VALUE ZERO = Throw DivisionByZero
  /\ exists fuel0 q r,
       forall fuel, (fuel0 <= fuel)%nat ->
         div_fuel ref_log ref_pow fuel MIN_VALUE NEG_ONE = Ret q
         /\ modulo_fuel ref_log ref_pow fuel MIN_VALUE NEG_ONE = Ret r.
Proof.
  split; [exact RefHost.ref_log_accurate|].
  split; [exact RefHost.ref_pow_exact|].
  split; [exact Int64.MIN_VALUE_wf|].
  split; [exact ZERO_wf|].
  split; [exact DivSpec.NEG_ONE_wf|].
  pose proof (div_modulo_throw_iff_zero_divisor ref_log ref_pow MIN_VALUE ZERO
                RefHost.ref_log_accurate RefHost.ref_pow_exact
                Int64.MIN_VALUE_wf ZERO_wf) as [T _].
  pose proof (div_modulo_throw_iff_zero_divisor ref_log ref_pow MIN_VALUE NEG_ONE
                RefHost.ref_log_accurate RefHost.ref_pow_exact
                Int64.MIN_VALUE_wf DivSpec.NEG_ONE_wf) as [_ R].
  split; [exact (proj1 (T eq_refl 0%nat))|].
  split; [exact (proj2 (T eq_refl 0%nat))|].
  exact (proj2 (R eq_refl)).
Defined.

(** C1. For every [x] and every nonzero [y] -- whether or not one of the
    [MIN_VALUE] special cases of [div] is met -- on a host meeting
    [log_accurate] and [pow_exact], [x.div(y)] and [x.modulo(y)] return and
    [x.div(y).multiply(y).add(x.modulo(y)).equals(x)] is true. *)
Theorem div_multiply_add_modulo (Math_log : number -> number)
    (Math_pow : number -> number -> number) (x y : Timestamp) :
  log_accurate Math_log -> pow_exact Math_pow ->
  wf x -> wf y -> isZero y = false ->
  exists fuel0,
    forall fuel, (fuel0 <= fuel)%nat ->
      (q <- div_fuel Math_log Math_pow fuel x y ;;
       r <- modulo_fuel Math_log Math_pow fuel x y ;;
       Ret (equals (add (multiply q y) r) x)) = Ret true.
Proof.
  intros Hlog Hpow Hx Hy Hz.
  rewrite Int64.isZero_spec in Hz by assumption.
  apply Z.eqb_neq in Hz.
  destruct (DivSpec.div_spec Math_log Math_pow Hlog Hpow x y Hx Hy Hz)
    as (f0 & q & Hq & Wq & _).
  exists f0. intros fuel Hf. unfold modulo_fuel.
  rewrite Hq by assumption. cbn [bind]. f_equal.
  rewrite Int64.equals_spec by (assumption || apply add_wf).
  apply Z.eqb_eq.
  rewrite toZ_add, Int64.toZ_subtract by (apply Mul.multiply_wf; assumption).
  rewrite Int64.wrap64_wrap_r.
  replace (toZ (multiply q y) + (toZ x - toZ (multiply q y))) with (toZ x) by ring.
  apply Int64.wrap64_id. apply Int64.toZ_range.
Qed.

Lemma div_multiply_add_modulo_witness :
  log_accurate ref_log /\ pow_exact ref_pow
  /\ wf (fromInt (-100)) /\ wf (fromInt 7) /\ isZero (fromInt 7) = false
  /\ exists fuel0,
       forall fuel, (fuel0 <= fuel)%nat ->
         (q <- div_fuel ref_log ref_pow fuel (fromInt (-100)) (fromInt 7) ;;
          r <- modulo_fuel ref_log ref_pow fuel (fromInt (-100)) (fromInt 7) ;;
          Ret (equals (add (multiply q (fromInt 7)) r) (fromInt (-100))))
         = Ret true.
Proof.
  split; [exact RefHost.ref_log_accurate|].
  split; [exact RefHost.ref_pow_exact|].
  split; [apply new_Timestamp_wf|].
  split; [apply new_Timestamp_wf|].
  split; [reflexivity|].
  apply (div_multiply_add_modulo ref_log ref_pow (fromInt (-100)) (fromInt 7)
           RefHost.ref_log_accurate RefHost.ref_pow_exact
           (new_Timestamp_wf _ _) (new_Timestamp_wf _ _) eq_refl).
Defined.


(** ** [fromNumber] on arbitrary numbers *)

(** The numbers of the host language are the valid binary64 values. *)
Definition valid (v : number) : bool := valid_binary Num.prec Num.emax v.

Module RoundFacts.

Import B64 Exact Rnd NumFacts.

Lemma valid_shape s m e :
  valid (S754_finite s m e) = true ->
  digits (Zpos m) <= 53 /\ - 1074 <= e <= 971
  /\ (digits (Zpos m) = 53 \/ e = - 1074).
Proof.
  unfold valid, valid_binary, bounded, canonical_mantissa.
  rewrite fexp_eq, digits_pos. unfold fexp64.
  intros H. apply andb_prop in H. destruct H as [H1 H2].
  apply Z.eqb_eq in H1. apply Z.leb_le in H2.
  change (Num.emax - Num.prec) with 971 in H2. lia.
Qed.

Lemma valid_mant_lt s m e :
  valid (S754_finite s m e) = true -> Zpos m < 2 ^ 53.
Proof.
  intros H. apply valid_shape in H. apply digits_lt_pow; lia.
Qed.

(** The rounded mantissa is never negative. *)
Lemma round_mant_nonneg M e : 0 < M -> 0 <= fst (round_mant M e).
Proof.
  intros HM. unfold round_mant.
  set (t := fexp64 (digits M + e)).
  destruct (Z.leb_spec t e).
  - cbn [fst]. pose proof (pow_pos (e - t) ltac:(lia)). nia.
  - cbv zeta. assert (0 <= M / 2 ^ (t - e)).
    { apply Z.div_pos; [lia|]. apply pow_pos; lia. }
    destruct (rne_up _ _ _); destruct (_ =? _); cbn [fst]; lia.
Qed.

(** Rounding keeps the sign. *)
Lemma binary_round_sign s M e :
  binary_round Num.prec Num.emax s M e = S754_zero s
  \/ binary_round Num.prec Num.emax s M e = S754_infinity s
  \/ exists m' e', binary_round Num.prec Num.emax s M e = S754_finite s m' e'.
Proof.
  rewrite binary_round_spec.
  pose proof (round_mant_nonneg (Zpos M) e ltac:(lia)) as H.
  destruct (round_mant (Zpos M) e) as [m1 t]. cbn [fst] in H. cbn [pack].
  destruct m1 as [|p|p]; [now left| |lia].
  destruct (t <=? 971); [right; right; eauto|now right; left].
Qed.

(** A small magnitude rounds to a small exponent. *)
Lemma round_mant_exp_le M e k :
  0 < M -> digits M + e <= k -> - 1021 <= k ->
  snd (round_mant M e) <= k - 52.
Proof.
  intros HM Hd Hk. unfold round_mant.
  set (t := fexp64 (digits M + e)).
  assert (Ht : t <= k - 53) by (unfold t, fexp64; lia).
  destruct (Z.leb_spec t e); [cbn [snd]; lia|].
  cbv zeta. destruct (_ =? _); cbn [snd]; lia.
Qed.

(** A large magnitude rounds to a 53-digit mantissa at a large exponent. *)
Lemma round_mant_big M e k :
  0 < M -> k <= digits M + e -> - 1021 <= k -> 0 <= e + 1074 ->
  let r := round_mant M e in
  2 ^ 52 <= fst r /\ k - 53 <= snd r.
Proof.
  intros HM Hd Hk He. unfold round_mant.
  set (t := fexp64 (digits M + e)).
  assert (Ht : t = digits M + e - 53) by (unfold t, fexp64; lia).
  pose proof (digits_bounds M HM) as [Bl Bu].
  destruct (Z.leb_spec t e).
  - cbn [fst snd]. split; [|lia].
    replace 52 with ((digits M - 1) + (e - t)) by lia.
    rewrite pow_split by (pose proof (digits_ge_1 M HM); lia).
    apply Z.mul_le_mono_nonneg_r; [|assumption].
    pose proof (pow_pos (e - t) ltac:(lia)). lia.
  - cbv zeta.
    assert (Hq : 2 ^ 52 <= M / 2 ^ (t - e)).
    { apply Z.div_le_lower_bound; [apply pow_pos; lia|].
      rewrite Z.mul_comm, <- pow_split by lia.
      replace (52 + (t - e)) with (digits M - 1) by lia. assumption. }
    destruct (rne_up _ _ _); destruct (_ =? _); cbn [fst snd]; lia.
Qed.

End RoundFacts.


Module FromNumber.

Import B64 Exact Rnd NumFacts RoundFacts Conv.

Lemma two63_eq : TWO_PWR_63_DBL_ = S754_finite false (2 ^ 52) 11.
Proof. reflexivity. Qed.
Lemma neg_two63_eq :
  Num.neg TWO_PWR_63_DBL_ = S754_finite true (2 ^ 52) 11.
Proof. reflexivity. Qed.

Lemma SFcompare_pos m1 e1 m2 e2 :
  SFcompare (S754_finite false m1 e1) (S754_finite false m2 e2)
  = Some match e1 ?= e2 with
         | Lt => Lt
         | Gt => Gt
         | Eq => (m1 ?= m2)%positive
         end.
Proof. reflexivity. Qed.

Lemma SFcompare_neg m1 e1 m2 e2 :
  SFcompare (S754_finite true m1 e1) (S754_finite true m2 e2)
  = Some match e1 ?= e2 with
         | Lt => Gt
         | Gt => Lt
         | Eq => CompOpp (m1 ?= m2)%positive
         end.
Proof. reflexivity. Qed.

Lemma two52_pos : Zpos (2 ^ 52) = 2 ^ 52.
Proof. reflexivity. Qed.

Lemma leb_two63_finite m e :
  Num.leb TWO_PWR_63_DBL_ (S754_finite false m e)
  = (11 <? e) || ((e =? 11) && (2 ^ 52 <=? Zpos m)).
Proof.
  rewrite two63_eq. unfold Num.leb, SFleb. rewrite SFcompare_pos.
  rewrite <- two52_pos.
  destruct (Z.compare_spec 11 e) as [E|E|E]; destruct (Z.ltb_spec 11 e);
    destruct (Z.eqb_spec e 11); try lia; cbn [orb andb]; try reflexivity.
Qed.

Lemma leb_neg_two63_finite s m e :
  Num.leb (S754_finite s m e) (Num.neg TWO_PWR_63_DBL_)
  = s && ((11 <? e) || ((e =? 11) && (2 ^ 52 <=? Zpos m))).
Proof.
  rewrite neg_two63_eq. destruct s; [|reflexivity].
  unfold Num.leb, SFleb. rewrite SFcompare_neg. cbn [andb].
  rewrite <- two52_pos.
  destruct (Z.compare_spec e 11) as [E|E|E]; destruct (Z.ltb_spec 11 e);
    destruct (Z.eqb_spec e 11); try lia; cbn [orb andb]; try reflexivity.
  destruct (Pos.compare_spec m (2 ^ 52)) as [P|P|P]; cbn [CompOpp];
    destruct (Z.leb_spec (Zpos (2 ^ 52)) (Zpos m)); try reflexivity; lia.
Qed.

Lemma one_eq : Num.ofZ 1 = S754_finite false (2 ^ 52) (- 52).
Proof. reflexivity. Qed.

(** [v + 1] for a finite [v] of exponent at least [-52]. *)
Lemma add_one_large s m e :
  - 52 <= e ->
  Num.add (S754_finite s m e) (Num.ofZ 1)
  = binary_normalize Num.prec Num.emax
      (cond_Zopp s (Zpos m * 2 ^ (e + 52)) + 2 ^ 52) (- 52) false.
Proof.
  intros He. rewrite one_eq. unfold Num.add, SFadd.
  replace (Z.min e (- 52)) with (- 52) by lia.
  rewrite !shl_align_fst by lia.
  replace (e - - 52) with (e + 52) by lia.
  reflexivity.
Qed.

(** [v + 1] for a finite [v] of exponent below [-52]. *)
Lemma add_one_small s m e :
  e <= - 52 ->
  Num.add (S754_finite s m e) (Num.ofZ 1)
  = binary_normalize Num.prec Num.emax
      (cond_Zopp s (Zpos m) + 2 ^ 52 * 2 ^ (- 52 - e)) e false.
Proof.
  intros He. rewrite one_eq. unfold Num.add, SFadd.
  replace (Z.min e (- 52)) with e by lia.
  rewrite !shl_align_fst by lia.
  rewrite Z.sub_diag, Z.mul_1_r. reflexivity.
Qed.

(** A value of magnitude below [2^k], [k <= 62], rounds below [2^63]. *)
Lemma leb_two63_normalize z e k :
  Z.abs z < 2 ^ (k - e) -> e <= k -> - 1021 <= k <= 62 ->
  Num.leb TWO_PWR_63_DBL_ (binary_normalize Num.prec Num.emax z e false) = false.
Proof.
  intros Hz Hek Hk. destruct z as [|p|p]; cbn [binary_normalize].
  - reflexivity.
  - rewrite binary_round_spec.
    assert (Hd : digits (Zpos p) + e <= k).
    { assert (digits (Zpos p) <= k - e); [|lia].
      apply digits_le_of_lt; lia. }
    pose proof (round_mant_exp_le (Zpos p) e k ltac:(lia) Hd ltac:(lia)) as Hs.
    pose proof (round_mant_nonneg (Zpos p) e ltac:(lia)) as Hn.
    destruct (round_mant (Zpos p) e) as [m1 t]. cbn [fst snd] in *.
    destruct m1 as [|q|q]; cbn [pack]; [reflexivity| |lia].
    destruct (Z.leb_spec t 971); [|lia].
    rewrite leb_two63_finite.
    destruct (Z.ltb_spec 11 t); [lia|]. destruct (Z.eqb_spec t 11); [lia|].
    reflexivity.
  - destruct (binary_round_sign true p e) as [-> | [-> | (m' & e' & ->)]];
      reflexivity.
Qed.

(** A value of at least [2^63] rounds to at least [2^63]. *)
Lemma leb_two63_normalize_big z e :
  2 ^ (63 - e) <= z -> - 1074 <= e <= 63 ->
  Num.leb TWO_PWR_63_DBL_ (binary_normalize Num.prec Num.emax z e false) = true.
Proof.
  intros Hz He.
  assert (P : 0 < 2 ^ (63 - e)) by (apply pow_pos; lia).
  destruct z as [|p|p]; try lia. cbn [binary_normalize].
  rewrite binary_round_spec.
  assert (Hd : 64 <= digits (Zpos p) + e).
  { destruct (Z.le_gt_cases (64 - e) (digits (Zpos p))); [lia|].
    assert (Zpos p < 2 ^ (63 - e)) by (apply digits_lt_pow; lia). lia. }
  pose proof (round_mant_big (Zpos p) e 64 ltac:(lia) Hd ltac:(lia) ltac:(lia))
    as [H1 H2].
  destruct (round_mant (Zpos p) e) as [m1 t]. cbn [fst snd] in *.
  destruct m1 as [|q|q]; cbn [pack]; try lia.
  destruct (t <=? 971); [|reflexivity].
  rewrite leb_two63_finite.
  destruct (Z.ltb_spec 11 t); [reflexivity|].
  destruct (Z.eqb_spec t 11); [|lia].
  destruct (Z.leb_spec (2 ^ 52) (Zpos q)); [reflexivity|lia].
Qed.

End FromNumber.


(** C8. [fromNumber] always returns (two rounds of its recursion suffice,
    and no step of it can raise): [ZERO] on NaN and on the infinities,
    [MIN_VALUE] on every finite number of value at most [-2^63], and
    [MAX_VALUE] on every finite number [v] with [v + 1 >= 2^63].  The two
    bounds being integers, the value of [v] meets them exactly when its
    integer part [Num.truncZ v] does. *)
Theorem fromNumber_clamps (v : number) :
  (forall n, fromNumber_fuel (S (S n)) v = Some (fromNumber v))
  /\ (Num.isNaN v || negb (Num.isFinite v) = true -> fromNumber v = ZERO)
  /\ (valid v = true -> Num.isFinite v = true ->
      Num.truncZ v <= - 2 ^ 63 -> fromNumber v = MIN_VALUE)
  /\ (valid v = true -> Num.isFinite v = true ->
      2 ^ 63 <= Num.truncZ v + 1 -> fromNumber v = MAX_VALUE).
Proof.
  split; [intros n; apply Conv.fromNumber_fuel_enough|].
  split; [|split].
  - intros H. unfold fromNumber. cbn [fromNumber_fuel]. now rewrite H.
  - intros Hv Hf Ht. destruct v as [s| | |s m e]; try discriminate.
    { cbn [Num.truncZ] in Ht. Int64.pow2. lia. }
    pose proof (RoundFacts.valid_mant_lt s m e Hv) as Hm.
    apply RoundFacts.valid_shape in Hv.
    assert (L : Num.leb (S754_finite s m e) (Num.neg TWO_PWR_63_DBL_) = true).
    { rewrite FromNumber.leb_neg_two63_finite.
      cbn [Num.truncZ] in Ht. unfold Num.signed in Ht.
      destruct (Z.leb_spec 0 e).
      - pose proof (NumFacts.pow_pos e ltac:(lia)) as Pe.
        destruct s; cbn [cond_Zopp] in Ht; [|Int64.pow2; nia].
        cbn [andb].
        destruct (Z.ltb_spec 11 e); [reflexivity|]. cbn [orb].
        assert (E10 : e <= 10 -> False).
        { intros E. assert (2 ^ e <= 2 ^ 10) by (apply Z.pow_le_mono_r; lia).
          Int64.pow2. nia. }
        destruct (Z.eqb_spec e 11) as [->|]; [|lia]. cbn [andb].
        destruct (Z.leb_spec (2 ^ 52) (Zpos m)); [reflexivity|].
        Int64.pow2. lia.
      - pose proof (NumFacts.pow_pos (- e) ltac:(lia)) as Pe.
        assert (0 <= Zpos m / 2 ^ (- e) <= Zpos m).
        { split; [apply Z.div_pos; lia|].
          apply Z.div_le_upper_bound; [lia|]. nia. }
        destruct s; cbn [cond_Zopp] in Ht; Int64.pow2; lia. }
    unfold fromNumber. cbn [fromNumber_fuel]. cbn [Num.isNaN Num.isFinite orb negb].
    now rewrite L.
  - intros Hv Hf Ht. destruct v as [s| | |s m e]; try discriminate.
    { cbn [Num.truncZ] in Ht. Int64.pow2. lia. }
    pose proof (RoundFacts.valid_mant_lt s m e Hv) as Hm.
    apply RoundFacts.valid_shape in Hv.
    cbn [Num.truncZ] in Ht. unfold Num.signed in Ht.
    assert (F : s = false /\ 11 <= e /\ (2 ^ 63 - 1) * 2 ^ 52 <= Zpos m * 2 ^ (e + 52)).
    { destruct (Z.leb_spec 0 e).
      - pose proof (NumFacts.pow_pos e ltac:(lia)) as Pe.
        destruct s; cbn [cond_Zopp] in Ht; [Int64.pow2; nia|].
        split; [reflexivity|].
        assert (E11 : 11 <= e).
        { destruct (Z.le_gt_cases 11 e); [assumption|exfalso].
          destruct (Z.eq_dec e 0) as [->|]; [Int64.pow2; lia|].
          replace e with (1 + (e - 1)) in Ht by lia.
          rewrite Exact.pow_split in Ht by lia. change (2 ^ 1) with 2 in Ht.
          assert (2 ^ (e - 1) <= 2 ^ 9) by (apply Z.pow_le_mono_r; lia).
          pose proof (NumFacts.pow_pos (e - 1) ltac:(lia)).
          assert (Zpos m * 2 ^ (e - 1) < 2 ^ 53 * 2 ^ 9) by nia.
          Int64.pow2. lia. }
        split; [assumption|].
        rewrite Exact.pow_split, Z.mul_assoc by lia.
        apply Z.mul_le_mono_nonneg_r; [Int64.pow2|]; lia.
      - pose proof (NumFacts.pow_pos (- e) ltac:(lia)) as Pe.
        assert (0 <= Zpos m / 2 ^ (- e) <= Zpos m).
        { split; [apply Z.div_pos; lia|].
          apply Z.div_le_upper_bound; [lia|]. nia. }
        destruct s; cbn [cond_Zopp] in Ht; Int64.pow2; lia. }
    destruct F as (-> & E11 & Hz).
    unfold fromNumber. cbn [fromNumber_fuel]. cbn [Num.isNaN Num.isFinite orb negb].
    rewrite FromNumber.leb_neg_two63_finite. cbn [andb].
    rewrite FromNumber.add_one_large by lia. cbn [cond_Zopp].
    rewrite FromNumber.leb_two63_normalize_big; [reflexivity| |lia].
    change (63 - - 52) with (63 + 52).
    rewrite Exact.pow_split by lia. lia.
Qed.

Lemma fromNumber_clamps_witness :
  (fromNumber S754_nan = ZERO /\ fromNumber (S754_infinity true) = ZERO)
  /\ (valid (Num.ofZ (- 2 ^ 80)) = true
      /\ Num.isFinite (Num.ofZ (- 2 ^ 80)) = true
      /\ Num.truncZ (Num.ofZ (- 2 ^ 80)) <= - 2 ^ 63
      /\ fromNumber (Num.ofZ (- 2 ^ 80)) = MIN_VALUE)
  /\ (valid TWO_PWR_63_DBL_ = true
      /\ Num.isFinite TWO_PWR_63_DBL_ = true
      /\ 2 ^ 63 <= Num.truncZ TWO_PWR_63_DBL_ + 1
      /\ fromNumber TWO_PWR_63_DBL_ = MAX_VALUE).
Proof.
  split; [split|split].
  - exact (proj1 (proj2 (fromNumber_clamps S754_nan)) eq_refl).
  - exact (proj1 (proj2 (fromNumber_clamps (S754_infinity true))) eq_refl).
  - split; [reflexivity|]. split; [reflexivity|].
    assert (H : Num.truncZ (Num.ofZ (- 2 ^ 80)) <= - 2 ^ 63)
      by (vm_compute; discriminate).
    split; [exact H|].
    exact (proj1 (proj2 (proj2 (fromNumber_clamps (Num.ofZ (- 2 ^ 80)))))
             eq_refl eq_refl H).
  - split; [reflexivity|]. split; [reflexivity|].
    assert (H : 2 ^ 63 <= Num.truncZ TWO_PWR_63_DBL_ + 1)
      by (vm_compute; discriminate).
    split; [exact H|].
    exact (proj2 (proj2 (proj2 (fromNumber_clamps TWO_PWR_63_DBL_)))
             eq_refl eq_refl H).
Defined.


(** ** [fromNumber] drops the fraction *)

(** [Math.trunc]: the integer part of a number, as a number. *)
Definition Math_trunc (v : number) : number :=
  match v with
  | S754_finite s m e =>
      if 0 <=? e then v
      else
        let t := Zpos m / 2 ^ (- e) in
        if t =? 0 then S754_zero s else Num.ofZ (cond_Zopp s t)
  | _ => v
  end.

Module Trunc.

Import B64 Exact Rnd NumFacts NumSplit RoundFacts Conv FromNumber.

(** A mantissa below 2^53 at an exponent in range is held as it is. *)
Lemma truncZ_normalize_small M e :
  0 <= M < 2 ^ 53 -> - 1074 <= e < 0 ->
  Num.truncZ (binary_normalize Num.prec Num.emax M e false) = M / 2 ^ (- e).
Proof.
  intros HM He. destruct M as [|p|p]; [reflexivity| |lia].
  cbn [binary_normalize]. rewrite binary_round_spec. unfold round_mant.
  set (t := fexp64 (digits (Zpos p) + e)).
  assert (Hd : digits (Zpos p) <= 53) by (apply digits_le_53; lia).
  assert (Ht : - 1074 <= t <= e) by (unfold t, fexp64; lia).
  destruct (Z.leb_spec t e); [|lia].
  pose proof (pow_pos (e - t) ltac:(lia)) as P1.
  pose proof (pow_pos (- e) ltac:(lia)) as P2.
  cbn [pack]. destruct (Zpos p * 2 ^ (e - t)) as [|q|q] eqn:Q; try lia.
  destruct (Z.leb_spec t 971); [|lia].
  cbn [Num.truncZ]. destruct (Z.leb_spec 0 t); [lia|].
  cbn [cond_Zopp]. rewrite <- Q.
  replace (- t) with ((- e) + (e - t)) by lia.
  rewrite pow_split by lia.
  rewrite Z.div_mul_cancel_r by lia. reflexivity.
Qed.

(** Rounding a mantissa below 2^53 at the least exponent gives less than 1. *)
Lemma bra_tiny s q l :
  0 <= q < 2 ^ 53 ->
  Num.truncZ (binary_round_aux Num.prec Num.emax s q (- 1074) l) = 0.
Proof.
  intros Hq. rewrite binary_round_aux_finish.
  unfold shr_fexp. rewrite fexp_eq.
  assert (Hz : fexp64 (Zdigits2 q + - 1074) - - 1074 = 0).
  { destruct q as [|p|p]; [reflexivity| |lia]. cbn [Zdigits2].
    rewrite digits_pos.
    assert (digits (Zpos p) <= 53) by (apply digits_le_53; lia).
    unfold fexp64. lia. }
  rewrite Hz. cbn [shr].
  set (l0 := shr_record_of_loc q l).
  assert (Hl0 : shr_m l0 = q) by apply shr_record_of_loc_m.
  pose proof (rne_range (shr_m l0) (loc_of_shr_record l0)) as Hr.
  set (m1 := round_nearest_even (shr_m l0) (loc_of_shr_record l0)) in *.
  rewrite Hl0 in Hr.
  assert (Hc : m1 = 0 \/ fexp64 (digits m1 + - 1074) <= - 1074 \/ m1 = 2 ^ 53).
  { destruct (Z.eq_dec m1 (2 ^ 53)); [right; right; assumption|].
    destruct (Z.eq_dec m1 0); [left; assumption|].
    right; left.
    assert (digits m1 <= 53) by (apply digits_le_53; lia).
    unfold fexp64. lia. }
  rewrite (finish_rec0 s m1 (- 1074) ltac:(lia) ltac:(lia) Hc l0 eq_refl).
  destruct (Z.eqb_spec m1 (2 ^ 53)) as [E|E].
  - destruct s; reflexivity.
  - destruct m1 as [|p|p]; [reflexivity| |lia].
    cbn [pack]. cbv iota. change (- 1074 <=? 971) with true. cbv iota.
    cbn [Num.truncZ]. change (0 <=? - 1074) with false. cbv iota.
    rewrite Z.div_small; [destruct s; reflexivity|].
    split; [lia|]. apply Z.lt_trans with (2 ^ 53); [lia|].
    apply Z.pow_lt_mono_r; lia.
Qed.

(** [v / 2^32] for a [v] below the normal range of the quotient. *)
Lemma div_two32_tiny m e :
  digits (Zpos m) <= 53 -> - 1074 <= e < - 1041 ->
  Num.truncZ (Num.div (S754_finite false m e) TWO_PWR_32_DBL_) = 0.
Proof.
  intros Hd He. rewrite TWO_PWR_32_DBL_eq.
  unfold Num.div, SFdiv, SFdiv_core_binary.
  cbn [Zdigits2]. rewrite !digits_pos, fexp_eq.
  change (digits (Zpos (2 ^ 52))) with 53.
  replace (Z.min (fexp64 (digits (Zpos m) + e - (53 + - 20))) (e - - 20))
    with (- 1074) by (unfold fexp64; lia).
  cbv zeta.
  destruct (e - - 20 - - 1074) as [|sp|sp] eqn:S; try lia.
  rewrite Z.shiftl_mul_pow2 by lia.
  pose proof (Z.div_mod (Zpos m * 2 ^ Zpos sp) (Zpos (2 ^ 52)) ltac:(lia)) as DM.
  pose proof (Z.mod_pos_bound (Zpos m * 2 ^ Zpos sp) (Zpos (2 ^ 52)) ltac:(lia)) as MB.
  unfold Z.div, Z.modulo in DM, MB.
  destruct (Z.div_eucl (Zpos m * 2 ^ Zpos sp) (Zpos (2 ^ 52))) as [q r].
  apply bra_tiny.
  assert (Hm : Zpos m < 2 ^ 53) by (apply digits_lt_pow; lia).
  assert (Hs : 2 ^ Zpos sp <= 2 ^ 52) by (apply Z.pow_le_mono_r; lia).
  pose proof (pow_pos (Zpos sp) ltac:(lia)).
  change (Zpos (2 ^ 52)) with (2 ^ 52) in *.
  split; nia.
Qed.

(** The integer part of [v % 2^32]. *)
Lemma truncZ_rem_two32 m e :
  digits (Zpos m) <= 53 -> - 1074 <= e < 0 ->
  Num.truncZ (Num.rem (S754_finite false m e) TWO_PWR_32_DBL_)
  = (Zpos m / 2 ^ (- e)) mod 2 ^ 32.
Proof.
  intros Hd He. rewrite TWO_PWR_32_DBL_eq. cbn [Num.rem cond_Zopp].
  set (ez := Z.min e (- 20)).
  assert (Hez : - 1074 <= ez <= - 20 /\ ez <= e) by (unfold ez; lia).
  assert (Eez : ez = e \/ ez = - 20 /\ - 20 < e) by (unfold ez; lia).
  clearbody ez.
  assert (Hm : Zpos m < 2 ^ 53) by (apply digits_lt_pow; lia).
  pose proof (pow_pos (- ez) ltac:(lia)) as Pz.
  pose proof (pow_pos (e - ez) ltac:(lia)) as Pd.
  pose proof (pow_pos (- e) ltac:(lia)) as Pe.
  assert (Y : Zpos (2 ^ 52) * 2 ^ (- 20 - ez) = 2 ^ (- ez) * 2 ^ 32).
  { change (Zpos (2 ^ 52)) with (2 ^ 52). rewrite <- !pow_split by lia.
    f_equal. lia. }
  rewrite Y.
  set (X := Zpos m * 2 ^ (e - ez)).
  assert (HX : 0 <= X) by (unfold X; nia).
  assert (P32 : 0 < 2 ^ (- ez) * 2 ^ 32) by (apply Z.mul_pos_pos; lia).
  pose proof (Z.mod_pos_bound X (2 ^ (- ez) * 2 ^ 32) P32) as MB.
  assert (MS : X mod (2 ^ (- ez) * 2 ^ 32) < 2 ^ 53).
  { destruct Eez as [E|[E _]].
    - pose proof (Z.mod_le X (2 ^ (- ez) * 2 ^ 32) HX P32) as ML.
      assert (X = Zpos m); [|lia].
      unfold X. rewrite E, Z.sub_diag. lia.
    - rewrite E in MB.
      change (2 ^ (- - 20) * 2 ^ 32) with (2 ^ 52) in MB.
      rewrite E. change (2 ^ (- - 20) * 2 ^ 32) with (2 ^ 52).
      change (2 ^ 53) with (2 * 2 ^ 52). lia. }
  rewrite truncZ_normalize_small by lia.
  rewrite Z.rem_mul_r by lia.
  rewrite (Z.mul_comm (2 ^ (- ez))), Z.div_add by lia.
  rewrite Z.div_small by (apply Z.mod_pos_bound; lia).
  rewrite Z.add_0_l. f_equal.
  unfold X. replace (- ez) with ((- e) + (e - ez)) by lia.
  rewrite pow_split by lia.
  apply Z.div_mul_cancel_r; lia.
Qed.

(** The integer part of [v / 2^32]. *)
Lemma truncZ_div_two32_any m e :
  digits (Zpos m) <= 53 -> (digits (Zpos m) = 53 \/ e = - 1074) ->
  - 1074 <= e < 0 ->
  Num.truncZ (Num.div (S754_finite false m e) TWO_PWR_32_DBL_)
  = (Zpos m / 2 ^ (- e)) / 2 ^ 32.
Proof.
  intros Hd Hc He.
  pose proof (pow_pos (- e) ltac:(lia)) as Pe.
  destruct (Z.le_gt_cases (- 1041) e) as [Hn|Ht].
  - destruct Hc as [Hc|Hc]; [|lia].
    rewrite div_two32 by lia. cbn [Num.truncZ].
    destruct (Z.leb_spec 0 (e - 32)); [lia|]. cbn [cond_Zopp].
    rewrite Z.div_div by lia. rewrite <- pow_split by lia.
    f_equal. f_equal. lia.
  - rewrite div_two32_tiny by lia.
    assert (Hm : Zpos m < 2 ^ 53) by (apply digits_lt_pow; lia).
    assert (2 ^ 53 <= 2 ^ (- e)) by (apply Z.pow_le_mono_r; lia).
    rewrite (Z.div_small (Zpos m)) by lia. reflexivity.
Qed.

(** The three tests of [fromNumber] on a finite number with a fraction
    field. *)
Lemma tests_frac s m e :
  digits (Zpos m) <= 53 -> - 1074 <= e < 0 ->
  Num.leb (S754_finite s m e) (Num.neg TWO_PWR_63_DBL_) = false
  /\ Num.leb TWO_PWR_63_DBL_ (Num.add (S754_finite s m e) (Num.ofZ 1)) = false
  /\ Num.ltb (S754_finite s m e) (Num.ofZ 0) = s.
Proof.
  intros Hd He.
  assert (Hm : Zpos m < 2 ^ 53) by (apply digits_lt_pow; lia).
  split; [|split].
  - rewrite leb_neg_two63_finite.
    destruct (Z.ltb_spec 11 e); [lia|]. destruct (Z.eqb_spec e 11); [lia|].
    now destruct s.
  - destruct (Z.le_gt_cases (- 52) e).
    + rewrite add_one_large by assumption.
      apply (leb_two63_normalize _ _ 54); try lia.
      change (54 - - 52) with 106.
      assert (2 ^ (e + 52) <= 2 ^ 52) by (apply Z.pow_le_mono_r; lia).
      pose proof (pow_pos (e + 52) ltac:(lia)).
      assert (Zpos m * 2 ^ (e + 52) < 2 ^ 53 * 2 ^ 52) by nia.
      change (2 ^ 106) with (2 * (2 ^ 53 * 2 ^ 52)).
      assert (2 ^ 52 < 2 ^ 53 * 2 ^ 52) by reflexivity.
      destruct s; cbn [cond_Zopp]; lia.
    + rewrite add_one_small by lia.
      apply (leb_two63_normalize _ _ 2); try lia.
      assert (E : 2 ^ 52 * 2 ^ (- 52 - e) = 2 ^ (- e)).
      { rewrite <- pow_split by lia. f_equal. lia. }
      rewrite E. replace (2 - e) with (2 + - e) by lia.
      rewrite pow_split by lia. change (2 ^ 2) with 4.
      assert (2 ^ 53 <= 2 ^ (- e)) by (apply Z.pow_le_mono_r; lia).
      destruct s; cbn [cond_Zopp]; lia.
  - now destruct s.
Qed.

(** [fromNumber] on a non-negative finite number with a fraction field. *)
Lemma fromNumber_frac_nonneg m e :
  valid (S754_finite false m e) = true -> e < 0 ->
  let T := Zpos m / 2 ^ (- e) in
  fromNumber_fuel 1 (S754_finite false m e)
  = Some (new_Timestamp (T mod 2 ^ 32) (T / 2 ^ 32)).
Proof.
  intros Hv He T. apply valid_shape in Hv. destruct Hv as (Hd & Hr & Hc).
  destruct (tests_frac false m e Hd ltac:(lia)) as (T1 & T2 & T3).
  cbn [fromNumber_fuel]. cbn [Num.isNaN Num.isFinite orb negb].
  rewrite T1, T2, T3. unfold Num.ToInt32.
  rewrite truncZ_rem_two32, truncZ_div_two32_any by lia.
  fold T. unfold new_Timestamp.
  now rewrite !JSFacts.or_0, !JSFacts.toInt32_idem.
Qed.

Lemma fromNumber_fuel_unfold fuel value :
  fromNumber_fuel (S fuel) value
  = if Num.isNaN value || negb (Num.isFinite value) then Some ZERO
    else if Num.leb value (Num.neg TWO_PWR_63_DBL_) then Some MIN_VALUE
    else if Num.leb TWO_PWR_63_DBL_ (Num.add value (Num.ofZ 1)) then Some MAX_VALUE
    else if Num.ltb value (Num.ofZ 0) then
      option_map negate (fromNumber_fuel fuel (Num.neg value))
    else
      Some (new_Timestamp
              (Num.ToInt32 (Num.rem value TWO_PWR_32_DBL_))
              (Num.ToInt32 (Num.div value TWO_PWR_32_DBL_))).
Proof. reflexivity. Qed.

(** A value that is not positive never reaches [2^63]. *)
Lemma leb_two63_nonpos z e :
  z <= 0 ->
  Num.leb TWO_PWR_63_DBL_ (binary_normalize Num.prec Num.emax z e false) = false.
Proof.
  intros Hz. destruct z as [|p|p]; [reflexivity|lia|].
  cbn [binary_normalize].
  destruct (binary_round_sign true p e) as [-> | [-> | (m' & e' & ->)]];
    reflexivity.
Qed.

(** [fromNumber] on a negative exact integer. *)
Lemma fromNumber_exact_neg A :
  exactZ A -> 0 < A < 2 ^ 63 ->
  fromNumber (Num.ofZ (- A)) = negate (fromNumber (Num.ofZ A)).
Proof.
  intros HA H0.
  assert (HN : exactZ (- A)) by (apply exactZ_opp; assumption).
  unfold fromNumber at 1. rewrite fromNumber_fuel_unfold.
  rewrite is_finite_ofZ by assumption.
  change (Num.neg TWO_PWR_63_DBL_) with (Num.ofZ (- 2 ^ 63)).
  rewrite leb_exact by first [assumption | apply exactZ_neg_two63].
  destruct (Z.leb_spec (- A) (- 2 ^ 63)); [lia|].
  rewrite add_exact by first [assumption | apply exactZ_small; reflexivity].
  unfold Num.ofZ at 1. rewrite leb_two63_nonpos by lia.
  rewrite ltb_exact by first [assumption | apply exactZ_small; reflexivity].
  destruct (Z.ltb_spec (- A) 0); [|lia].
  rewrite neg_ofZ, Z.opp_involutive by lia.
  rewrite (fromNumber_fuel_nonneg _ 0 1).
  - rewrite (fromNumber_fuel_enough 0). reflexivity.
  - rewrite ltb_exact by first [assumption | apply exactZ_small; reflexivity].
    destruct (Z.ltb_spec A 0); [lia|reflexivity].
Qed.

(** [fromNumber] on any exact integer strictly between the clamps. *)
Lemma toZ_fromNumber_exact_signed A :
  exactZ A -> - 2 ^ 63 < A < 2 ^ 63 -> toZ (fromNumber (Num.ofZ A)) = A.
Proof.
  intros HA H0. destruct (Z.le_gt_cases 0 A).
  - rewrite toZ_fromNumber_exact; [lia|assumption|].
    split; [lia|]. apply Z.lt_trans with (2 ^ 63); [lia|reflexivity].
  - replace A with (- (- A)) at 1 by lia.
    assert (HN : exactZ (- A)) by (apply exactZ_opp; assumption).
    rewrite fromNumber_exact_neg by (assumption || lia).
    rewrite Int64.toZ_negate by apply fromNumber_wf.
    rewrite toZ_fromNumber_exact.
    + rewrite Z.min_l by lia. rewrite Int64.wrap64_id; lia.
    + assumption.
    + split; [lia|]. apply Z.lt_trans with (2 ^ 63); [lia|reflexivity].
Qed.

(** A valid finite number without fraction field is an exact integer. *)
Lemma valid_integer s m e :
  valid (S754_finite s m e) = true -> 0 <= e ->
  let V := Num.signed s m * 2 ^ e in
  S754_finite s m e = Num.ofZ V /\ exactZ V.
Proof.
  intros Hv He V. apply valid_shape in Hv. destruct Hv as (Hd & Hr & Hc).
  assert (H53 : digits (Zpos m) = 53) by lia.
  pose proof (ofZ_mant m e H53 ltac:(lia)) as E.
  pose proof (exactZ_mant m e H53 ltac:(lia)) as X.
  pose proof (pow_pos e He).
  unfold V, Num.signed. destruct s; cbn [cond_Zopp].
  - replace (- Zpos m * 2 ^ e) with (- (Zpos m * 2 ^ e)) by ring.
    split; [|apply exactZ_opp; assumption].
    rewrite ofZ_opp, E by nia. reflexivity.
  - split; [now rewrite E|assumption].
Qed.

(** [fromNumber] on a finite number with a fraction field. *)
Lemma fromNumber_frac s m e :
  valid (S754_finite s m e) = true -> e < 0 ->
  let T := Zpos m / 2 ^ (- e) in
  let t := new_Timestamp (T mod 2 ^ 32) (T / 2 ^ 32) in
  fromNumber (S754_finite s m e) = if s then negate t else t.
Proof.
  intros Hv He T t.
  pose proof (valid_shape s m e Hv) as (Hd & Hr & Hc).
  destruct (tests_frac s m e Hd ltac:(lia)) as (T1 & T2 & T3).
  assert (Hp : valid (S754_finite false m e) = true) by exact Hv.
  pose proof (fromNumber_frac_nonneg m e Hp He) as F. cbv zeta in F.
  fold T in F. fold t in F.
  unfold fromNumber. destruct s.
  - rewrite fromNumber_fuel_unfold.
    cbn [Num.isNaN Num.isFinite orb negb].
    rewrite T1, T2, T3. cbn [Num.neg SFopp negb].
    rewrite F. reflexivity.
  - rewrite (fromNumber_fuel_nonneg _ 1 0) by exact T3. rewrite F. reflexivity.
Qed.

End Trunc.

(** The double nearest to 2.9. *)
Definition two_point_nine : number := S754_finite false 6530219459687219 (- 51).

(** C9. On every finite number [v] -- the non-integers in particular --
    [fromNumber v] is [fromNumber] of the integer part of [v], and when that
    integer part lies strictly between [-2^63] and [2^63] the result denotes
    it.  So [fromNumber(2.9)] equals [fromInt(2)] and [fromNumber(-2.9)]
    equals [fromInt(-2)]. *)
Theorem fromNumber_truncates :
  (forall v : number,
     valid v = true -> Num.isFinite v = true ->
     fromNumber v = fromNumber (Math_trunc v)
     /\ (- 2 ^ 63 < Num.truncZ v < 2 ^ 63 ->
         toZ (fromNumber v) = Num.truncZ v))
  /\ equals (fromNumber two_point_nine) (fromInt 2) = true
  /\ equals (fromNumber (Num.neg two_point_nine)) (fromInt (- 2)) = true.
Proof.
  split; [|split; reflexivity].
  intros v Hv Hf. destruct v as [s| | |s m e]; try discriminate.
  { split; [reflexivity|]. intros _. now destruct s. }
  destruct (Z.leb_spec 0 e) as [He|He].
  - (* no fraction field: an exact integer *)
    split.
    { cbn [Math_trunc]. destruct (Z.leb_spec 0 e); [reflexivity|lia]. }
    intros Hb. cbn [Num.truncZ] in *.
    destruct (Z.leb_spec 0 e); [|lia].
    destruct (Trunc.valid_integer s m e Hv He) as [E X]. cbv zeta in E, X.
    rewrite E. apply Trunc.toZ_fromNumber_exact_signed; assumption.
  - pose proof (Trunc.fromNumber_frac s m e Hv He) as F. cbv zeta in F.
    pose proof (RoundFacts.valid_mant_lt s m e Hv) as Hm.
    pose proof (NumFacts.pow_pos (- e) ltac:(lia)) as Pe.
    set (T := Zpos m / 2 ^ (- e)) in *.
    assert (HT : 0 <= T < 2 ^ 53).
    { unfold T. split; [apply Z.div_pos; lia|].
      apply Z.div_lt_upper_bound; [lia|]. nia. }
    assert (XT : Exact.exactZ T) by (apply Exact.exactZ_small; lia).
    assert (B63 : T < 2 ^ 63).
    { apply Z.lt_trans with (2 ^ 53); [lia|reflexivity]. }
    assert (B70 : T < 2 ^ 70).
    { apply Z.lt_trans with (2 ^ 53); [lia|reflexivity]. }
    assert (FT : 0 < T ->
                 fromNumber (Num.ofZ T)
                 = new_Timestamp (T mod 2 ^ 32) (T / 2 ^ 32)).
    { intros HT0. rewrite Conv.fromNumber_exact by (assumption || lia).
      destruct (Z.leb_spec (2 ^ 63) T); [lia|reflexivity]. }
    assert (M : fromNumber (S754_finite s m e)
                = fromNumber (Math_trunc (S754_finite s m e))).
    { cbn [Math_trunc]. destruct (Z.leb_spec 0 e); [lia|]. fold T. cbv zeta.
      rewrite F. destruct (Z.eqb_spec T 0) as [E0|E0].
      - rewrite E0. now destruct s.
      - destruct s; cbn [cond_Zopp].
        + rewrite Trunc.fromNumber_exact_neg by (assumption || lia).
          now rewrite FT by lia.
        + now rewrite FT by lia. }
    split; [exact M|]. intros Hb. rewrite M.
    cbn [Math_trunc Num.truncZ]. destruct (Z.leb_spec 0 e); [lia|].
    fold T. cbv zeta. destruct (Z.eqb_spec T 0) as [E0|E0].
    + rewrite E0. now destruct s.
    + apply Trunc.toZ_fromNumber_exact_signed.
      * destruct s; cbn [cond_Zopp]; [apply Exact.exactZ_opp|]; assumption.
      * destruct s; cbn [cond_Zopp]; lia.
Qed.

Lemma fromNumber_truncates_witness :
  valid (Num.neg two_point_nine) = true
  /\ Num.isFinite (Num.neg two_point_nine) = true
  /\ - 2 ^ 63 < Num.truncZ (Num.neg two_point_nine) < 2 ^ 63
  /\ fromNumber (Num.neg two_point_nine)
     = fromNumber (Math_trunc (Num.neg two_point_nine))
  /\ toZ (fromNumber (Num.neg two_point_nine)) = - 2.
Proof.
  assert (B : - 2 ^ 63 < Num.truncZ (Num.neg two_point_nine) < 2 ^ 63)
    by (vm_compute; split; reflexivity).
  split; [reflexivity|]. split; [reflexivity|]. split; [exact B|].
  destruct (proj1 fromNumber_truncates (Num.neg two_point_nine)
              eq_refl eq_refl) as [E V].
  split; [exact E|exact (V B)].
Defined.


(** ** [toString] and [fromString] in radix 36 *)

(** The value 2^31, whose single six-digit group in radix 36 does not fit a
    signed 32-bit word. *)
Definition two_pwr_31 : Timestamp := fromNumber (Num.ofZ 2147483648).

Module Radix36.

Lemma toString_fuel_unfold Math_log Math_pow fuel x opt_radix :
  toString_fuel Math_log Math_pow (S fuel) x opt_radix
  = let radix := or_default opt_radix (Num.ofZ 10) in
    if Num.ltb radix (Num.ofZ 2) || Num.ltb (Num.ofZ 36) radix then
      Throw RadixError
    else if isZero x then Ret "0"%string
    else if isNegative x then
      if equals x MIN_VALUE then
        let radixTimestamp := fromNumber radix in
        dv <- div_fuel Math_log Math_pow fuel x radixTimestamp ;;
        let rem := subtract (multiply dv radixTimestamp) x in
        s <- toString_fuel Math_log Math_pow fuel dv (Some radix) ;;
        Ret (s ++ Str.int_toString (toInt rem) radix)%string
      else
        s <- toString_fuel Math_log Math_pow fuel (negate x) (Some radix) ;;
        Ret (String "-"%char s)
    else
      let radixToPower := fromNumber (Math_pow radix (Num.ofZ 6)) in
      toString_loop Math_log Math_pow fuel radix radixToPower x EmptyString.
Proof. reflexivity. Qed.

End Radix36.

(** C2 at radix 36.  On a host whose [Math.pow] is exact on small integer
    powers, the value 2^31 prints in radix 36 as ["-zik0zk"]: its only
    six-digit group, 2147483648, is read through [toInt] as the signed word
    -2147483648.  Parsing that text gives -2^31, which is not the value
    printed. *)
Theorem toString_radix36_loses_value (Math_log : number -> number)
    (Math_pow : number -> number -> number) :
  pow_exact Math_pow ->
  wf two_pwr_31 /\ toZ two_pwr_31 = 2 ^ 31
  /\ (forall fuel,
        toString_fuel Math_log Math_pow (4 + fuel) two_pwr_31 (Some (Num.ofZ 36))
        = Ret "-zik0zk"%string)
  /\ fromString Math_pow "-zik0zk" (Some (Num.ofZ 36))
     = Ret (fromInt (- 2147483648))
  /\ equals (fromInt (- 2147483648)) two_pwr_31 = false.
Proof.
  intros Hpow.
  split; [vm_compute; intuition congruence|].
  split; [reflexivity|]. split; [|split].
  - intros fuel. change (4 + fuel)%nat with (S (S (S (S fuel)))).
    rewrite Radix36.toString_fuel_unfold. cbv zeta.
    change (or_default (Some (Num.ofZ 36)) (Num.ofZ 10)) with (Num.ofZ 36).
    rewrite (Hpow 36 6) by (vm_compute; intuition congruence).
    vm_compute. reflexivity.
  - vm_compute. reflexivity.
  - reflexivity.
Qed.

Lemma toString_radix36_loses_value_witness :
  pow_exact ref_pow
  /\ (s <- toString_fuel ref_log ref_pow 4 two_pwr_31 (Some (Num.ofZ 36)) ;;
      r <- fromString ref_pow s (Some (Num.ofZ 36)) ;;
      Ret (equals r two_pwr_31)) = Ret false.
Proof.
  split; [exact RefHost.ref_pow_exact|].
  destruct (toString_radix36_loses_value ref_log ref_pow RefHost.ref_pow_exact)
    as (_ & _ & P & F & E).
  change 4%nat with (4 + 0)%nat.
  rewrite (P 0%nat). cbn [bind]. rewrite F. cbn [bind]. now rewrite E.
Defined.


(** ** When [fromString] throws *)

Definition radix_out_of_range (radix : number) : bool :=
  Num.ltb radix (Num.ofZ 2) || Num.ltb (Num.ofZ 36) radix.

Definition is_empty (s : string) : bool :=
  match s with EmptyString => true | String _ _ => false end.

Definition tail (s : string) : string :=
  match s with EmptyString => s | String _ r => r end.

(** The text left once every leading '-' has been consumed by the
    recursive calls. *)
Fixpoint strip_minus (s : string) : string :=
  match s with
  | String c r => if Str.code c =? 45 then strip_minus r else s
  | EmptyString => s
  end.

Definition throws_format {A : Type} (o : outcome A) : bool :=
  match o with Throw e => is_format_error e | _ => false end.

Definition returns {A : Type} (o : outcome A) : bool :=
  match o with Ret _ => true | _ => false end.

(** The failure condition as the claim words it: empty text, a '-' past the
    first position, or a supplied radix outside [2, 36]. *)
Definition claimed_failure (str : string) (radix : number) : bool :=
  is_empty str || Str.has_minus (tail str) || radix_out_of_range radix.

(** The failure condition of the code. *)
Definition fromString_fails (str : string) (opt_radix : option number) : bool :=
  let body := strip_minus str in
  is_empty body || Str.has_minus body
  || radix_out_of_range (or_default opt_radix (Num.ofZ 10)).

Lemma or_default_idem opt :
  radix_out_of_range (or_default opt (Num.ofZ 10)) = false ->
  or_default (Some (or_default opt (Num.ofZ 10))) (Num.ofZ 10)
  = or_default opt (Num.ofZ 10).
Proof.
  intros _. destruct opt as [r|]; [|reflexivity].
  simpl. destruct (Num.truthy r) eqn:E; [now rewrite E | reflexivity].
Qed.

Section FromStringTotal.

Variable Math_pow : number -> number -> number.

Lemma fromString_loop_returns str radix radixToPower :
  forall n i result,
    (String.length str <= i + 8 * n)%nat -> wf result ->
    exists v, fromString_loop Math_pow (S n) str radix radixToPower i result = Ret v
              /\ wf v.
Proof.
  induction n as [|n IH]; intros i result Hlen Hwf.
  - cbn [fromString_loop].
    destruct (Nat.ltb_spec i (String.length str)); [lia|]. eauto.
  - cbn [fromString_loop].
    destruct (Nat.ltb_spec i (String.length str)) as [Hlt|Hge]; [|eauto].
    cbn [fromString_loop] in IH.
    apply IH; [lia|].
    destruct (Nat.min 8 (String.length str - i) <? 8)%nat; apply add_wf.
Qed.

Lemma has_minus_head c r :
  (Str.code c =? 45) = false ->
  strip_minus (String c r) = String c r.
Proof. intros H. simpl. now rewrite H. Qed.

Lemma fromString_outcome str :
  forall opt_radix,
    match fromString Math_pow str opt_radix with
    | Throw e => is_format_error e = true /\ fromString_fails str opt_radix = true
    | Ret v => fromString_fails str opt_radix = false /\ wf v
    | OutOfFuel => False
    end.
Proof.
  induction str as [|c rest IH]; intros opt_radix.
  - simpl. split; reflexivity.
  - cbn [fromString]. unfold fromString_fails.
    fold (radix_out_of_range (or_default opt_radix (Num.ofZ 10))).
    destruct (radix_out_of_range (or_default opt_radix (Num.ofZ 10))) eqn:Hr.
    + split; [reflexivity|]. now rewrite orb_true_r.
    + rewrite orb_false_r.
      destruct (Str.code c =? 45) eqn:Hc.
      * specialize (IH (Some (or_default opt_radix (Num.ofZ 10)))).
        unfold fromString_fails in IH.
        rewrite or_default_idem, Hr, orb_false_r in IH by exact Hr.
        cbn [strip_minus]. rewrite Hc.
        destruct (fromString Math_pow rest _) as [v|e|]; cbn [bind].
        -- destruct IH as [IH1 IH2]. split; [exact IH1 | apply negate_wf].
        -- exact IH.
        -- exact IH.
      * rewrite (has_minus_head c rest Hc). cbn [is_empty]. rewrite orb_false_l.
        destruct (Str.has_minus (String c rest)) eqn:Hm.
        -- split; reflexivity.
        -- destruct (fromString_loop_returns (String c rest)
                       (or_default opt_radix (Num.ofZ 10))
                       (fromNumber (Math_pow (or_default opt_radix (Num.ofZ 10)) (Num.ofZ 8)))
                       (String.length (String c rest)) 0%nat ZERO)
             as [v [Hv Hwf]]; [lia | apply ZERO_wf |].
           rewrite Hv. split; [reflexivity | exact Hwf].
Qed.

End FromStringTotal.

(** C7, as amended.  Let [body] be the text without its leading '-'
    characters and let the effective radix be the supplied one, or 10 when
    it is absent, zero or NaN.  For every [Math.pow] of the host, [fromString]
    throws a format error exactly when [body] is empty, [body] still holds a
    '-', or the effective radix is below 2 or above 36; on every other input
    it returns a normalised value. *)
Theorem fromString_error_characterisation
    (Math_pow : number -> number -> number) (str : string)
    (opt_radix : option number) :
  match fromString Math_pow str opt_radix with
  | Throw e => is_format_error e = true /\ fromString_fails str opt_radix = true
  | Ret v => fromString_fails str opt_radix = false /\ wf v
  | OutOfFuel => False
  end.
Proof. apply fromString_outcome. Qed.

(** C7 as worded fails on the code: ["-"] is rejected although it is not
    empty, has no '-' past the first position and the radix is 10; ["--5"]
    is accepted although a '-' stands at the second position; a supplied
    radix of 0 is accepted (it selects the default 10). *)
Lemma fromString_claimed_failure_counterexample :
  (throws_format (fromString ref_pow "-" (Some (Num.ofZ 10))) = true
   /\ claimed_failure "-" (Num.ofZ 10) = false)
  /\ (fromString ref_pow "--5" (Some (Num.ofZ 10)) = Ret (fromInt 5)
      /\ claimed_failure "--5" (Num.ofZ 10) = true)
  /\ (fromString ref_pow "12" (Some (Num.ofZ 0)) = Ret (fromInt 12)
      /\ claimed_failure "12" (Num.ofZ 0) = true).
Proof. vm_compute. repeat split. Qed.


(** ** [multiply] with [MIN_VALUE] as an operand *)

(** C5. For a nonzero [x], a product with [MIN_VALUE] on either side is
    [MIN_VALUE] when [x] is odd and [ZERO] when [x] is even, whatever fuel
    the call is given. *)
Theorem multiply_MIN_VALUE (fuel : nat) (x : Timestamp) :
  isZero x = false ->
  multiply_fuel (S fuel) MIN_VALUE x
    = Some (if isOdd x then MIN_VALUE else ZERO)
  /\ multiply_fuel (S fuel) x MIN_VALUE
    = Some (if isOdd x then MIN_VALUE else ZERO)
  /\ multiply MIN_VALUE x = (if isOdd x then MIN_VALUE else ZERO)
  /\ multiply x MIN_VALUE = (if isOdd x then MIN_VALUE else ZERO).
Proof.
  intros Hx.
  assert (L : forall n, multiply_fuel (S n) MIN_VALUE x
                        = Some (if isOdd x then MIN_VALUE else ZERO)).
  { intros n. cbn [multiply_fuel]. rewrite Hx.
    change (isZero MIN_VALUE) with false. cbv iota.
    now rewrite equals_refl. }
  assert (R : forall n, multiply_fuel (S n) x MIN_VALUE
                        = Some (if isOdd x then MIN_VALUE else ZERO)).
  { intros n. cbn [multiply_fuel]. rewrite Hx.
    change (isZero MIN_VALUE) with false. cbv iota.
    rewrite equals_refl.
    destruct (equals x MIN_VALUE) eqn:E; [|reflexivity].
    apply equals_true_eq in E. subst x. reflexivity. }
  repeat split.
  - apply L.
  - apply R.
  - unfold multiply. now rewrite L.
  - unfold multiply. now rewrite R.
Qed.

Lemma multiply_MIN_VALUE_witness :
  isZero (fromInt 3) = false /\
  multiply MIN_VALUE (fromInt 3) = MIN_VALUE /\
  multiply (fromInt 6) MIN_VALUE = ZERO.
Proof.
  split; [reflexivity|]. split.
  - exact (proj1 (proj2 (proj2 (multiply_MIN_VALUE 0 (fromInt 3) eq_refl)))).
  - exact (proj2 (proj2 (proj2 (multiply_MIN_VALUE 0 (fromInt 6) eq_refl)))).
Defined.

(** ** [getNumBitsAbs] *)

(** C10. On the zero value the scanning loop of [getNumBitsAbs] finds no set
    bit, leaves [bit = 0] and the function returns 1. *)
Theorem getNumBitsAbs_ZERO (fuel : nat) :
  numBitsLoop (low_ ZERO) 31 = 0 /\ getNumBitsAbs_fuel (S fuel) ZERO = Some 1.
Proof. split; reflexivity. Qed.


(** ** Arithmetic on word pairs, as arithmetic modulo 2^64 *)

Module Wrap.

Import Int64.

Lemma wrap64_shift a : exists k, wrap64 a = a + k * 2 ^ 64.
Proof.
  exists (- ((a + 2 ^ 63) / 2 ^ 64)). unfold wrap64.
  pose proof (Z.div_mod (a + 2 ^ 63) (2 ^ 64) ltac:(lia)). lia.
Qed.

Lemma wrap64_idem a : wrap64 (wrap64 a) = wrap64 a.
Proof. apply wrap64_id, wrap64_range. Qed.

Lemma wrap64_mul_l a b : wrap64 (wrap64 a * b) = wrap64 (a * b).
Proof.
  destruct (wrap64_shift a) as [k ->].
  replace ((a + k * 2 ^ 64) * b) with (a * b + (k * b) * 2 ^ 64) by ring.
  apply wrap64_add_mul.
Qed.

Lemma wrap64_mul_r a b : wrap64 (a * wrap64 b) = wrap64 (a * b).
Proof. rewrite Z.mul_comm, wrap64_mul_l. f_equal. ring. Qed.

Lemma wrap64_sub_r a b : wrap64 (a - wrap64 b) = wrap64 (a - b).
Proof.
  destruct (wrap64_shift b) as [k ->].
  replace (a - (b + k * 2 ^ 64)) with (a - b + (- k) * 2 ^ 64) by ring.
  apply wrap64_add_mul.
Qed.

Lemma wrap64_sub_l a b : wrap64 (wrap64 a - b) = wrap64 (a - b).
Proof.
  destruct (wrap64_shift a) as [k ->].
  replace (a + k * 2 ^ 64 - b) with (a - b + k * 2 ^ 64) by ring.
  apply wrap64_add_mul.
Qed.

(** Equal denotations, equal word pairs. *)
Lemma by_value x y : wf x -> wf y -> toZ x = toZ y -> equals x y = true.
Proof.
  intros Hx Hy E. rewrite equals_spec by assumption. now apply Z.eqb_eq.
Qed.

End Wrap.

(** X1. [multiply] is multiplication modulo 2^64: on normalised operands it
    returns for every fuel of at least three rounds, and the product denotes
    the product of the operands' integers wrapped to 64 signed bits. *)
Theorem multiply_is_wraparound_product (x y : Timestamp) :
  wf x -> wf y ->
  (forall n, multiply_fuel (3 + n) x y = Some (multiply x y))
  /\ wf (multiply x y)
  /\ toZ (multiply x y) = wrap64 (toZ x * toZ y).
Proof.
  intros Hx Hy.
  destruct (Mul.multiply_spec x y Hx Hy) as (F & V & W).
  split; [exact F|]. split; [exact W|exact V].
Qed.

Lemma multiply_is_wraparound_product_witness :
  wf MAX_VALUE /\ wf (fromInt 3)
  /\ toZ (multiply MAX_VALUE (fromInt 3)) = 2 ^ 63 - 3.
Proof.
  split; [exact Int64.MAX_VALUE_wf|]. split; [apply new_Timestamp_wf|].
  exact (proj2 (proj2 (multiply_is_wraparound_product MAX_VALUE (fromInt 3)
                         Int64.MAX_VALUE_wf (new_Timestamp_wf _ _)))).
Defined.

(** X2. [negate] is negation modulo 2^64: it maps [MIN_VALUE] to itself and
    every other value to its opposite, and negating twice gives the value
    back. *)
Theorem negate_is_wraparound_opposite (x : Timestamp) :
  wf x ->
  wf (negate x)
  /\ toZ (negate x) = (if toZ x =? - 2 ^ 63 then - 2 ^ 63 else - toZ x)
  /\ negate (negate x) = x.
Proof.
  intros Hx. pose proof (Int64.toZ_range x) as R.
  assert (V : toZ (negate x)
              = if toZ x =? - 2 ^ 63 then - 2 ^ 63 else - toZ x).
  { rewrite Int64.toZ_negate by assumption.
    destruct (Z.eqb_spec (toZ x) (- 2 ^ 63)) as [E|E].
    - rewrite E. reflexivity.
    - apply Int64.wrap64_id. lia. }
  split; [apply negate_wf|]. split; [exact V|].
  apply Int64.toZ_inj; [apply negate_wf|assumption|].
  rewrite Int64.toZ_negate by apply negate_wf.
  rewrite Int64.toZ_negate by assumption.
  rewrite Mul.wrap64_opp_wrap, Z.opp_involutive.
  apply Int64.wrap64_id. assumption.
Qed.

Lemma negate_is_wraparound_opposite_witness :
  wf (fromInt 5) /\ toZ (negate (fromInt 5)) = - 5
  /\ negate (negate (fromInt 5)) = fromInt 5.
Proof.
  split; [apply new_Timestamp_wf|].
  exact (proj2 (negate_is_wraparound_opposite (fromInt 5) (new_Timestamp_wf _ _))).
Defined.

(** X3. [subtract] is subtraction modulo 2^64, and it undoes [add]:
    [x.subtract(y).add(y)] and [x.add(y).subtract(y)] are [x]. *)
Theorem subtract_is_wraparound_difference (x y : Timestamp) :
  wf x -> wf y ->
  toZ (subtract x y) = wrap64 (toZ x - toZ y)
  /\ add (subtract x y) y = x
  /\ subtract (add x y) y = x.
Proof.
  intros Hx Hy. pose proof (Int64.toZ_range x) as R.
  split; [apply Int64.toZ_subtract; assumption|]. split.
  - apply Int64.toZ_inj; [apply add_wf|assumption|].
    rewrite toZ_add, Int64.toZ_subtract, Int64.wrap64_wrap_l by assumption.
    replace (toZ x - toZ y + toZ y) with (toZ x) by ring.
    now apply Int64.wrap64_id.
  - apply Int64.toZ_inj; [apply Int64.subtract_wf|assumption|].
    rewrite Int64.toZ_subtract, toZ_add, Wrap.wrap64_sub_l by assumption.
    replace (toZ x + toZ y - toZ y) with (toZ x) by ring.
    now apply Int64.wrap64_id.
Qed.

Lemma subtract_is_wraparound_difference_witness :
  wf MIN_VALUE /\ wf ONE
  /\ toZ (subtract MIN_VALUE ONE) = 2 ^ 63 - 1
  /\ add (subtract MIN_VALUE ONE) ONE = MIN_VALUE.
Proof.
  split; [exact Int64.MIN_VALUE_wf|]. split; [exact Int64.ONE_wf|].
  destruct (subtract_is_wraparound_difference MIN_VALUE ONE
              Int64.MIN_VALUE_wf Int64.ONE_wf) as (V & A & _).
  split; [exact V|exact A].
Defined.

(** X4. [compare] and the six comparison methods order word pairs as the
    signed 64-bit integers they denote; the subtraction [compare] performs
    on operands of the same sign never overflows. *)
Theorem compare_orders_by_value (x y : Timestamp) :
  wf x -> wf y ->
  compare x y = match toZ x ?= toZ y with Lt => -1 | Eq => 0 | Gt => 1 end
  /\ equals x y = (toZ x =? toZ y)
  /\ notEquals x y = negb (toZ x =? toZ y)
  /\ lessThan x y = (toZ x <? toZ y)
  /\ lessThanOrEqual x y = (toZ x <=? toZ y)
  /\ greaterThan x y = (toZ y <? toZ x)
  /\ greaterThanOrEqual x y = (toZ y <=? toZ x).
Proof.
  intros Hx Hy.
  pose proof (Int64.compare_spec x y Hx Hy) as C.
  pose proof (Int64.equals_spec x y Hx Hy) as E.
  split; [exact C|]. split; [exact E|]. split.
  { rewrite <- E. unfold notEquals, equals. now rewrite negb_andb. }
  split; [apply Int64.lessThan_spec; assumption|]. split.
  { unfold lessThanOrEqual. rewrite C. unfold Z.leb at 2.
    destruct (toZ x ?= toZ y); reflexivity. }
  split; [apply Int64.greaterThan_spec; assumption|].
  apply Int64.greaterThanOrEqual_spec; assumption.
Qed.

Lemma compare_orders_by_value_witness :
  wf MIN_VALUE /\ wf MAX_VALUE
  /\ compare MIN_VALUE MAX_VALUE = - 1
  /\ lessThan MIN_VALUE MAX_VALUE = true.
Proof.
  split; [exact Int64.MIN_VALUE_wf|]. split; [exact Int64.MAX_VALUE_wf|].
  destruct (compare_orders_by_value MIN_VALUE MAX_VALUE
              Int64.MIN_VALUE_wf Int64.MAX_VALUE_wf) as (C & _ & _ & L & _).
  split; [exact C|exact L].
Defined.

(** X5. With [add], [negate] and [multiply] the normalised word pairs form
    a commutative ring: both operations are commutative and associative,
    [ZERO] and [ONE] are neutral, [negate] gives the additive inverse and
    [multiply] distributes over [add]. *)
Theorem add_multiply_ring_laws (x y z : Timestamp) :
  wf x -> wf y -> wf z ->
  add x y = add y x
  /\ add (add x y) z = add x (add y z)
  /\ add x ZERO = x
  /\ add x (negate x) = ZERO
  /\ multiply x y = multiply y x
  /\ multiply (multiply x y) z = multiply x (multiply y z)
  /\ multiply x ONE = x
  /\ multiply x (add y z) = add (multiply x y) (multiply x z).
Proof.
  intros Hx Hy Hz.
  pose proof (Int64.toZ_range x) as Rx.
  assert (Wxy : wf (multiply x y)) by (apply Mul.multiply_wf; assumption).
  assert (Wyz : wf (multiply y z)) by (apply Mul.multiply_wf; assumption).
  assert (Wxz : wf (multiply x z)) by (apply Mul.multiply_wf; assumption).
  assert (Wyx : wf (multiply y x)) by (apply Mul.multiply_wf; assumption).
  repeat match goal with |- _ /\ _ => split end.
  - apply Int64.toZ_inj; try apply add_wf. rewrite !toZ_add. f_equal. ring.
  - apply Int64.toZ_inj; try apply add_wf.
    rewrite !toZ_add, Int64.wrap64_wrap_l, Int64.wrap64_wrap_r. f_equal. ring.
  - apply Int64.toZ_inj; [apply add_wf|assumption|].
    rewrite toZ_add. change (toZ ZERO) with 0. rewrite Z.add_0_r.
    now apply Int64.wrap64_id.
  - apply Int64.toZ_inj; [apply add_wf|apply ZERO_wf|].
    rewrite toZ_add, Int64.toZ_negate, Int64.wrap64_wrap_r by assumption.
    rewrite Z.add_opp_diag_r. reflexivity.
  - apply Int64.toZ_inj; try assumption.
    rewrite !Mul.toZ_multiply by assumption. f_equal. ring.
  - apply Int64.toZ_inj; try (apply Mul.multiply_wf; assumption).
    rewrite !Mul.toZ_multiply by assumption.
    rewrite Wrap.wrap64_mul_l, Wrap.wrap64_mul_r. f_equal. ring.
  - apply Int64.toZ_inj;
      [apply Mul.multiply_wf; [assumption|apply Int64.ONE_wf]|assumption|].
    rewrite Mul.toZ_multiply by (assumption || apply Int64.ONE_wf).
    change (toZ ONE) with 1. rewrite Z.mul_1_r. now apply Int64.wrap64_id.
  - apply Int64.toZ_inj;
      [apply Mul.multiply_wf; [assumption|apply add_wf]|apply add_wf|].
    rewrite Mul.toZ_multiply by (assumption || apply add_wf).
    rewrite !toZ_add, !Mul.toZ_multiply by assumption.
    rewrite Wrap.wrap64_mul_r, Int64.wrap64_wrap_l, Int64.wrap64_wrap_r.
    f_equal. ring.
Qed.

Lemma add_multiply_ring_laws_witness :
  wf MAX_VALUE /\ wf MIN_VALUE /\ wf NEG_ONE
  /\ multiply MAX_VALUE (add MIN_VALUE NEG_ONE)
     = add (multiply MAX_VALUE MIN_VALUE) (multiply MAX_VALUE NEG_ONE).
Proof.
  split; [exact Int64.MAX_VALUE_wf|]. split; [exact Int64.MIN_VALUE_wf|].
  split; [exact DivSpec.NEG_ONE_wf|].
  exact (proj2 (proj2 (proj2 (proj2 (proj2 (proj2 (proj2
    (add_multiply_ring_laws MAX_VALUE MIN_VALUE NEG_ONE
       Int64.MAX_VALUE_wf Int64.MIN_VALUE_wf DivSpec.NEG_ONE_wf)))))))).
Defined.


(** ** The values of [div] and [modulo] *)

Lemma quot_in_range X Y :
  Y <> 0 -> - 2 ^ 63 <= X < 2 ^ 63 -> (X = - 2 ^ 63 -> Y <> - 1) ->
  - 2 ^ 63 <= Z.quot X Y < 2 ^ 63.
Proof.
  intros HY HX Hn.
  destruct (Z.eq_dec Y 1) as [->|H1]; [now rewrite Z.quot_1_r|].
  pose proof (Z.quot_abs X Y HY) as A.
  assert (B : Z.abs X ÷ Z.abs Y < 2 ^ 63).
  { rewrite Z.quot_div_nonneg by lia.
    apply Z.div_lt_upper_bound; [lia|].
    destruct (Z.eq_dec X (- 2 ^ 63)) as [E|E].
    - specialize (Hn E). rewrite E. change (Z.abs (- 2 ^ 63)) with (2 ^ 63).
      assert (2 <= Z.abs Y) by lia.
      change (2 ^ 63) with 9223372036854775808. nia.
    - assert (1 <= Z.abs Y) by lia.
      assert (Z.abs X < 2 ^ 63) by lia.
      change (2 ^ 63) with 9223372036854775808 in *. nia. }
  change (2 ^ 63) with 9223372036854775808 in *. lia.
Qed.

(** X6. On a host meeting [log_accurate] and [pow_exact], [div] by a nonzero
    divisor returns the quotient rounded toward zero; the one quotient that
    does not fit, [MIN_VALUE / -1], comes back as [MIN_VALUE]. *)
Theorem div_is_truncated_quotient (Math_log : number -> number)
    (Math_pow : number -> number -> number) (x y : Timestamp) :
  log_accurate Math_log -> pow_exact Math_pow ->
  wf x -> wf y -> isZero y = false ->
  exists fuel0 q,
    (forall fuel, (fuel0 <= fuel)%nat ->
       div_fuel Math_log Math_pow fuel x y = Ret q)
    /\ wf q
    /\ toZ q = if (toZ x =? - 2 ^ 63) && (toZ y =? - 1) then - 2 ^ 63
               else Z.quot (toZ x) (toZ y).
Proof.
  intros Hlog Hpow Hx Hy Hz.
  rewrite Int64.isZero_spec in Hz by assumption. apply Z.eqb_neq in Hz.
  destruct (DivSpec.div_spec Math_log Math_pow Hlog Hpow x y Hx Hy Hz)
    as (f0 & q & Hq & Wq & Tq).
  exists f0, q. split; [exact Hq|]. split; [exact Wq|]. rewrite Tq.
  pose proof (Int64.toZ_range x) as Rx.
  destruct (Z.eqb_spec (toZ x) (- 2 ^ 63)) as [EX|NX];
    destruct (Z.eqb_spec (toZ y) (- 1)) as [EY|NY]; cbn [andb];
    try (apply Int64.wrap64_id; apply quot_in_range; (assumption || lia)).
  rewrite EX, EY. reflexivity.
Qed.

Lemma div_is_truncated_quotient_witness :
  log_accurate ref_log /\ pow_exact ref_pow
  /\ wf (fromInt (- 7)) /\ wf (fromInt 2) /\ isZero (fromInt 2) = false
  /\ exists fuel0 q,
       (forall fuel, (fuel0 <= fuel)%nat ->
          div_fuel ref_log ref_pow fuel (fromInt (- 7)) (fromInt 2) = Ret q)
       /\ wf q /\ toZ q = - 3.
Proof.
  split; [exact RefHost.ref_log_accurate|].
  split; [exact RefHost.ref_pow_exact|].
  split; [apply new_Timestamp_wf|]. split; [apply new_Timestamp_wf|].
  split; [reflexivity|].
  exact (div_is_truncated_quotient ref_log ref_pow (fromInt (- 7)) (fromInt 2)
           RefHost.ref_log_accurate RefHost.ref_pow_exact
           (new_Timestamp_wf _ _) (new_Timestamp_wf _ _) eq_refl).
Defined.

(** X7. On such a host [modulo] by a nonzero divisor returns the remainder
    of the division rounded toward zero: it has the sign of the dividend
    and is smaller in magnitude than the divisor, for every operand,
    [MIN_VALUE] included. *)
Theorem modulo_is_truncated_remainder (Math_log : number -> number)
    (Math_pow : number -> number -> number) (x y : Timestamp) :
  log_accurate Math_log -> pow_exact Math_pow ->
  wf x -> wf y -> isZero y = false ->
  exists fuel0 r,
    (forall fuel, (fuel0 <= fuel)%nat ->
       modulo_fuel Math_log Math_pow fuel x y = Ret r)
    /\ wf r
    /\ toZ r = Z.rem (toZ x) (toZ y)
    /\ Z.abs (toZ r) < Z.abs (toZ y)
    /\ 0 <= toZ r * toZ x.
Proof.
  intros Hlog Hpow Hx Hy Hz.
  rewrite Int64.isZero_spec in Hz by assumption. apply Z.eqb_neq in Hz.
  destruct (DivSpec.div_spec Math_log Math_pow Hlog Hpow x y Hx Hy Hz)
    as (f0 & q & Hq & Wq & Tq).
  pose proof (Int64.toZ_range y) as Ry.
  pose proof (Z.rem_bound_abs (toZ x) (toZ y) Hz) as B.
  assert (V : toZ (subtract x (multiply q y)) = Z.rem (toZ x) (toZ y)).
  { rewrite Int64.toZ_subtract by (apply Mul.multiply_wf; assumption).
    rewrite Mul.toZ_multiply by assumption.
    rewrite Wrap.wrap64_sub_r, Tq.
    replace (toZ x - wrap64 (toZ x ÷ toZ y) * toZ y)
      with (toZ x + - (wrap64 (toZ x ÷ toZ y) * toZ y)) by ring.
    rewrite <- Int64.wrap64_wrap_r, <- Mul.wrap64_opp_wrap.
    rewrite Wrap.wrap64_mul_l, Mul.wrap64_opp_wrap, Int64.wrap64_wrap_r.
    pose proof (Z.quot_rem' (toZ x) (toZ y)) as Q.
    replace (toZ x + - (toZ x ÷ toZ y * toZ y)) with (Z.rem (toZ x) (toZ y)) by lia.
    apply Int64.wrap64_id. lia. }
  exists f0, (subtract x (multiply q y)).
  split; [|split; [apply Int64.subtract_wf|]].
  - intros fuel Hf. unfold modulo_fuel. rewrite Hq by assumption. reflexivity.
  - split; [exact V|]. rewrite V. split; [exact B|].
    apply Z.rem_sign_mul. assumption.
Qed.

Lemma modulo_is_truncated_remainder_witness :
  log_accurate ref_log /\ pow_exact ref_pow
  /\ wf (fromInt (- 7)) /\ wf (fromInt 2) /\ isZero (fromInt 2) = false
  /\ exists fuel0 r,
       (forall fuel, (fuel0 <= fuel)%nat ->
          modulo_fuel ref_log ref_pow fuel (fromInt (- 7)) (fromInt 2) = Ret r)
       /\ wf r /\ toZ r = - 1.
Proof.
  split; [exact RefHost.ref_log_accurate|].
  split; [exact RefHost.ref_pow_exact|].
  split; [apply new_Timestamp_wf|]. split; [apply new_Timestamp_wf|].
  split; [reflexivity|].
  destruct (modulo_is_truncated_remainder ref_log ref_pow (fromInt (- 7)) (fromInt 2)
              RefHost.ref_log_accurate RefHost.ref_pow_exact
              (new_Timestamp_wf _ _) (new_Timestamp_wf _ _) eq_refl)
    as (f0 & r & H & W & V & _).
  exists f0, r. split; [exact H|]. split; [exact W|exact V].
Defined.


(** ** Conversions: [toNumber], [toInt], [fromInt] and its cache *)

(** [INT_CACHE_]: the object that [fromInt] fills, keyed by the argument. *)
Definition INT_CACHE : Type := Z -> option Timestamp.

Definition INT_CACHE_empty : INT_CACHE := fun _ => None.

Definition INT_CACHE_set (cache : INT_CACHE) (key : Z) (obj : Timestamp)
    : INT_CACHE :=
  fun k => if k =? key then Some obj else cache k.

(** [fromInt] with the cache it reads and writes passed explicitly: the
    value returned and the cache after the call. *)
Definition fromInt_cached (cache : INT_CACHE) (value : Z)
    : Timestamp * INT_CACHE :=
  let small := (-128 <=? value) && (value <? 128) in
  match (if small then cache value else None) with
  | Some cachedObj => (cachedObj, cache)
  | None =>
      let obj := new_Timestamp (JS.or value 0) (if value <? 0 then -1 else 0) in
      (obj, if small then INT_CACHE_set cache value obj else cache)
  end.

(** Every entry of the cache is what [fromInt] builds from its key, and
    only keys in [-128, 128) have entries. *)
Definition cache_sound (cache : INT_CACHE) : Prop :=
  forall k t, cache k = Some t -> t = fromInt k /\ - 128 <= k < 128.

(** X8. [toNumber] returns the double nearest to the integer denoted
    (ties to even), and [fromNumber] brings every value of magnitude up to
    2^53 back from it. *)
Theorem toNumber_is_nearest_double (x : Timestamp) :
  wf x ->
  toNumber x = Num.ofZ (toZ x)
  /\ (Z.abs (toZ x) <= 2 ^ 53 -> fromNumber (toNumber x) = x).
Proof.
  intros Hx. pose proof (Conv.toNumber_spec x Hx) as E.
  split; [exact E|]. intros Hb. rewrite E.
  apply Int64.toZ_inj; [apply Conv.fromNumber_wf|assumption|].
  apply Trunc.toZ_fromNumber_exact_signed.
  - apply Conv.exactZ_bounded. assumption.
  - assert (2 ^ 53 < 2 ^ 63) by reflexivity. lia.
Qed.

Lemma toNumber_is_nearest_double_witness :
  wf (fromInt (- 3)) /\ Z.abs (toZ (fromInt (- 3))) <= 2 ^ 53
  /\ toNumber (fromInt (- 3)) = Num.ofZ (- 3)
  /\ fromNumber (toNumber (fromInt (- 3))) = fromInt (- 3).
Proof.
  assert (B : Z.abs (toZ (fromInt (- 3))) <= 2 ^ 53)
    by (vm_compute; discriminate).
  split; [apply new_Timestamp_wf|]. split; [exact B|].
  destruct (toNumber_is_nearest_double (fromInt (- 3)) (new_Timestamp_wf _ _))
    as [E R].
  split; [exact E|exact (R B)].
Defined.

(** X9. [fromInt] represents every signed 32-bit integer exactly, [toInt]
    gives it back, and on any normalised value [toInt] is the value wrapped
    to 32 signed bits. *)
Theorem fromInt_toInt_roundtrip (v : Z) (x : Timestamp) :
  - 2 ^ 31 <= v < 2 ^ 31 -> wf x ->
  wf (fromInt v) /\ toZ (fromInt v) = v /\ toInt (fromInt v) = v
  /\ toInt x = JS.toInt32 (toZ x)
  /\ (- 2 ^ 31 <= toZ x < 2 ^ 31 -> fromInt (toInt x) = x).
Proof.
  intros Hv Hx.
  assert (T : toInt x = JS.toInt32 (toZ x)).
  { rewrite Int64.toZ_wf by assumption. destruct Hx as [Hl Hh].
    unfold toInt, JS.toInt32. Int64.pow2.
    Z.div_mod_to_equations. lia. }
  split; [apply new_Timestamp_wf|].
  split; [apply Int64.toZ_fromInt; assumption|].
  split.
  { unfold toInt, fromInt, new_Timestamp. cbn [low_].
    rewrite !JSFacts.or_0, JSFacts.toInt32_idem.
    apply JSFacts.toInt32_id. assumption. }
  split; [exact T|]. intros Hb.
  apply Int64.toZ_inj; [apply new_Timestamp_wf|assumption|].
  rewrite T, JSFacts.toInt32_id by assumption.
  apply Int64.toZ_fromInt. assumption.
Qed.

Lemma fromInt_toInt_roundtrip_witness :
  - 2 ^ 31 <= - 2 ^ 31 < 2 ^ 31 /\ wf MAX_VALUE
  /\ toZ (fromInt (- 2 ^ 31)) = - 2 ^ 31 /\ toInt MAX_VALUE = - 1.
Proof.
  assert (B : - 2 ^ 31 <= - 2 ^ 31 < 2 ^ 31)
    by (split; [vm_compute; discriminate|reflexivity]).
  split; [exact B|]. split; [exact Int64.MAX_VALUE_wf|].
  destruct (fromInt_toInt_roundtrip (- 2 ^ 31) MAX_VALUE B Int64.MAX_VALUE_wf)
    as (_ & V & _ & T & _).
  split; [exact V|exact T].
Defined.

(** X10. The cache of [fromInt] never changes what [fromInt] returns: from
    a cache holding only values that [fromInt] stored, a call returns the
    value built from its argument and leaves such a cache; after a call on
    an argument in [-128, 128) that argument is cached, and an argument
    outside that range is never stored. *)
Theorem fromInt_cache_is_transparent (cache : INT_CACHE) (value : Z) :
  cache_sound cache ->
  let '(obj, cache') := fromInt_cached cache value in
  obj = fromInt value
  /\ cache_sound cache'
  /\ (- 128 <= value < 128 -> cache' value = Some (fromInt value))
  /\ (~ (- 128 <= value < 128) -> forall k, cache' k = cache k).
Proof.
  intros Hc. unfold fromInt_cached.
  destruct (Z.leb_spec (- 128) value) as [Hl|Hl];
    destruct (Z.ltb_spec value 128) as [Hu|Hu]; cbn [andb];
    try (split; [reflexivity|]; split; [exact Hc|]; split; [lia|reflexivity]).
  destruct (cache value) as [t|] eqn:E.
  - destruct (Hc value t E) as [-> _].
    split; [reflexivity|]. split; [exact Hc|]. split; [intros _; exact E|lia].
  - split; [reflexivity|]. split; [|split].
    + intros k t. unfold INT_CACHE_set.
      destruct (Z.eqb_spec k value) as [->|N].
      * intros H. injection H as <-. split; [reflexivity|lia].
      * apply Hc.
    + intros _. unfold INT_CACHE_set. now rewrite Z.eqb_refl.
    + lia.
Qed.

Lemma fromInt_cache_is_transparent_witness :
  cache_sound INT_CACHE_empty
  /\ fst (fromInt_cached INT_CACHE_empty 5) = fromInt 5
  /\ snd (fromInt_cached INT_CACHE_empty 5) 5 = Some (fromInt 5).
Proof.
  assert (S : cache_sound INT_CACHE_empty) by (intros k t H; discriminate H).
  split; [exact S|].
  pose proof (fromInt_cache_is_transparent INT_CACHE_empty 5 S) as H.
  destruct (fromInt_cached INT_CACHE_empty 5) as [obj cache'].
  destruct H as (E & _ & C & _).
  split; [exact E|]. apply C. split; [vm_compute; discriminate|reflexivity].
Defined.


(** ** Bits of words and of word pairs *)

Module Bits.

Import Int64.

Lemma toInt32_mod z : JS.toInt32 z mod 2 ^ 32 = z mod 2 ^ 32.
Proof. unfold JS.toInt32. pow2. Z.div_mod_to_equations. lia. Qed.

(** Below bit 32, [x | 0] keeps the bits. *)
Lemma toInt32_testbit_low z i :
  0 <= i < 32 -> Z.testbit (JS.toInt32 z) i = Z.testbit z i.
Proof.
  intros Hi.
  rewrite <- (Z.mod_pow2_bits_low (JS.toInt32 z) 32 i) by lia.
  rewrite toInt32_mod. apply Z.mod_pow2_bits_low. lia.
Qed.

(** From bit 31 on, a signed 32-bit integer repeats its sign. *)
Lemma int32_testbit_sign w i :
  - 2 ^ 31 <= w < 2 ^ 31 -> 31 <= i -> Z.testbit w i = (w <? 0).
Proof.
  intros Hw Hi. destruct (Z.ltb_spec w 0) as [N|P].
  - apply Z.bits_above_log2_neg; [assumption|].
    destruct (Z.eq_dec (Z.pred (- w)) 0) as [E|E].
    + rewrite E. simpl. lia.
    + apply Z.lt_le_trans with 31; [|assumption].
      apply Z.log2_lt_pow2; lia.
  - destruct (Z.eq_dec w 0) as [->|E]; [apply Z.bits_0|].
    apply Z.bits_above_log2; [assumption|].
    apply Z.lt_le_trans with 31; [|assumption].
    apply Z.log2_lt_pow2; lia.
Qed.

Lemma toInt32_testbit z i :
  0 <= i -> Z.testbit (JS.toInt32 z) i = Z.testbit z (Z.min i 31).
Proof.
  intros Hi. destruct (Z.lt_ge_cases i 31).
  - rewrite Z.min_l by lia. apply toInt32_testbit_low. lia.
  - rewrite Z.min_r by lia.
    rewrite (int32_testbit_sign _ i (JSFacts.toInt32_range z)) by assumption.
    rewrite <- (int32_testbit_sign _ 31 (JSFacts.toInt32_range z)) by lia.
    apply toInt32_testbit_low. lia.
Qed.

Lemma toUint32_testbit z i :
  0 <= i ->
  Z.testbit (JS.toUint32 z) i = if i <? 32 then Z.testbit z i else false.
Proof.
  intros Hi. unfold JS.toUint32. destruct (Z.ltb_spec i 32).
  - apply Z.mod_pow2_bits_low. lia.
  - apply Z.mod_pow2_bits_high. lia.
Qed.

(** The bits of the integer a word pair denotes: the low word below bit
    32, the high word above, its sign from bit 63 on. *)
Lemma toZ_testbit x i :
  0 <= i ->
  Z.testbit (toZ x) i
  = if i <? 32 then Z.testbit (low_ x) i
    else Z.testbit (high_ x) (Z.min (i - 32) 31).
Proof.
  intros Hi. unfold toZ.
  pose proof (Z.mod_pos_bound (low_ x) (2 ^ 32) ltac:(lia)) as B.
  fold (JS.toUint32 (low_ x)) in B.
  destruct (Z.ltb_spec i 32) as [L|G].
  - rewrite <- (Z.mod_pow2_bits_low _ 32 i) by lia.
    rewrite Z.add_comm, Z.mod_add by lia.
    rewrite Z.mod_small by assumption.
    rewrite toUint32_testbit by lia.
    destruct (Z.ltb_spec i 32); [reflexivity|lia].
  - replace i with ((i - 32) + 32) at 1 by lia.
    rewrite <- Z.div_pow2_bits by lia.
    rewrite Z.div_add_l by lia. rewrite Z.div_small by assumption.
    rewrite Z.add_0_r. apply toInt32_testbit. lia.
Qed.

Lemma wrap64_mod z : wrap64 z mod 2 ^ 64 = z mod 2 ^ 64.
Proof. unfold wrap64. pow2. Z.div_mod_to_equations. lia. Qed.

Lemma wrap64_testbit z i :
  0 <= i < 64 -> Z.testbit (wrap64 z) i = Z.testbit z i.
Proof.
  intros Hi.
  rewrite <- (Z.mod_pow2_bits_low (wrap64 z) 64 i) by lia.
  rewrite wrap64_mod. apply Z.mod_pow2_bits_low. lia.
Qed.

(** Two signed 64-bit integers with the same 64 low bits are equal. *)
Lemma eq_of_bits64 a b :
  - 2 ^ 63 <= a < 2 ^ 63 -> - 2 ^ 63 <= b < 2 ^ 63 ->
  (forall i, 0 <= i < 64 -> Z.testbit a i = Z.testbit b i) -> a = b.
Proof.
  intros Ha Hb H.
  assert (E : a mod 2 ^ 64 = b mod 2 ^ 64).
  { apply Z.bits_inj'. intros i Hi. destruct (Z.lt_ge_cases i 64).
    - rewrite !Z.mod_pow2_bits_low by lia. apply H. lia.
    - rewrite !Z.mod_pow2_bits_high by lia. reflexivity. }
  pow2. Z.div_mod_to_equations. lia.
Qed.

Lemma land_31 m : 0 <= m < 32 -> Z.land m 31 = m.
Proof.
  intros H. change 31 with (Z.ones 5). rewrite Z.land_ones by lia.
  apply Z.mod_small. change (2 ^ 5) with 32. lia.
Qed.

(** [numBits & 63] keeps the shift count modulo 64. *)
Lemma and_63 n : JS.and n 63 = n mod 64.
Proof.
  unfold JS.and. change (JS.toInt32 63) with (Z.ones 6).
  rewrite Z.land_ones by lia. change (2 ^ 6) with 64.
  assert (E : JS.toInt32 n mod 64 = n mod 64).
  { unfold JS.toInt32. pow2. Z.div_mod_to_equations. lia. }
  rewrite E. apply JSFacts.toInt32_id.
  pose proof (Z.mod_pos_bound n 64 ltac:(lia)). pow2. lia.
Qed.

(** Bits of the 32-bit operators, below bit 32. *)
Lemma and_testbit a b i :
  0 <= i < 32 -> Z.testbit (JS.and a b) i = Z.testbit a i && Z.testbit b i.
Proof.
  intros Hi. unfold JS.and.
  now rewrite toInt32_testbit_low, Z.land_spec, !toInt32_testbit_low by lia.
Qed.

Lemma or_testbit a b i :
  0 <= i < 32 -> Z.testbit (JS.or a b) i = Z.testbit a i || Z.testbit b i.
Proof.
  intros Hi. unfold JS.or.
  now rewrite toInt32_testbit_low, Z.lor_spec, !toInt32_testbit_low by lia.
Qed.

Lemma xor_testbit a b i :
  0 <= i < 32 -> Z.testbit (JS.xor a b) i = xorb (Z.testbit a i) (Z.testbit b i).
Proof.
  intros Hi. unfold JS.xor.
  now rewrite toInt32_testbit_low, Z.lxor_spec, !toInt32_testbit_low by lia.
Qed.

Lemma not_testbit a i :
  0 <= i < 32 -> Z.testbit (JS.not a) i = negb (Z.testbit a i).
Proof.
  intros Hi. unfold JS.not.
  now rewrite toInt32_testbit_low, Z.lnot_spec, toInt32_testbit_low by lia.
Qed.

Lemma shl_testbit a k i :
  0 <= k < 32 -> 0 <= i < 32 ->
  Z.testbit (JS.shl a k) i = if i <? k then false else Z.testbit a (i - k).
Proof.
  intros Hk Hi. unfold JS.shl. rewrite land_31 by assumption.
  rewrite toInt32_testbit_low, Z.shiftl_spec by lia.
  destruct (Z.ltb_spec i k).
  - apply Z.testbit_neg_r. lia.
  - apply toInt32_testbit_low. lia.
Qed.

Lemma ushr_testbit a k i :
  0 <= k < 32 -> 0 <= i ->
  Z.testbit (JS.ushr a k) i
  = if i + k <? 32 then Z.testbit a (i + k) else false.
Proof.
  intros Hk Hi. unfold JS.ushr. rewrite land_31 by assumption.
  rewrite Z.shiftr_spec by lia. apply toUint32_testbit. lia.
Qed.

Lemma shr_testbit a k i :
  0 <= k < 32 -> 0 <= i ->
  Z.testbit (JS.shr a k) i = Z.testbit a (Z.min (i + k) 31).
Proof.
  intros Hk Hi. unfold JS.shr. rewrite land_31 by assumption.
  rewrite Z.shiftr_spec by lia. apply toInt32_testbit. lia.
Qed.

(** Bits of a freshly built word pair. *)
Lemma fromBits_testbit l h i :
  0 <= i ->
  Z.testbit (toZ (fromBits l h)) i
  = if i <? 32 then Z.testbit l i else Z.testbit h (Z.min (i - 32) 31).
Proof.
  intros Hi. rewrite toZ_testbit by assumption.
  unfold fromBits, new_Timestamp. cbn [low_ high_].
  rewrite !JSFacts.or_0.
  destruct (Z.ltb_spec i 32).
  - apply toInt32_testbit_low. lia.
  - rewrite toInt32_testbit by lia. f_equal. lia.
Qed.

End Bits.


(** ** Bitwise operations and shifts on the denoted integer *)

Module BitOps.

Import Int64 Bits.

(** Decide every comparison of bit indices in the goal, then compare the
    indices that are left. *)
Ltac bit_cases :=
  repeat match goal with
         | |- context [?a <? ?b] => destruct (Z.ltb_spec a b)
         end;
  try lia; try reflexivity;
  try (rewrite ?Z.testbit_neg_r by lia; reflexivity);
  try (f_equal; lia).

Lemma shift_count n : 0 <= n mod 64 < 64.
Proof. apply Z.mod_pos_bound. lia. Qed.

Lemma mul_pow2_testbit X k i :
  0 <= k -> 0 <= i ->
  Z.testbit (X * 2 ^ k) i = if i <? k then false else Z.testbit X (i - k).
Proof.
  intros Hk Hi. rewrite <- Z.shiftl_mul_pow2, Z.shiftl_spec by lia.
  destruct (Z.ltb_spec i k); [apply Z.testbit_neg_r; lia|reflexivity].
Qed.

Lemma div_pow2_testbit X k i :
  0 <= k -> 0 <= i -> Z.testbit (X / 2 ^ k) i = Z.testbit X (i + k).
Proof. intros Hk Hi. apply Z.div_pow2_bits; lia. Qed.

Lemma mod64_testbit X i :
  0 <= i ->
  Z.testbit (X mod 2 ^ 64) i = if i <? 64 then Z.testbit X i else false.
Proof.
  intros Hi. destruct (Z.ltb_spec i 64).
  - apply Z.mod_pow2_bits_low. lia.
  - apply Z.mod_pow2_bits_high. lia.
Qed.

End BitOps.

(** X11. [and], [or], [xor] and [not] act bit by bit on the 64-bit two's
    complement form: the result denotes the bitwise operation of the
    integers the operands denote. *)
Theorem bitwise_operations_by_value (x y : Timestamp) :
  toZ (and x y) = Z.land (toZ x) (toZ y)
  /\ toZ (or x y) = Z.lor (toZ x) (toZ y)
  /\ toZ (xor x y) = Z.lxor (toZ x) (toZ y)
  /\ toZ (not x) = Z.lnot (toZ x).
Proof.
  split; [|split; [|split]]; apply Z.bits_inj'; intros i Hi.
  - unfold and. rewrite Z.land_spec, Bits.fromBits_testbit by assumption.
    rewrite !Bits.toZ_testbit by assumption.
    destruct (Z.ltb_spec i 32); apply Bits.and_testbit; lia.
  - unfold or. rewrite Z.lor_spec, Bits.fromBits_testbit by assumption.
    rewrite !Bits.toZ_testbit by assumption.
    destruct (Z.ltb_spec i 32); apply Bits.or_testbit; lia.
  - unfold xor. rewrite Z.lxor_spec, Bits.fromBits_testbit by assumption.
    rewrite !Bits.toZ_testbit by assumption.
    destruct (Z.ltb_spec i 32); apply Bits.xor_testbit; lia.
  - unfold not. rewrite Z.lnot_spec, Bits.fromBits_testbit by assumption.
    rewrite !Bits.toZ_testbit by assumption.
    destruct (Z.ltb_spec i 32); apply Bits.not_testbit; lia.
Qed.

(** X12. [shiftLeft] multiplies by 2^k modulo 2^64, where k is the shift
    count taken modulo 64. *)
Theorem shiftLeft_by_value (x : Timestamp) (numBits : Z) :
  toZ (shiftLeft x numBits) = wrap64 (toZ x * 2 ^ (numBits mod 64)).
Proof.
  pose proof (BitOps.shift_count numBits) as Hk.
  unfold shiftLeft. rewrite Bits.and_63. cbv zeta.
  set (k := numBits mod 64) in *.
  destruct (Z.eqb_spec k 0) as [E|E].
  { rewrite E, Z.mul_1_r. symmetry. apply Int64.wrap64_id, Int64.toZ_range. }
  apply Bits.eq_of_bits64;
    [apply Int64.toZ_range|apply Int64.wrap64_range|].
  intros i Hi. rewrite Bits.wrap64_testbit by assumption.
  rewrite BitOps.mul_pow2_testbit by lia.
  destruct (Z.ltb_spec k 32) as [L|G].
  - rewrite Bits.fromBits_testbit by lia.
    destruct (Z.ltb_spec i 32) as [Li|Gi].
    + rewrite Bits.shl_testbit by lia.
      destruct (Z.ltb_spec i k); [reflexivity|].
      rewrite Bits.toZ_testbit by lia. BitOps.bit_cases.
    + replace (Z.min (i - 32) 31) with (i - 32) by lia.
      rewrite Bits.or_testbit, Bits.shl_testbit, Bits.ushr_testbit by lia.
      destruct (Z.ltb_spec i k); [lia|].
      rewrite Bits.toZ_testbit by lia.
      destruct (Z.ltb_spec (i - 32) k).
      * cbn [orb]. BitOps.bit_cases.
      * rewrite orb_comm. BitOps.bit_cases.
        cbn [orb]. f_equal. lia.
  - rewrite Bits.fromBits_testbit by lia.
    destruct (Z.ltb_spec i 32) as [Li|Gi].
    + rewrite Z.bits_0. BitOps.bit_cases.
    + replace (Z.min (i - 32) 31) with (i - 32) by lia.
      rewrite Bits.shl_testbit by lia.
      destruct (Z.ltb_spec i k); destruct (Z.ltb_spec (i - 32) (k - 32));
        try lia; try reflexivity.
      rewrite Bits.toZ_testbit by lia. BitOps.bit_cases.
Qed.

(** X13. [shiftRight] is the arithmetic shift: it divides by 2^k rounding
    toward minus infinity, where k is the shift count modulo 64. *)
Theorem shiftRight_by_value (x : Timestamp) (numBits : Z) :
  wf x ->
  toZ (shiftRight x numBits) = toZ x / 2 ^ (numBits mod 64).
Proof.
  intros [_ Hh].
  pose proof (BitOps.shift_count numBits) as Hk.
  unfold shiftRight. rewrite Bits.and_63. cbv zeta.
  set (k := numBits mod 64) in *.
  destruct (Z.eqb_spec k 0) as [E|E].
  { rewrite E. now rewrite Z.div_1_r. }
  apply Z.bits_inj'. intros i Hi.
  rewrite BitOps.div_pow2_testbit, (Bits.toZ_testbit x) by lia.
  destruct (Z.ltb_spec k 32) as [L|G].
  - rewrite Bits.fromBits_testbit by lia.
    destruct (Z.ltb_spec i 32) as [Li|Gi].
    + rewrite Bits.or_testbit, Bits.ushr_testbit, Bits.shl_testbit by lia.
      destruct (Z.ltb_spec (i + k) 32); destruct (Z.ltb_spec i (32 - k));
        try lia; cbn [orb]; [now rewrite orb_false_r|].
      f_equal. lia.
    + rewrite Bits.shr_testbit by lia.
      destruct (Z.ltb_spec (i + k) 32); [lia|]. f_equal. lia.
  - rewrite Bits.fromBits_testbit by lia.
    destruct (Z.ltb_spec (i + k) 32); [lia|].
    destruct (Z.ltb_spec i 32) as [Li|Gi].
    + rewrite Bits.shr_testbit by lia. f_equal. lia.
    + replace (Z.min (i + k - 32) 31) with 31 by lia.
      rewrite (Bits.int32_testbit_sign (high_ x) 31 Hh) by lia.
      destruct (Z.leb_spec 0 (high_ x)); destruct (Z.ltb_spec (high_ x) 0);
        try lia.
      * apply Z.bits_0.
      * apply Z.bits_m1. lia.
Qed.

Lemma shiftRight_by_value_witness :
  wf (fromInt (- 7)) /\ toZ (shiftRight (fromInt (- 7)) 1) = - 4.
Proof.
  split; [apply new_Timestamp_wf|].
  exact (shiftRight_by_value (fromInt (- 7)) 1 (new_Timestamp_wf _ _)).
Defined.

(** X14. [shiftRightUnsigned] is the logical shift: it reads the 64 bits as
    an unsigned integer and divides by 2^k, where k is the shift count
    modulo 64. *)
Theorem shiftRightUnsigned_by_value (x : Timestamp) (numBits : Z) :
  toZ (shiftRightUnsigned x numBits)
  = wrap64 ((toZ x mod 2 ^ 64) / 2 ^ (numBits mod 64)).
Proof.
  pose proof (BitOps.shift_count numBits) as Hk.
  unfold shiftRightUnsigned. rewrite Bits.and_63. cbv zeta.
  set (k := numBits mod 64) in *.
  apply Bits.eq_of_bits64;
    [apply Int64.toZ_range|apply Int64.wrap64_range|].
  intros i Hi. rewrite Bits.wrap64_testbit by assumption.
  rewrite BitOps.div_pow2_testbit, BitOps.mod64_testbit by lia.
  destruct (Z.eqb_spec k 0) as [E|E].
  { rewrite E, Z.add_0_r. destruct (Z.ltb_spec i 64); [reflexivity|lia]. }
  destruct (Z.ltb_spec k 32) as [L|G].
  - rewrite Bits.fromBits_testbit by lia.
    destruct (Z.ltb_spec (i + k) 64) as [L64|G64].
    + rewrite (Bits.toZ_testbit x) by lia.
      destruct (Z.ltb_spec i 32) as [Li|Gi].
      * rewrite Bits.or_testbit, Bits.ushr_testbit, Bits.shl_testbit by lia.
        destruct (Z.ltb_spec (i + k) 32); destruct (Z.ltb_spec i (32 - k));
          try lia; cbn [orb]; [now rewrite orb_false_r|].
        f_equal. lia.
      * rewrite Bits.ushr_testbit by lia.
        destruct (Z.ltb_spec (i + k) 32); [lia|].
        destruct (Z.ltb_spec (Z.min (i - 32) 31 + k) 32); [|lia].
        f_equal. lia.
    + destruct (Z.ltb_spec i 32) as [Li|Gi]; [lia|].
      rewrite Bits.ushr_testbit by lia.
      destruct (Z.ltb_spec (Z.min (i - 32) 31 + k) 32); [lia|reflexivity].
  - destruct (Z.eqb_spec k 32) as [E32|N32].
    + rewrite Bits.fromBits_testbit by lia. rewrite E32.
      destruct (Z.ltb_spec i 32) as [Li|Gi].
      * destruct (Z.ltb_spec (i + 32) 64); [|lia].
        rewrite (Bits.toZ_testbit x) by lia.
        destruct (Z.ltb_spec (i + 32) 32); [lia|]. f_equal. lia.
      * destruct (Z.ltb_spec (i + 32) 64); [lia|]. apply Z.bits_0.
    + rewrite Bits.fromBits_testbit by lia.
      destruct (Z.ltb_spec i 32) as [Li|Gi].
      * rewrite Bits.ushr_testbit by lia.
        destruct (Z.ltb_spec (i + (k - 32)) 32);
          destruct (Z.ltb_spec (i + k) 64); try lia; try reflexivity.
        rewrite (Bits.toZ_testbit x) by lia.
        destruct (Z.ltb_spec (i + k) 32); [lia|]. f_equal. lia.
      * destruct (Z.ltb_spec (i + k) 64); [lia|]. apply Z.bits_0.
Qed.


(** ** [getNumBitsAbs] counts the bits of the magnitude *)

Module NumBits.

Import Int64 Bits.

Lemma testbit_one j : 0 <= j -> Z.testbit 1 j = (j =? 0).
Proof.
  intros Hj. destruct (Z.eqb_spec j 0) as [->|N]; [reflexivity|].
  apply Z.bits_above_log2; simpl; lia.
Qed.

(** The test of the scanning loop reads bit [b] of [val]. *)
Lemma and_shl1_testbit val b :
  0 <= b < 32 ->
  (JS.and val (JS.shl 1 b) =? 0) = negb (Z.testbit val b).
Proof.
  intros Hb.
  assert (B : forall i, 0 <= i < 32 ->
            Z.testbit (JS.and val (JS.shl 1 b)) i
            = Z.testbit val i && (i =? b)).
  { intros i Hi. rewrite and_testbit, shl_testbit by lia.
    destruct (Z.ltb_spec i b); destruct (Z.eqb_spec i b); try lia;
      try reflexivity.
    - subst i. rewrite Z.sub_diag. reflexivity.
    - rewrite testbit_one by lia.
      destruct (Z.eqb_spec (i - b) 0); [lia|reflexivity]. }
  destruct (Z.testbit val b) eqn:T; cbn [negb].
  - apply Z.eqb_neq. intros E.
    specialize (B b Hb). rewrite E, Z.bits_0, T, Z.eqb_refl in B.
    discriminate.
  - apply Z.eqb_eq.
    pose proof (JSFacts.toInt32_range
                  (Z.land (JS.toInt32 val) (JS.toInt32 (JS.shl 1 b)))) as R.
    fold (JS.and val (JS.shl 1 b)) in R.
    assert (M : JS.and val (JS.shl 1 b) mod 2 ^ 32 = 0).
    { apply Z.bits_inj'. intros i Hi. rewrite Z.bits_0.
      destruct (Z.lt_ge_cases i 32).
      - rewrite Z.mod_pow2_bits_low, B by lia.
        destruct (Z.eqb_spec i b) as [->|]; [now rewrite T|apply andb_false_r].
      - apply Z.mod_pow2_bits_high. lia. }
    pow2. Z.div_mod_to_equations. lia.
Qed.

(** The loop returns the highest set bit among bits [n] down to 1, or 0. *)
Lemma numBitsLoop_spec val n :
  (n <= 31)%nat ->
  0 <= numBitsLoop val n <= Z.of_nat n
  /\ (0 < numBitsLoop val n -> Z.testbit val (numBitsLoop val n) = true)
  /\ (forall j, numBitsLoop val n < j <= Z.of_nat n -> Z.testbit val j = false).
Proof.
  induction n as [|n IH]; intros Hn.
  - cbn [numBitsLoop]. split; [simpl; lia|]. split; [lia|]. intros j Hj. simpl in Hj. lia.
  - cbn [numBitsLoop].
    rewrite and_shl1_testbit by lia.
    rewrite negb_involutive.
    destruct (Z.testbit val (Z.of_nat (S n))) eqn:T.
    + split; [lia|]. split; [intros _; exact T|]. intros j Hj. lia.
    + destruct (IH ltac:(lia)) as (R & S1 & S2).
      split; [lia|]. split; [exact S1|].
      intros j Hj. destruct (Z.eq_dec j (Z.of_nat (S n))) as [->|N].
      * exact T.
      * apply S2. lia.
Qed.

(** The position of the top bit is the base-2 logarithm. *)
Lemma log2_of_top_bit a r :
  0 < a < 2 ^ 32 -> 0 <= r <= 31 ->
  (0 < r -> Z.testbit a r = true) ->
  (forall j, r < j <= 31 -> Z.testbit a j = false) ->
  Z.log2 a = r.
Proof.
  intros Ha Hr H1 H2.
  pose proof (Z.bit_log2 a ltac:(lia)) as T.
  pose proof (Z.log2_nonneg a) as L0.
  assert (L31 : Z.log2 a < 32) by (apply Z.log2_lt_pow2; lia).
  destruct (Z.lt_trichotomy (Z.log2 a) r) as [C|[C|C]].
  - rewrite Z.bits_above_log2 in H1 by lia. specialize (H1 ltac:(lia)).
    discriminate.
  - assumption.
  - rewrite H2 in T by lia. discriminate.
Qed.

(** The non-negative branch. *)
Lemma numBits_nonneg x :
  wf x -> 0 <= toZ x ->
  (if negb (high_ x =? 0) then numBitsLoop (high_ x) 31 + 33
   else numBitsLoop (low_ x) 31 + 1)
  = Z.log2 (toZ x) + 1.
Proof.
  intros Hx H0. pose proof Hx as [Hl Hh].
  rewrite toZ_wf in * by assumption.
  pose proof (Z.mod_pos_bound (low_ x) (2 ^ 32) ltac:(lia)) as Bl.
  assert (Hh0 : 0 <= high_ x) by (pow2; lia).
  destruct (Z.eqb_spec (high_ x) 0) as [E|E]; cbn [negb].
  - rewrite E, Z.mul_0_l, Z.add_0_l. f_equal.
    destruct (numBitsLoop_spec (low_ x) 31 ltac:(lia)) as (R & S1 & S2).
    change (Z.of_nat 31) with 31 in *.
    destruct (Z.eq_dec (low_ x mod 2 ^ 32) 0) as [Z0|NZ].
    + rewrite Z0. change (Z.log2 0) with 0.
      destruct (Z.eq_dec (numBitsLoop (low_ x) 31) 0) as [|N]; [assumption|].
      exfalso. specialize (S1 ltac:(lia)).
      rewrite <- (Z.mod_pow2_bits_low _ 32) in S1 by lia.
      rewrite Z0, Z.bits_0 in S1. discriminate.
    + symmetry. apply log2_of_top_bit; try lia.
      * intros P. rewrite Z.mod_pow2_bits_low by lia. apply S1. assumption.
      * intros j Hj. rewrite Z.mod_pow2_bits_low by lia. apply S2. assumption.
  - destruct (numBitsLoop_spec (high_ x) 31 ltac:(lia)) as (R & S1 & S2).
    change (Z.of_nat 31) with 31 in *.
    assert (LH : Z.log2 (high_ x) = numBitsLoop (high_ x) 31).
    { apply log2_of_top_bit; try assumption. pow2. lia. }
    assert (LX : Z.log2 (high_ x * 2 ^ 32 + low_ x mod 2 ^ 32)
                 = Z.log2 (high_ x) + 32).
    { apply Z.log2_unique; [pose proof (Z.log2_nonneg (high_ x)); lia|].
      pose proof (Z.log2_spec (high_ x) ltac:(lia)) as [A B].
      pose proof (Z.log2_nonneg (high_ x)) as L0.
      rewrite Z.pow_succ_r in B by assumption.
      rewrite Z.pow_succ_r, Z.pow_add_r by lia.
      set (P := 2 ^ Z.log2 (high_ x)) in *.
      assert (P * 2 ^ 32 <= high_ x * 2 ^ 32)
        by (apply Z.mul_le_mono_nonneg_r; lia).
      assert ((high_ x + 1) * 2 ^ 32 <= 2 * P * 2 ^ 32)
        by (apply Z.mul_le_mono_nonneg_r; lia).
      lia. }
    rewrite LX, LH. lia.
Qed.

End NumBits.

(** X15. [getNumBitsAbs] returns, within two rounds of its recursion, one
    more than the base-2 logarithm of the magnitude: the number of bits
    needed to write the absolute value, 64 for [MIN_VALUE] and 1 for zero
    and one alike. *)
Theorem getNumBitsAbs_is_bit_length (fuel : nat) (x : Timestamp) :
  wf x ->
  getNumBitsAbs_fuel (S (S fuel)) x = Some (Z.log2 (Z.abs (toZ x)) + 1).
Proof.
  intros Hx. pose proof (Int64.toZ_range x) as R.
  assert (NN : forall f y, wf y -> 0 <= toZ y ->
            getNumBitsAbs_fuel (S f) y = Some (Z.log2 (toZ y) + 1)).
  { intros f y Hy H0. cbn [getNumBitsAbs_fuel].
    rewrite Int64.isNegative_spec by assumption.
    destruct (Z.ltb_spec (toZ y) 0); [lia|]. cbv zeta.
    f_equal. destruct (negb (high_ y =? 0)) eqn:E.
    - pose proof (NumBits.numBits_nonneg y Hy H0) as N. now rewrite E in N.
    - pose proof (NumBits.numBits_nonneg y Hy H0) as N. now rewrite E in N. }
  destruct (Z.lt_ge_cases (toZ x) 0) as [Neg|Pos].
  - cbn [getNumBitsAbs_fuel].
    rewrite Int64.isNegative_spec by assumption.
    destruct (Z.ltb_spec (toZ x) 0); [|lia].
    rewrite Int64.equals_spec by (assumption || apply Int64.MIN_VALUE_wf).
    rewrite Mul.toZ_MIN_VALUE.
    destruct (Z.eqb_spec (toZ x) (- 2 ^ 63)) as [E|E].
    + rewrite E. reflexivity.
    + pose proof (DivSpec.toZ_negate_exact x Hx E) as N.
      change (getNumBitsAbs_fuel (S fuel) (negate x)
              = Some (Z.log2 (Z.abs (toZ x)) + 1)).
      rewrite NN by (try apply negate_wf; lia).
      rewrite N, Z.abs_neq by lia. reflexivity.
  - rewrite NN by assumption. now rewrite Z.abs_eq by assumption.
Qed.

Lemma getNumBitsAbs_is_bit_length_witness :
  wf (fromInt (- 5)) /\ getNumBitsAbs_fuel 2 (fromInt (- 5)) = Some 3.
Proof.
  split; [apply new_Timestamp_wf|].
  exact (getNumBitsAbs_is_bit_length 0 (fromInt (- 5)) (new_Timestamp_wf _ _)).
Defined.


(** ** Numerals: texts made of digits of a radix *)

(** Every character is a digit below the radix [b] (letters of either case). *)
Fixpoint is_numeral (b : Z) (s : string) : bool :=
  match s with
  | EmptyString => true
  | String c r =>
      match Str.digit_of c with
      | Some d => (d <? b) && is_numeral b r
      | None => false
      end
  end.

(** The integer a numeral writes, most significant digit first, continuing
    from [acc]. *)
Fixpoint numeral_value (b : Z) (s : string) (acc : Z) : Z :=
  match s with
  | EmptyString => acc
  | String c r =>
      numeral_value b r
        (acc * b + match Str.digit_of c with Some d => d | None => 0 end)
  end.

Definition len (s : string) : Z := Z.of_nat (String.length s).

Module Numeral.

Import Exact NumFacts Int64 Conv.

Lemma code_ascii n : 0 <= n < 256 -> Str.code (ascii_of_N (Z.to_N n)) = n.
Proof.
  intros H. unfold Str.code. rewrite N_ascii_embedding by lia. lia.
Qed.

Lemma digit_of_digit_char d :
  0 <= d < 36 -> Str.digit_of (Str.digit_char d) = Some d.
Proof.
  intros H. unfold Str.digit_of, Str.digit_char.
  destruct (Z.ltb_spec d 10).
  - rewrite code_ascii by lia.
    destruct (Z.leb_spec 48 (48 + d)); [|lia].
    destruct (Z.leb_spec (48 + d) 57); [|lia]. cbn [andb]. f_equal. lia.
  - rewrite code_ascii by lia.
    destruct (Z.leb_spec 48 (87 + d)); [|lia].
    destruct (Z.leb_spec (87 + d) 57); [lia|]. cbn [andb].
    destruct (Z.leb_spec 97 (87 + d)); [|lia].
    destruct (Z.leb_spec (87 + d) 122); [|lia]. cbn [andb]. f_equal. lia.
Qed.

(** A digit is no sign, no white space and no minus. *)
Lemma digit_code c d :
  Str.digit_of c = Some d ->
  0 <= d < 36 /\ 48 <= Str.code c <= 122.
Proof.
  unfold Str.digit_of.
  destruct (Z.leb_spec 48 (Str.code c)); destruct (Z.leb_spec (Str.code c) 57);
    cbn [andb]; try (intros E; injection E as <-; lia);
  destruct (Z.leb_spec 97 (Str.code c)); destruct (Z.leb_spec (Str.code c) 122);
    cbn [andb]; try (intros E; injection E as <-; lia);
  destruct (Z.leb_spec 65 (Str.code c)); destruct (Z.leb_spec (Str.code c) 90);
    cbn [andb]; try (intros E; injection E as <-; lia); discriminate.
Qed.

Lemma numeral_no_minus b s : is_numeral b s = true -> Str.has_minus s = false.
Proof.
  induction s as [|c r IH]; [reflexivity|]. cbn [is_numeral Str.has_minus].
  destruct (Str.digit_of c) as [d|] eqn:D; [|discriminate].
  intros H. apply andb_prop in H. destruct H as [_ H].
  destruct (digit_code c d D) as [_ C].
  destruct (Z.eqb_spec (Str.code c) 45); [lia|]. now apply IH.
Qed.

Lemma numeral_value_app b s1 s2 acc :
  numeral_value b (s1 ++ s2) acc = numeral_value b s2 (numeral_value b s1 acc).
Proof.
  revert acc. induction s1 as [|c r IH]; intros acc; [reflexivity|].
  cbn [append numeral_value]. apply IH.
Qed.

Lemma numeral_value_acc b s acc :
  numeral_value b s acc = acc * b ^ len s + numeral_value b s 0.
Proof.
  revert acc. induction s as [|c r IH]; intros acc.
  - unfold len. simpl. lia.
  - cbn [numeral_value]. rewrite IH. rewrite (IH (0 * b + _)).
    unfold len. cbn [String.length]. rewrite Nat2Z.inj_succ.
    rewrite Z.pow_succ_r by lia. ring.
Qed.

Lemma is_numeral_app b s1 s2 :
  is_numeral b (s1 ++ s2) = is_numeral b s1 && is_numeral b s2.
Proof.
  induction s1 as [|c r IH]; [reflexivity|]. cbn [append is_numeral].
  destruct (Str.digit_of c); [|reflexivity]. now rewrite IH, andb_assoc.
Qed.

Lemma len_app s1 s2 : len (s1 ++ s2) = len s1 + len s2.
Proof.
  unfold len. induction s1 as [|c r IH]; [reflexivity|].
  cbn [append String.length]. lia.
Qed.

(** A numeral of [k] digits writes an integer below [b^k]. *)
Lemma numeral_value_bound b s :
  2 <= b -> is_numeral b s = true ->
  0 <= numeral_value b s 0 < b ^ len s.
Proof.
  intros Hb. induction s as [|c r IH]; intros H.
  - unfold len. simpl. lia.
  - cbn [is_numeral numeral_value] in *.
    destruct (Str.digit_of c) as [d|] eqn:D; [|discriminate].
    apply andb_prop in H. destruct H as [Hd Hr]. apply Z.ltb_lt in Hd.
    destruct (digit_code c d D) as [D0 _].
    specialize (IH Hr). rewrite numeral_value_acc.
    unfold len in *. cbn [String.length]. rewrite Nat2Z.inj_succ.
    rewrite Z.pow_succ_r by lia.
    set (P := b ^ Z.of_nat (String.length r)) in *.
    assert (0 < P) by (apply Z.pow_pos_nonneg; lia).
    nia.
Qed.

Lemma append_snoc (s : string) c acc :
  ((s ++ String c EmptyString) ++ acc = s ++ String c acc)%string.
Proof.
  induction s as [|a r IH]; [reflexivity|]. cbn [append]. now rewrite IH.
Qed.

Lemma append_empty (s : string) : (s ++ EmptyString)%string = s.
Proof. induction s as [|a r IH]; [reflexivity|]. cbn [append]. now rewrite IH. Qed.

(** The digits written by [Number.prototype.toString] for a non-negative
    integer: a numeral of that value, as short as the value allows. *)
Lemma digits_fuel_spec b :
  2 <= b <= 36 ->
  forall fuel n acc,
    (1 <= fuel)%nat -> 0 <= n < b ^ Z.of_nat fuel ->
    exists D,
      Str.digits_fuel fuel b n acc = (D ++ acc)%string
      /\ is_numeral b D = true /\ numeral_value b D 0 = n
      /\ 1 <= len D
      /\ (forall k, 1 <= k -> n < b ^ k -> len D <= k).
Proof.
  intros Hb. induction fuel as [|f IH]; intros n acc Hf Hn; [lia|].
  cbn [Str.digits_fuel].
  pose proof (Z.mod_pos_bound n b ltac:(lia)) as Hm.
  pose proof (Z.div_mod n b ltac:(lia)) as Hd.
  assert (Dg : Str.digit_of (Str.digit_char (n mod b)) = Some (n mod b))
    by (apply digit_of_digit_char; lia).
  destruct (Z.eqb_spec (n / b) 0) as [Q0|Q0].
  - exists (String (Str.digit_char (n mod b)) EmptyString).
    split; [reflexivity|]. cbn [is_numeral numeral_value]. rewrite Dg.
    split; [destruct (Z.ltb_spec (n mod b) b); [reflexivity|lia]|].
    split; [lia|]. unfold len. cbn [String.length]. split; [lia|].
    intros k Hk _. lia.
  - assert (Qp : 1 <= n / b).
    { assert (0 <= n / b) by (apply Z.div_pos; lia). lia. }
    rewrite Nat2Z.inj_succ, Z.pow_succ_r in Hn by lia.
    assert (Qb : n / b < b ^ Z.of_nat f)
      by (apply Z.div_lt_upper_bound; lia).
    assert (Hf1 : (1 <= f)%nat).
    { destruct f; [|lia]. simpl in Qb. lia. }
    destruct (IH (n / b) (String (Str.digit_char (n mod b)) acc) Hf1 ltac:(lia))
      as (D' & E & N & V & L1 & L2).
    exists (D' ++ String (Str.digit_char (n mod b)) EmptyString)%string.
    split; [rewrite E; symmetry; apply append_snoc|].
    split.
    { rewrite is_numeral_app, N. cbn [is_numeral andb]. rewrite Dg.
      destruct (Z.ltb_spec (n mod b) b); [reflexivity|lia]. }
    split.
    { rewrite numeral_value_app, V. cbn [numeral_value]. rewrite Dg. lia. }
    rewrite len_app. unfold len at 2 4. cbn [String.length].
    split; [lia|]. intros k Hk Hnk.
    assert (2 <= k).
    { destruct (Z.eq_dec k 1) as [->|]; [|lia].
      rewrite Z.pow_1_r in Hnk. rewrite Z.div_small in Q0 by lia. lia. }
    assert (len D' <= k - 1); [|lia].
    apply L2; [lia|].
    apply Z.div_lt_upper_bound; [lia|].
    rewrite <- Z.pow_succ_r by lia. replace (Z.succ (k - 1)) with k by lia.
    assumption.
Qed.

Lemma ToInteger_radix b : 2 <= b <= 36 -> Num.ToInteger (Num.ofZ b) = b.
Proof.
  intros H. apply truncZ_exact. apply exactZ_small. pow2. lia.
Qed.

Lemma ToInt32_radix b : 2 <= b <= 36 -> Num.ToInt32 (Num.ofZ b) = b.
Proof.
  intros H. unfold Num.ToInt32. fold (Num.ToInteger (Num.ofZ b)).
  rewrite ToInteger_radix by assumption. apply JSFacts.toInt32_id. pow2. lia.
Qed.

(** [n.toString(radix)] on a non-negative 32-bit integer. *)
Lemma int_toString_spec b n :
  2 <= b <= 36 -> 0 <= n < 2 ^ 32 ->
  is_numeral b (Str.int_toString n (Num.ofZ b)) = true
  /\ numeral_value b (Str.int_toString n (Num.ofZ b)) 0 = n
  /\ 1 <= len (Str.int_toString n (Num.ofZ b))
  /\ (forall k, 1 <= k -> n < b ^ k ->
        len (Str.int_toString n (Num.ofZ b)) <= k).
Proof.
  intros Hb Hn. unfold Str.int_toString.
  rewrite ToInteger_radix by assumption.
  destruct (Z.ltb_spec n 0); [lia|].
  assert (B : n < b ^ Z.of_nat 32).
  { apply Z.lt_le_trans with (2 ^ 32); [lia|].
    change (Z.of_nat 32) with 32. apply Z.pow_le_mono_l. lia. }
  destruct (digits_fuel_spec b Hb 32 n EmptyString ltac:(lia) ltac:(lia))
    as (D & E & N & V & L1 & L2).
  rewrite E, append_empty. repeat split; assumption.
Qed.

(** Padding to six characters keeps the numeral and its value. *)
Lemma pad6_spec b :
  2 <= b ->
  forall fuel D,
    is_numeral b D = true -> len D <= 6 -> 6 - len D <= Z.of_nat fuel ->
    is_numeral b (Str.pad6 fuel D) = true
    /\ numeral_value b (Str.pad6 fuel D) 0 = numeral_value b D 0
    /\ len (Str.pad6 fuel D) = 6.
Proof.
  intros Hb. induction fuel as [|f IH]; intros D N L F.
  - cbn [Str.pad6]. change (Z.of_nat 0) with 0 in F.
    repeat split; try assumption. lia.
  - cbn [Str.pad6]. fold (len D).
    destruct (Z.ltb_spec (len D) 6) as [Lt|Ge].
    + assert (L' : len (String "0"%char D) = len D + 1).
      { unfold len. cbn [String.length]. lia. }
      destruct (IH (String "0"%char D)) as (N' & V' & L6).
      * cbn [is_numeral]. change (Str.digit_of "0"%char) with (Some 0).
        rewrite N. destruct (Z.ltb_spec 0 b); [reflexivity|lia].
      * lia.
      * lia.
      * split; [exact N'|]. split; [|exact L6]. rewrite V'. reflexivity.
    + repeat split; try assumption. lia.
Qed.

Lemma parse_digits_numeral b s :
  forall a, is_numeral b s = true ->
            Str.parse_digits b s (Some a) = Some (numeral_value b s a).
Proof.
  induction s as [|c r IH]; intros a H; [reflexivity|].
  cbn [is_numeral Str.parse_digits numeral_value] in *.
  destruct (Str.digit_of c) as [d|]; [|discriminate].
  apply andb_prop in H. destruct H as [Hd Hr]. rewrite Hd. now apply IH.
Qed.

(** [parseInt] on a non-empty numeral returns the number of its value. *)
Lemma parseInt_numeral b s :
  2 <= b <= 36 -> is_numeral b s = true -> s <> EmptyString ->
  Str.parseInt s (Num.ofZ b) = Num.ofZ (numeral_value b s 0).
Proof.
  intros Hb N Hs. destruct s as [|c r]; [congruence|]. clear Hs.
  pose proof N as N0. cbn [is_numeral] in N.
  destruct (Str.digit_of c) as [d|] eqn:D; [|discriminate].
  apply andb_prop in N. destruct N as [Hd Hr]. apply Z.ltb_lt in Hd.
  destruct (digit_code c d D) as [D0 C].
  unfold Str.parseInt. cbn [Str.trim_left].
  assert (SP : Str.is_space c = false).
  { unfold Str.is_space.
    destruct (Z.leb_spec 9 (Str.code c)); destruct (Z.leb_spec (Str.code c) 13);
      destruct (Z.eqb_spec (Str.code c) 32); destruct (Z.eqb_spec (Str.code c) 160);
      try lia; reflexivity. }
  rewrite SP.
  destruct (Z.eqb_spec (Str.code c) 45); [lia|].
  destruct (Z.eqb_spec (Str.code c) 43); [lia|].
  rewrite ToInt32_radix by assumption.
  destruct (Z.eqb_spec b 0); [lia|].
  destruct (Z.ltb_spec b 2); [lia|]. destruct (Z.ltb_spec 36 b); [lia|].
  cbn [negb orb andb].
  assert (PD : Str.parse_digits b (String c r) None
               = Some (numeral_value b (String c r) 0)).
  { cbn [Str.parse_digits numeral_value]. rewrite D.
    destruct (Z.ltb_spec d b); [|lia].
    rewrite parse_digits_numeral by assumption. reflexivity. }
  assert (NX : match r with
               | String c1 _ =>
                   ((b =? 16) && (Str.code c =? 48) && Str.is_x c1) = false
               | EmptyString => True
               end).
  { destruct r as [|c1 r1]; [exact I|].
    destruct (Z.eqb_spec b 16) as [->|]; [|reflexivity].
    destruct (Str.is_x c1) eqn:X; [|apply andb_false_r]. exfalso.
    cbn [is_numeral] in Hr.
    destruct (Str.digit_of c1) as [d1|] eqn:D1; [|discriminate].
    apply andb_prop in Hr. destruct Hr as [Hd1 _]. apply Z.ltb_lt in Hd1.
    unfold Str.is_x in X. unfold Str.digit_of in D1.
    destruct (Z.eqb_spec (Str.code c1) 120) as [E|_].
    - rewrite E in D1. simpl in D1. injection D1 as <-. lia.
    - destruct (Z.eqb_spec (Str.code c1) 88) as [E|_]; [|discriminate].
      rewrite E in D1. simpl in D1. injection D1 as <-. lia. }
  destruct r as [|c1 r1].
  - rewrite PD. reflexivity.
  - rewrite NX. rewrite PD. reflexivity.
Qed.

End Numeral.


(** ** [fromString] reads numerals *)

Module Parse.

Import Exact NumFacts Int64 Conv Mul Numeral.

Lemma string_length_zero (s : string) : String.length s = 0%nat -> s = EmptyString.
Proof. destruct s; [reflexivity|discriminate]. Qed.

Lemma wrap64_mul_add a p v : wrap64 (wrap64 a * p + v) = wrap64 (a * p + v).
Proof.
  now rewrite <- wrap64_wrap_l, Wrap.wrap64_mul_l, wrap64_wrap_l.
Qed.

Lemma substring_nil i k : substring i k EmptyString = EmptyString.
Proof. destruct i, k; reflexivity. Qed.

Lemma substring_split s :
  forall i k1 k2,
    substring i (k1 + k2) s
    = (substring i k1 s ++ substring (i + k1) k2 s)%string.
Proof.
  induction s as [|c r IH]; intros i k1 k2.
  - now rewrite !substring_nil.
  - destruct i as [|i].
    + destruct k1 as [|k1].
      * reflexivity.
      * cbn [Nat.add substring append]. f_equal. apply (IH 0%nat).
    + cbn [Nat.add substring]. apply IH.
Qed.

Lemma substring_length s :
  forall i k, String.length (substring i k s)
              = Nat.min k (String.length s - i).
Proof.
  induction s as [|c r IH]; intros i k.
  - rewrite substring_nil. simpl. lia.
  - destruct i as [|i].
    + destruct k as [|k]; [reflexivity|].
      cbn [substring String.length]. rewrite (IH 0%nat). lia.
    + cbn [substring String.length]. rewrite IH. lia.
Qed.

Lemma substring_numeral b s :
  is_numeral b s = true ->
  forall i k, is_numeral b (substring i k s) = true.
Proof.
  induction s as [|c r IH]; intros N i k.
  - now rewrite substring_nil.
  - cbn [is_numeral] in N.
    destruct (Str.digit_of c) as [d|] eqn:D; [|discriminate].
    apply andb_prop in N. destruct N as [Hd Hr].
    destruct i as [|i].
    + destruct k as [|k]; [reflexivity|].
      cbn [substring is_numeral]. rewrite D, Hd. now apply IH.
    + cbn [substring]. now apply IH.
Qed.

Lemma substring_whole s : substring 0 (String.length s) s = s.
Proof.
  induction s as [|c r IH]; [reflexivity|].
  cbn [String.length substring]. now rewrite IH.
Qed.

Lemma pow_radix_bound b k :
  2 <= b <= 36 -> 0 <= k <= 8 -> 0 < b ^ k < 2 ^ 53.
Proof.
  intros Hb Hk. split; [apply Z.pow_pos_nonneg; lia|].
  apply Z.le_lt_trans with (36 ^ 8); [|reflexivity].
  apply Z.le_trans with (36 ^ k).
  - apply Z.pow_le_mono_l. lia.
  - apply Z.pow_le_mono_r; lia.
Qed.

Lemma toZ_fromNumber_small v :
  0 <= v < 2 ^ 53 ->
  wf (fromNumber (Num.ofZ v)) /\ toZ (fromNumber (Num.ofZ v)) = v.
Proof.
  intros H. split; [apply fromNumber_wf|].
  assert (2 ^ 53 < 2 ^ 63) by reflexivity.
  assert (2 ^ 53 < 2 ^ 70) by reflexivity.
  rewrite toZ_fromNumber_exact by (try (apply exactZ_small); lia). lia.
Qed.

Lemma radix_checks b :
  2 <= b <= 36 ->
  or_default (Some (Num.ofZ b)) (Num.ofZ 10) = Num.ofZ b
  /\ Num.ltb (Num.ofZ b) (Num.ofZ 2) || Num.ltb (Num.ofZ 36) (Num.ofZ b) = false.
Proof.
  intros Hb.
  assert (X : forall z, 0 <= z <= 36 -> exactZ z)
    by (intros z Hz; apply exactZ_small; pow2; lia).
  split.
  - destruct (ofZ_shape b (X b ltac:(lia)) ltac:(lia)) as (m & e & E & _).
    cbn [or_default]. rewrite E. reflexivity.
  - rewrite !ltb_exact by (apply X; lia).
    destruct (Z.ltb_spec b 2); [lia|]. destruct (Z.ltb_spec 36 b); [lia|].
    reflexivity.
Qed.

Section Loop.

Variable Math_pow : number -> number -> number.
Hypothesis Hpow : pow_exact Math_pow.
Variable b : Z.
Hypothesis Hb : 2 <= b <= 36.
Variable str : string.
Hypothesis Hnum : is_numeral b str = true.

Let radix := Num.ofZ b.
Let radixToPower := fromNumber (Math_pow radix (Num.ofZ 8)).

Lemma power_value k :
  0 <= k <= 8 ->
  wf (fromNumber (Math_pow radix (Num.ofZ k)))
  /\ toZ (fromNumber (Math_pow radix (Num.ofZ k))) = b ^ k.
Proof.
  intros Hk. pose proof (pow_radix_bound b k Hb Hk) as B.
  unfold radix. rewrite Hpow by lia.
  apply toZ_fromNumber_small. lia.
Qed.

(** One round of the chunk loop. *)
Lemma chunk_step i result :
  wf result -> (i < String.length str)%nat ->
  let size := Nat.min 8 (String.length str - i) in
  let chunk := substring i size str in
  let value := Str.parseInt chunk radix in
  let result' :=
    if (size <? 8)%nat then
      let power := fromNumber (Math_pow radix (Num.ofZ (Z.of_nat size))) in
      add (multiply result power) (fromNumber value)
    else
      let result := multiply result radixToPower in
      add result (fromNumber value) in
  wf result'
  /\ toZ result'
     = wrap64 (toZ result * b ^ Z.of_nat size + numeral_value b chunk 0).
Proof.
  intros Hr Hi size chunk value result'.
  assert (Hs : (1 <= size <= 8)%nat) by (unfold size; lia).
  assert (Nc : is_numeral b chunk = true) by (apply substring_numeral; assumption).
  assert (Lc : String.length chunk = size).
  { unfold chunk. rewrite substring_length. unfold size. lia. }
  assert (Ec : chunk <> EmptyString).
  { intros E. rewrite E in Lc. simpl in Lc. lia. }
  pose proof (numeral_value_bound b chunk ltac:(lia) Nc) as Bv.
  unfold len in Bv. rewrite Lc in Bv.
  pose proof (pow_radix_bound b (Z.of_nat size) Hb ltac:(lia)) as Bp.
  assert (V : value = Num.ofZ (numeral_value b chunk 0)).
  { unfold value, radix. apply parseInt_numeral; assumption. }
  destruct (toZ_fromNumber_small (numeral_value b chunk 0) ltac:(lia))
    as [Wv Tv].
  rewrite <- V in Wv, Tv.
  destruct (power_value (Z.of_nat size) ltac:(lia)) as [Wp Tp].
  split; [unfold result'; destruct (size <? 8)%nat; apply add_wf|].
  unfold result'. destruct (Nat.ltb_spec size 8) as [L|G]; cbv zeta.
  - rewrite toZ_add, Mul.toZ_multiply, Tp, Tv by assumption.
    apply wrap64_wrap_l.
  - assert (E8 : size = 8%nat) by lia. rewrite E8 in *.
    change (Z.of_nat 8) with 8 in *. fold radixToPower in Wp, Tp.
    rewrite toZ_add, Mul.toZ_multiply, Tp, Tv by assumption.
    apply wrap64_wrap_l.
Qed.

(** The chunk loop reads the text from position [i] on. *)
Lemma loop_value n :
  forall i result,
    wf result -> (String.length str <= i + 8 * n)%nat ->
    exists v,
      fromString_loop Math_pow (S n) str radix radixToPower i result = Ret v
      /\ wf v
      /\ toZ v
         = wrap64 (toZ result * b ^ Z.of_nat (String.length str - i)
                   + numeral_value b (substring i (String.length str - i) str) 0).
Proof.
  induction n as [|n IH]; intros i result Hr Hl.
  - cbn [fromString_loop].
    destruct (Nat.ltb_spec i (String.length str)); [lia|].
    exists result. split; [reflexivity|]. split; [assumption|].
    replace (String.length str - i)%nat with 0%nat by lia.
    assert (E : substring i 0 str = EmptyString).
    { apply string_length_zero. rewrite substring_length. lia. }
    rewrite E. cbn [numeral_value]. change (Z.of_nat 0) with 0.
    rewrite Z.pow_0_r, Z.mul_1_r, Z.add_0_r.
    symmetry. apply wrap64_id, toZ_range.
  - rewrite (eq_refl : fromString_loop Math_pow (S (S n)) str radix radixToPower i result
               = if (i <? String.length str)%nat then
                   let size := Nat.min 8 (String.length str - i) in
                   let value := Str.parseInt (substring i size str) radix in
                   let result :=
                     if (size <? 8)%nat then
                       let power := fromNumber (Math_pow radix (Num.ofZ (Z.of_nat size))) in
                       add (multiply result power) (fromNumber value)
                     else
                       let result := multiply result radixToPower in
                       add result (fromNumber value) in
                   fromString_loop Math_pow (S n) str radix radixToPower (i + 8)%nat result
                 else Ret result).
    destruct (Nat.ltb_spec i (String.length str)) as [Lt|Ge].
    + pose proof (chunk_step i result Hr Lt) as C. cbv zeta in C |- *.
      set (size := Nat.min 8 (String.length str - i)) in *.
      set (result' := if (size <? 8)%nat then _ else _) in *.
      destruct C as [Wr' Tr'].
      destruct (IH (i + 8)%nat result' Wr' ltac:(lia)) as (v & Ev & Wv & Tv).
      exists v. split; [exact Ev|]. split; [exact Wv|].
      rewrite Tv, Tr'.
      set (rest := (String.length str - (i + 8))%nat).
      assert (Split : (String.length str - i = size + rest)%nat)
        by (unfold size, rest; lia).
      rewrite Split, substring_split, numeral_value_app.
      rewrite (numeral_value_acc b (substring (i + size) rest str)).
      assert (Lr : len (substring (i + size) rest str) = Z.of_nat rest).
      { unfold len. rewrite substring_length. unfold size, rest. lia. }
      rewrite Lr.
      assert (Sub : substring (i + 8) rest str = substring (i + size) rest str).
      { destruct (Nat.eq_dec size 8) as [->|N8]; [reflexivity|].
        assert (rest = 0%nat) by (unfold size, rest in *; lia).
        replace rest with 0%nat.
        transitivity EmptyString; [|symmetry];
          apply string_length_zero; rewrite substring_length; lia. }
      rewrite Sub. rewrite wrap64_mul_add.
      rewrite Nat2Z.inj_add, Z.pow_add_r by lia. f_equal. ring.
    + exists result. split; [reflexivity|]. split; [assumption|].
      replace (String.length str - i)%nat with 0%nat by lia.
      assert (E : substring i 0 str = EmptyString).
      { apply string_length_zero. rewrite substring_length. lia. }
      rewrite E. cbn [numeral_value]. change (Z.of_nat 0) with 0.
      rewrite Z.pow_0_r, Z.mul_1_r, Z.add_0_r.
      symmetry. apply wrap64_id, toZ_range.
Qed.

End Loop.

Lemma fromString_numeral (Math_pow : number -> number -> number)
    (b : Z) (s : string) :
  pow_exact Math_pow -> 2 <= b <= 36 ->
  is_numeral b s = true -> s <> EmptyString ->
  exists v,
    fromString Math_pow s (Some (Num.ofZ b)) = Ret v
    /\ fromString Math_pow (String "-"%char s) (Some (Num.ofZ b))
       = Ret (negate v)
    /\ wf v
    /\ toZ v = wrap64 (numeral_value b s 0)
    /\ toZ (negate v) = wrap64 (- numeral_value b s 0).
Proof.
  intros Hpow Hb N Hs.
  destruct (radix_checks b Hb) as [R1 R2].
  assert (P : exists v, fromString Math_pow s (Some (Num.ofZ b)) = Ret v
                        /\ wf v /\ toZ v = wrap64 (numeral_value b s 0)).
  { destruct s as [|c r]; [congruence|].
    pose proof (numeral_no_minus b _ N) as M.
    assert (C : (Str.code c =? 45) = false).
    { cbn [Str.has_minus] in M. now apply orb_false_elim in M. }
    cbn [fromString]. rewrite R1, R2, C, M.
    destruct (loop_value Math_pow Hpow b Hb (String c r) N
                (String.length (String c r)) 0%nat ZERO ZERO_wf ltac:(lia))
      as (v & E & W & T).
    exists v. split; [exact E|]. split; [exact W|].
    rewrite T. rewrite Nat.sub_0_r, substring_whole.
    change (toZ ZERO) with 0. now rewrite Z.mul_0_l, Z.add_0_l. }
  destruct P as (v & E & W & T).
  exists v. split; [exact E|]. split.
  { cbn [fromString]. rewrite R1, R2.
    change (Str.code "-"%char =? 45) with true. cbv iota.
    rewrite E. reflexivity. }
  split; [exact W|]. split; [exact T|].
  rewrite Int64.toZ_negate, T by assumption. apply Mul.wrap64_opp_wrap.
Qed.

End Parse.

(** X16. [fromString] reads a non-empty text of digits of the radix (the
    letters in either case) as the integer it writes, modulo 2^64, and a
    leading '-' negates the result.  [Math.pow] has to be exact on the small
    integer powers asked for. *)
Theorem fromString_reads_numerals (Math_pow : number -> number -> number)
    (b : Z) (s : string) :
  pow_exact Math_pow -> 2 <= b <= 36 ->
  is_numeral b s = true -> s <> EmptyString ->
  exists v,
    fromString Math_pow s (Some (Num.ofZ b)) = Ret v
    /\ fromString Math_pow (String "-"%char s) (Some (Num.ofZ b))
       = Ret (negate v)
    /\ wf v
    /\ toZ v = wrap64 (numeral_value b s 0)
    /\ toZ (negate v) = wrap64 (- numeral_value b s 0).
Proof.
  intros Hpow Hb N Hs.
  destruct (Parse.fromString_numeral Math_pow b s Hpow Hb N Hs)
    as (v & E & En & W & T & Tn).
  exists v. split; [exact E|]. split; [exact En|]. split; [exact W|].
  split; [exact T|exact Tn].
Qed.

Lemma fromString_reads_numerals_witness :
  pow_exact ref_pow /\ 2 <= 16 <= 36
  /\ is_numeral 16 "fF" = true /\ "fF"%string <> EmptyString
  /\ exists v,
       fromString ref_pow "fF" (Some (Num.ofZ 16)) = Ret v
       /\ fromString ref_pow "-fF" (Some (Num.ofZ 16)) = Ret (negate v)
       /\ wf v /\ toZ v = 255 /\ toZ (negate v) = - 255.
Proof.
  assert (B : 2 <= 16 <= 36) by (split; vm_compute; discriminate).
  assert (E : "fF"%string <> EmptyString) by discriminate.
  split; [exact RefHost.ref_pow_exact|]. split; [exact B|].
  split; [reflexivity|]. split; [exact E|].
  exact (fromString_reads_numerals ref_pow 16 "fF"
           RefHost.ref_pow_exact B eq_refl E).
Defined.


(** ** [toString] writes numerals *)

Module Print.

Import Exact NumFacts Int64 Conv Mul Numeral Parse.

Lemma toInt_wf x : wf x -> toInt x = JS.toInt32 (toZ x).
Proof.
  intros Hx. rewrite toZ_wf by assumption. destruct Hx as [Hl Hh].
  unfold toInt, JS.toInt32. pow2. Z.div_mod_to_equations. lia.
Qed.

Lemma append_assoc (a b c : string) : ((a ++ b) ++ c = a ++ (b ++ c))%string.
Proof.
  induction a as [|x r IH]; [reflexivity|]. cbn [append]. now rewrite IH.
Qed.

Lemma len_pos_nonempty (s : string) : 1 <= len s -> s <> EmptyString.
Proof. intros H E. rewrite E in H. unfold len in H. simpl in H. lia. Qed.

Lemma len_nonneg (s : string) : 0 <= len s.
Proof. unfold len. lia. Qed.

Lemma toString_loop_unfold Math_log Math_pow fuel radix radixToPower rem result :
  toString_loop Math_log Math_pow (S fuel) radix radixToPower rem result
  = remDiv <- div_fuel Math_log Math_pow fuel rem radixToPower ;;
    let intval := toInt (subtract rem (multiply remDiv radixToPower)) in
    let digits := Str.int_toString intval radix in
    let rem := remDiv in
    if isZero rem then Ret (digits ++ result)%string
    else
      let digits := Str.pad6 6 digits in
      toString_loop Math_log Math_pow fuel radix radixToPower rem
        (digits ++ result)%string.
Proof. reflexivity. Qed.

Section Loop.

Variable Math_log : number -> number.
Variable Math_pow : number -> number -> number.
Hypothesis Hlog : log_accurate Math_log.
Hypothesis Hpow : pow_exact Math_pow.
Variable b : Z.
Hypothesis Hb : 2 <= b <= 35.

Let radix := Num.ofZ b.
Let radixToPower := fromNumber (Math_pow radix (Num.ofZ 6)).

Lemma group_bound : 0 < b ^ 6 <= 2 ^ 31.
Proof.
  split; [apply Z.pow_pos_nonneg; lia|].
  apply Z.le_trans with (35 ^ 6); [apply Z.pow_le_mono_l; lia|].
  vm_compute. discriminate.
Qed.

Lemma radixToPower_value : wf radixToPower /\ toZ radixToPower = b ^ 6.
Proof.
  apply (power_value Math_pow Hpow b); lia.
Qed.

(** One round of the digit loop: the quotient by b^6 and the six-digit
    group. *)
Lemma group_step rem :
  wf rem -> 0 <= toZ rem ->
  exists fuel0 q,
    (forall fuel, (fuel0 <= fuel)%nat ->
       div_fuel Math_log Math_pow fuel rem radixToPower = Ret q)
    /\ wf q /\ toZ q = toZ rem / b ^ 6
    /\ toInt (subtract rem (multiply q radixToPower)) = toZ rem mod b ^ 6.
Proof.
  intros Hr H0. destruct radixToPower_value as [Wp Tp].
  pose proof group_bound as G. pose proof (toZ_range rem) as Rr.
  destruct (DivSpec.div_spec Math_log Math_pow Hlog Hpow rem radixToPower
              Hr Wp ltac:(lia)) as (f0 & q & Hq & Wq & Tq).
  rewrite Tp in Tq. rewrite Z.quot_div_nonneg in Tq by lia.
  assert (Bq : 0 <= toZ rem / b ^ 6 <= toZ rem).
  { split; [apply Z.div_pos; lia|].
    apply Z.div_le_upper_bound; [lia|]. nia. }
  rewrite wrap64_id in Tq by lia.
  exists f0, q. split; [exact Hq|]. split; [exact Wq|]. split; [exact Tq|].
  rewrite toInt_wf by apply subtract_wf.
  rewrite toZ_subtract by (apply multiply_wf; assumption).
  rewrite toZ_multiply, Tq, Tp by assumption.
  rewrite Wrap.wrap64_sub_r.
  pose proof (Z.div_mod (toZ rem) (b ^ 6) ltac:(lia)) as DM.
  pose proof (Z.mod_pos_bound (toZ rem) (b ^ 6) ltac:(lia)) as MB.
  replace (toZ rem - toZ rem / b ^ 6 * b ^ 6) with (toZ rem mod b ^ 6) by lia.
  rewrite wrap64_id by (pow2; lia).
  apply JSFacts.toInt32_id. pow2. lia.
Qed.

(** The digit loop writes the numeral of [rem] in front of [result]. *)
Lemma toString_loop_spec n :
  forall rem result,
    Z.to_nat (toZ rem) = n -> wf rem -> 0 <= toZ rem ->
    exists fuel0 S,
      (forall fuel, (fuel0 <= fuel)%nat ->
         toString_loop Math_log Math_pow fuel radix radixToPower rem result
         = Ret (S ++ result)%string)
      /\ is_numeral b S = true /\ 1 <= len S
      /\ numeral_value b S 0 = toZ rem.
Proof.
  induction n as [n IH] using lt_wf_ind. intros rem result Hn Hr H0.
  pose proof group_bound as G.
  destruct (group_step rem Hr H0) as (f0 & q & Hq & Wq & Tq & Tc).
  pose proof (Z.div_mod (toZ rem) (b ^ 6) ltac:(lia)) as DM.
  pose proof (Z.mod_pos_bound (toZ rem) (b ^ 6) ltac:(lia)) as MB.
  set (c := toZ rem mod b ^ 6) in *.
  destruct (int_toString_spec b c ltac:(lia) ltac:(pow2; lia))
    as (N & V & L1 & L2).
  set (D := Str.int_toString c (Num.ofZ b)) in *.
  assert (L6 : len D <= 6) by (apply L2; lia).
  destruct (Z.eq_dec (toZ rem / b ^ 6) 0) as [Q0|Q0].
  - exists (S f0), D. split; [|split; [exact N|split; [exact L1|]]].
    + intros fuel Hf. destruct fuel as [|fuel]; [lia|].
      rewrite toString_loop_unfold, Hq by lia. cbn [bind]. cbv zeta.
      rewrite Tc. fold c. fold radix. fold D.
      rewrite isZero_spec, Tq by assumption.
      destruct (Z.eqb_spec (toZ rem / b ^ 6) 0); [reflexivity|lia].
    + rewrite V. lia.
  - assert (Qp : 1 <= toZ rem / b ^ 6).
    { assert (0 <= toZ rem / b ^ 6) by (apply Z.div_pos; lia). lia. }
    assert (Qlt : toZ rem / b ^ 6 < toZ rem).
    { apply Z.div_lt; [|].
      - destruct (Z.eq_dec (toZ rem) 0) as [E|]; [|lia].
        rewrite E, Z.div_0_l in Qp by lia. lia.
      - assert (b ^ 1 <= b ^ 6) by (apply Z.pow_le_mono_r; lia).
        rewrite Z.pow_1_r in *. lia. }
    destruct (pad6_spec b ltac:(lia) 6 D N L6
                ltac:(change (Z.of_nat 6) with 6; lia))
      as (N6 & V6 & Len6).
    set (D6 := Str.pad6 6 D) in *.
    destruct (IH (Z.to_nat (toZ q)) ltac:(lia) q (D6 ++ result)%string
                 eq_refl Wq ltac:(lia))
      as (f1 & S' & HS & NS & LS & VS).
    exists (S (Nat.max f0 f1)), (S' ++ D6)%string.
    split; [|split; [|split]].
    + intros fuel Hf. destruct fuel as [|fuel]; [lia|].
      rewrite toString_loop_unfold, Hq by lia. cbn [bind]. cbv zeta.
      rewrite Tc. fold c. fold radix. fold D. fold D6.
      rewrite isZero_spec, Tq by assumption.
      destruct (Z.eqb_spec (toZ rem / b ^ 6) 0); [lia|].
      rewrite HS by lia. now rewrite append_assoc.
    + now rewrite is_numeral_app, NS, N6.
    + rewrite len_app. pose proof (len_nonneg D6). lia.
    + rewrite numeral_value_app, VS, numeral_value_acc, V6, V, Len6, Tq.
      lia.
Qed.

Lemma radix_value :
  wf (fromNumber radix) /\ toZ (fromNumber radix) = b.
Proof. apply toZ_fromNumber_small. pow2. lia. Qed.

Lemma toString_fuel_step fuel x :
  isZero x = false ->
  toString_fuel Math_log Math_pow (S fuel) x (Some radix)
  = if isNegative x then
      if equals x MIN_VALUE then
        let radixTimestamp := fromNumber radix in
        dv <- div_fuel Math_log Math_pow fuel x radixTimestamp ;;
        let rem := subtract (multiply dv radixTimestamp) x in
        s <- toString_fuel Math_log Math_pow fuel dv (Some radix) ;;
        Ret (s ++ Str.int_toString (toInt rem) radix)%string
      else
        s <- toString_fuel Math_log Math_pow fuel (negate x) (Some radix) ;;
        Ret (String "-"%char s)
    else
      toString_loop Math_log Math_pow fuel radix radixToPower x EmptyString.
Proof.
  intros Hz. rewrite Radix36.toString_fuel_unfold. cbv zeta.
  destruct (radix_checks b ltac:(lia)) as [R1 R2]. fold radix in R1, R2.
  rewrite R1, R2, Hz. reflexivity.
Qed.

(** Positive values. *)
Lemma toString_pos x :
  wf x -> 0 < toZ x ->
  exists fuel0 S,
    (forall fuel, (fuel0 <= fuel)%nat ->
       toString_fuel Math_log Math_pow fuel x (Some radix) = Ret S)
    /\ is_numeral b S = true /\ 1 <= len S
    /\ numeral_value b S 0 = toZ x.
Proof.
  intros Hx Hp.
  destruct (toString_loop_spec (Z.to_nat (toZ x)) x EmptyString eq_refl Hx
              ltac:(lia)) as (f0 & S & HS & N & L & V).
  exists (Datatypes.S f0), S. split; [|repeat split; assumption].
  intros fuel Hf. destruct fuel as [|fuel]; [lia|].
  rewrite toString_fuel_step.
  - rewrite isNegative_spec by assumption.
    destruct (Z.ltb_spec (toZ x) 0); [lia|].
    rewrite HS by lia. now rewrite append_empty.
  - rewrite isZero_spec by assumption. apply Z.eqb_neq. lia.
Qed.

(** Negative values other than [MIN_VALUE]. *)
Lemma toString_neg x :
  wf x -> toZ x < 0 -> toZ x <> - 2 ^ 63 ->
  exists fuel0 S,
    (forall fuel, (fuel0 <= fuel)%nat ->
       toString_fuel Math_log Math_pow fuel x (Some radix)
       = Ret (String "-"%char S))
    /\ is_numeral b S = true /\ 1 <= len S
    /\ numeral_value b S 0 = - toZ x.
Proof.
  intros Hx Hn Hm.
  pose proof (DivSpec.toZ_negate_exact x Hx Hm) as Tn.
  destruct (toString_pos (negate x) (negate_wf x) ltac:(lia))
    as (f0 & S & HS & N & L & V).
  exists (Datatypes.S f0), S. split; [|rewrite <- Tn; repeat split; assumption].
  intros fuel Hf. destruct fuel as [|fuel]; [lia|].
  rewrite toString_fuel_step.
  - rewrite isNegative_spec by assumption.
    destruct (Z.ltb_spec (toZ x) 0); [|lia].
    rewrite equals_spec, toZ_MIN_VALUE by (assumption || apply MIN_VALUE_wf).
    destruct (Z.eqb_spec (toZ x) (- 2 ^ 63)); [lia|].
    rewrite HS by lia. reflexivity.
  - rewrite isZero_spec by assumption. apply Z.eqb_neq. lia.
Qed.

(** [MIN_VALUE]: the last digit is split off first. *)
Lemma toString_min :
  exists fuel0 S,
    (forall fuel, (fuel0 <= fuel)%nat ->
       toString_fuel Math_log Math_pow fuel MIN_VALUE (Some radix)
       = Ret (String "-"%char S))
    /\ is_numeral b S = true /\ 1 <= len S
    /\ numeral_value b S 0 = 2 ^ 63.
Proof.
  destruct radix_value as [Wr Tr].
  destruct (DivSpec.div_spec Math_log Math_pow Hlog Hpow MIN_VALUE
              (fromNumber radix) MIN_VALUE_wf Wr ltac:(lia))
    as (f0 & q & Hq & Wq & Tq).
  rewrite toZ_MIN_VALUE, Tr in Tq.
  pose proof (Z.div_mod (2 ^ 63) b ltac:(lia)) as DM.
  pose proof (Z.mod_pos_bound (2 ^ 63) b ltac:(lia)) as MB.
  assert (Qb : 1 <= 2 ^ 63 / b <= 2 ^ 62).
  { split.
    - apply Z.div_le_lower_bound; [lia|]. pow2. lia.
    - apply Z.div_le_upper_bound; [lia|].
      change (2 ^ 63) with (2 * 2 ^ 62).
      apply Z.mul_le_mono_nonneg_r; [|lia]. apply Z.pow_nonneg. lia. }
  assert (Eq : Z.quot (- 2 ^ 63) b = - (2 ^ 63 / b)).
  { rewrite Z.quot_opp_l by lia. f_equal. apply Z.quot_div_nonneg; lia. }
  rewrite Eq in Tq.
  assert (P62 : 2 ^ 62 < 2 ^ 63) by reflexivity.
  rewrite wrap64_id in Tq by lia.
  destruct (toString_neg q Wq ltac:(lia) ltac:(lia))
    as (f1 & S' & HS & N & L & V).
  set (remT := subtract (multiply q (fromNumber radix)) MIN_VALUE).
  assert (Trem : toInt remT = 2 ^ 63 mod b).
  { unfold remT. rewrite toInt_wf by apply subtract_wf.
    rewrite toZ_subtract by apply MIN_VALUE_wf.
    rewrite toZ_multiply, Tq, Tr, toZ_MIN_VALUE by assumption.
    rewrite Wrap.wrap64_sub_l.
    replace (- (2 ^ 63 / b) * b - - 2 ^ 63) with (2 ^ 63 mod b) by lia.
    rewrite wrap64_id by (pow2; lia).
    apply JSFacts.toInt32_id. pow2. lia. }
  destruct (int_toString_spec b (2 ^ 63 mod b) ltac:(lia) ltac:(pow2; lia))
    as (N1 & V1 & L1 & L2).
  set (D1 := Str.int_toString (2 ^ 63 mod b) (Num.ofZ b)) in *.
  assert (Len1 : len D1 = 1).
  { assert (len D1 <= 1); [|lia]. apply L2; [lia|]. rewrite Z.pow_1_r. lia. }
  exists (Datatypes.S (Nat.max f0 f1)), (S' ++ D1)%string.
  split; [|split; [|split]].
  - intros fuel Hf. destruct fuel as [|fuel]; [lia|].
    rewrite toString_fuel_step by reflexivity.
    change (isNegative MIN_VALUE) with true.
    change (equals MIN_VALUE MIN_VALUE) with true. cbv iota zeta.
    rewrite Hq by lia. cbn [bind]. rewrite HS by lia. cbn [bind].
    fold remT. rewrite Trem. fold D1. reflexivity.
  - now rewrite is_numeral_app, N, N1.
  - rewrite len_app. lia.
  - rewrite numeral_value_app, V, numeral_value_acc, V1, Len1, Z.pow_1_r.
    lia.
Qed.

(** [toString] in radix [b]: a '-' for a negative value, then the numeral
    of the magnitude. *)
Lemma toString_spec x :
  wf x ->
  exists fuel0 S,
    (forall fuel, (fuel0 <= fuel)%nat ->
       toString_fuel Math_log Math_pow fuel x (Some radix)
       = Ret (if toZ x <? 0 then String "-"%char S else S))
    /\ is_numeral b S = true /\ 1 <= len S
    /\ numeral_value b S 0 = Z.abs (toZ x).
Proof.
  intros Hx. destruct (Z.lt_trichotomy (toZ x) 0) as [Hn|[Hz|Hp]].
  - destruct (Z.ltb_spec (toZ x) 0); [|lia].
    rewrite Z.abs_neq by lia.
    destruct (Z.eq_dec (toZ x) (- 2 ^ 63)) as [E|E].
    + assert (x = MIN_VALUE) as ->.
      { apply toZ_inj; [assumption|apply MIN_VALUE_wf|]. now rewrite E. }
      rewrite toZ_MIN_VALUE, Z.opp_involutive. exact toString_min.
    + apply toString_neg; assumption.
  - rewrite Hz. cbn [Z.ltb Z.compare Z.abs].
    exists 1%nat, "0"%string. split; [|split; [|split]].
    + intros fuel Hf. destruct fuel as [|fuel]; [lia|].
      rewrite Radix36.toString_fuel_unfold. cbv zeta.
      destruct (radix_checks b ltac:(lia)) as [R1 R2]. fold radix in R1, R2.
      rewrite R1, R2, isZero_spec, Hz by assumption. reflexivity.
    + cbn [is_numeral]. change (Str.digit_of "0"%char) with (Some 0).
      apply andb_true_iff. split; [apply Z.ltb_lt; lia|reflexivity].
    + unfold len. simpl. lia.
    + reflexivity.
  - destruct (Z.ltb_spec (toZ x) 0); [lia|].
    rewrite Z.abs_eq by lia. apply toString_pos; assumption.
Qed.

End Loop.

End Print.


(** ** Writing and reading back *)

(** [toJSON]: [this.toString()], the radix left out. *)
Definition toJSON_fuel (Math_log : number -> number)
    (Math_pow : number -> number -> number) (fuel : nat) (x : Timestamp)
    : outcome string :=
  toString_fuel Math_log Math_pow fuel x None.

Module RoundTrip.

Import Int64 Numeral Parse.

(** Leaving the radix out is asking for radix 10. *)
Lemma toString_default Math_log Math_pow fuel x :
  toString_fuel Math_log Math_pow fuel x None
  = toString_fuel Math_log Math_pow fuel x (Some (Num.ofZ 10)).
Proof.
  destruct fuel as [|fuel]; [reflexivity|].
  rewrite !Radix36.toString_fuel_unfold.
  destruct (radix_checks 10 ltac:(lia)) as [R1 _]. rewrite R1.
  reflexivity.
Qed.

Lemma fromString_default Math_pow s :
  fromString Math_pow s None = fromString Math_pow s (Some (Num.ofZ 10)).
Proof.
  destruct s as [|c r]; [reflexivity|].
  cbn [fromString].
  destruct (radix_checks 10 ltac:(lia)) as [R1 _]. rewrite R1.
  reflexivity.
Qed.

Section Host.

Variable Math_log : number -> number.
Variable Math_pow : number -> number -> number.
Hypothesis Hlog : log_accurate Math_log.
Hypothesis Hpow : pow_exact Math_pow.

(** What [toString] writes, [fromString] reads back. *)
Lemma read_back b x :
  2 <= b <= 35 -> wf x ->
  exists fuel0 s,
    (forall fuel, (fuel0 <= fuel)%nat ->
       toString_fuel Math_log Math_pow fuel x (Some (Num.ofZ b)) = Ret s)
    /\ fromString Math_pow s (Some (Num.ofZ b)) = Ret x.
Proof.
  intros Hb Hx.
  destruct (Print.toString_spec Math_log Math_pow Hlog Hpow b Hb x Hx)
    as (f0 & S & HS & N & L & V).
  assert (Ne : S <> EmptyString).
  { intros ->. unfold len in L. simpl in L. lia. }
  destruct (fromString_numeral Math_pow b S Hpow ltac:(lia) N Ne)
    as (v & E & En & W & T & Tn).
  rewrite V in T, Tn.
  pose proof (toZ_range x) as R.
  exists f0. destruct (Z.ltb_spec (toZ x) 0) as [Hn|Hp].
  - exists (String "-"%char S). split; [exact HS|].
    rewrite En. f_equal. apply toZ_inj; [apply negate_wf|exact Hx|].
    rewrite Tn, Z.abs_neq, Z.opp_involutive by lia.
    apply wrap64_id. exact R.
  - exists S. split; [exact HS|].
    rewrite E. f_equal. apply toZ_inj; [exact W|exact Hx|].
    rewrite T, Z.abs_eq by lia. apply wrap64_id. exact R.
Qed.

End Host.

End RoundTrip.

(** X17. On a host with accurate [Math.log] and [Math.pow], [toString] in a
    radix from 2 to 35 returns, for every normalised value, a '-' when the
    value is negative followed by a non-empty text of digits of the radix
    whose numeral value is the magnitude; this holds for [MIN_VALUE] too. *)
Theorem toString_writes_the_value (Math_log : number -> number)
    (Math_pow : number -> number -> number) (b : Z) (x : Timestamp) :
  log_accurate Math_log -> pow_exact Math_pow ->
  2 <= b <= 35 -> wf x ->
  exists fuel0 S,
    (forall fuel, (fuel0 <= fuel)%nat ->
       toString_fuel Math_log Math_pow fuel x (Some (Num.ofZ b))
       = Ret (if toZ x <? 0 then String "-"%char S else S))
    /\ is_numeral b S = true
    /\ S <> EmptyString
    /\ numeral_value b S 0 = Z.abs (toZ x).
Proof.
  intros Hlog Hpow Hb Hx.
  destruct (Print.toString_spec Math_log Math_pow Hlog Hpow b Hb x Hx)
    as (f0 & S & HS & N & L & V).
  exists f0, S. split; [exact HS|]. split; [exact N|]. split; [|exact V].
  intros ->. unfold len in L. simpl in L. lia.
Qed.

Lemma toString_writes_the_value_witness :
  log_accurate ref_log /\ pow_exact ref_pow
  /\ 2 <= 7 <= 35 /\ wf MIN_VALUE
  /\ exists fuel0 S,
       (forall fuel, (fuel0 <= fuel)%nat ->
          toString_fuel ref_log ref_pow fuel MIN_VALUE (Some (Num.ofZ 7))
          = Ret (String "-"%char S))
       /\ is_numeral 7 S = true
       /\ S <> EmptyString
       /\ numeral_value 7 S 0 = 2 ^ 63.
Proof.
  assert (B : 2 <= 7 <= 35) by (split; vm_compute; discriminate).
  split; [exact RefHost.ref_log_accurate|].
  split; [exact RefHost.ref_pow_exact|].
  split; [exact B|]. split; [exact Int64.MIN_VALUE_wf|].
  exact (toString_writes_the_value ref_log ref_pow 7 MIN_VALUE
           RefHost.ref_log_accurate RefHost.ref_pow_exact B Int64.MIN_VALUE_wf).
Defined.

(** X18. Round trip: on such a host and for a radix from 2 to 35,
    [fromString] applied to the text [toString] returns for a normalised
    value, with the same radix, returns that value. *)
Theorem toString_fromString_roundtrip (Math_log : number -> number)
    (Math_pow : number -> number -> number) (b : Z) (x : Timestamp) :
  log_accurate Math_log -> pow_exact Math_pow ->
  2 <= b <= 35 -> wf x ->
  exists fuel0, forall fuel, (fuel0 <= fuel)%nat ->
    (s <- toString_fuel Math_log Math_pow fuel x (Some (Num.ofZ b)) ;;
     fromString Math_pow s (Some (Num.ofZ b))) = Ret x.
Proof.
  intros Hlog Hpow Hb Hx.
  destruct (RoundTrip.read_back Math_log Math_pow Hlog Hpow b x Hb Hx)
    as (f0 & s & HS & E).
  exists f0. intros fuel Hf. rewrite (HS fuel Hf). exact E.
Qed.

Lemma toString_fromString_roundtrip_witness :
  log_accurate ref_log /\ pow_exact ref_pow
  /\ 2 <= 16 <= 35 /\ wf (fromInt (- 255))
  /\ exists fuel0, forall fuel, (fuel0 <= fuel)%nat ->
       (s <- toString_fuel ref_log ref_pow fuel (fromInt (- 255))
               (Some (Num.ofZ 16)) ;;
        fromString ref_pow s (Some (Num.ofZ 16))) = Ret (fromInt (- 255)).
Proof.
  assert (B : 2 <= 16 <= 35) by (split; vm_compute; discriminate).
  assert (W : wf (fromInt (- 255))) by (vm_compute; intuition discriminate).
  split; [exact RefHost.ref_log_accurate|].
  split; [exact RefHost.ref_pow_exact|].
  split; [exact B|]. split; [exact W|].
  exact (toString_fromString_roundtrip ref_log ref_pow 16 (fromInt (- 255))
           RefHost.ref_log_accurate RefHost.ref_pow_exact B W).
Defined.

(** X19. [toJSON], like [toString] without a radix, writes the decimal
    numeral of the value, signed with '-', and [fromString] without a radix
    reads it back to the value. *)
Theorem toJSON_is_decimal (Math_log : number -> number)
    (Math_pow : number -> number -> number) (x : Timestamp) :
  log_accurate Math_log -> pow_exact Math_pow -> wf x ->
  exists fuel0 S,
    (forall fuel, (fuel0 <= fuel)%nat ->
       toJSON_fuel Math_log Math_pow fuel x
       = Ret (if toZ x <? 0 then String "-"%char S else S))
    /\ is_numeral 10 S = true
    /\ S <> EmptyString
    /\ numeral_value 10 S 0 = Z.abs (toZ x)
    /\ fromString Math_pow (if toZ x <? 0 then String "-"%char S else S) None
       = Ret x.
Proof.
  intros Hlog Hpow Hx.
  assert (B : 2 <= 10 <= 35) by lia.
  destruct (Print.toString_spec Math_log Math_pow Hlog Hpow 10 B x Hx)
    as (f0 & S & HS & N & L & V).
  destruct (RoundTrip.read_back Math_log Math_pow Hlog Hpow 10 x B Hx)
    as (f1 & s & Hs & E).
  assert (Es : s = if toZ x <? 0 then String "-"%char S else S).
  { pose proof (HS (Nat.max f0 f1) ltac:(lia)) as A1.
    pose proof (Hs (Nat.max f0 f1) ltac:(lia)) as A2.
    rewrite A1 in A2. now injection A2. }
  exists f0, S. split; [|split; [exact N|split; [|split; [exact V|]]]].
  - intros fuel Hf. unfold toJSON_fuel. rewrite RoundTrip.toString_default. exact (HS fuel Hf).
  - intros ->. unfold len in L. simpl in L. lia.
  - rewrite RoundTrip.fromString_default, <- Es. exact E.
Qed.

Lemma toJSON_is_decimal_witness :
  log_accurate ref_log /\ pow_exact ref_pow /\ wf (fromInt (- 42))
  /\ exists fuel0 S,
       (forall fuel, (fuel0 <= fuel)%nat ->
          toJSON_fuel ref_log ref_pow fuel (fromInt (- 42))
          = Ret (String "-"%char S))
       /\ is_numeral 10 S = true
       /\ S <> EmptyString
       /\ numeral_value 10 S 0 = 42
       /\ fromString ref_pow (String "-"%char S) None = Ret (fromInt (- 42)).
Proof.
  assert (W : wf (fromInt (- 42))) by (vm_compute; intuition discriminate).
  split; [exact RefHost.ref_log_accurate|].
  split; [exact RefHost.ref_pow_exact|]. split; [exact W|].
  exact (toJSON_is_decimal ref_log ref_pow (fromInt (- 42))
           RefHost.ref_log_accurate RefHost.ref_pow_exact W).
Defined.


(** ** The two words and the tests on them *)

Module Words.

Import Exact Int64.

Lemma toZ_fromBits lo hi :
  toZ (fromBits lo hi) = wrap64 (hi * 2 ^ 32 + lo mod 2 ^ 32).
Proof.
  unfold fromBits. rewrite toZ_new_Timestamp.
  unfold JS.toInt32, JS.toUint32, wrap64.
  pow2. Z.div_mod_to_equations. lia.
Qed.

Lemma fromBits_words x : wf x -> fromBits (getLowBits x) (getHighBits x) = x.
Proof.
  intros [Hl Hh]. destruct x as [l h]. cbn in *.
  unfold fromBits, new_Timestamp.
  now rewrite !JSFacts.or_0, !JSFacts.toInt32_id by assumption.
Qed.

Lemma high_word x : wf x -> getHighBits x = toZ x / 2 ^ 32.
Proof.
  intros Hx. rewrite toZ_wf by assumption. unfold getHighBits.
  pose proof (Z.mod_pos_bound (low_ x) (2 ^ 32) ltac:(lia)).
  rewrite Z.add_comm, Z.div_add by lia.
  rewrite Z.div_small by lia. reflexivity.
Qed.

Lemma low_word x : wf x -> getLowBits x = JS.toInt32 (toZ x).
Proof.
  intros Hx. rewrite toZ_wf by assumption. destruct Hx as [Hl Hh].
  unfold getLowBits, JS.toInt32.
  replace (high_ x * 2 ^ 32 + low_ x mod 2 ^ 32 + 2 ^ 31)
    with (low_ x mod 2 ^ 32 + 2 ^ 31 + high_ x * 2 ^ 32) by ring.
  rewrite Z.mod_add by lia.
  rewrite Z.add_mod_idemp_l by lia.
  rewrite Z.mod_small by lia. ring.
Qed.

Lemma low_word_unsigned x :
  wf x -> getLowBitsUnsigned x = Num.ofZ (toZ x mod 2 ^ 32).
Proof.
  intros Hx. rewrite toZ_wf by assumption. destruct Hx as [Hl Hh].
  rewrite Z.add_comm, Z.mod_add by lia. rewrite Z.mod_mod by lia.
  unfold getLowBitsUnsigned. destruct (Z.leb_spec 0 (low_ x)).
  - rewrite Z.mod_small by lia. reflexivity.
  - change TWO_PWR_32_DBL_ with (Num.ofZ (2 ^ 32)).
    rewrite add_exact by (apply exactZ_small; pow2; lia).
    f_equal.
    replace (low_ x) with (2 ^ 32 + low_ x + (-1) * 2 ^ 32) at 2 by ring.
    rewrite Z.mod_add by lia. rewrite Z.mod_small by lia. reflexivity.
Qed.

End Words.

(** X20. The constructor reached through [fromBits] keeps the low 32 bits of
    each argument: the value built is the 64-bit integer with those two
    words.  On a normalised value [getHighBits] is the value divided by 2^32
    rounded down, [getLowBits] the value wrapped to 32 signed bits,
    [getLowBitsUnsigned] the value modulo 2^32, and [fromBits] on the two
    words gives the value back. *)
Theorem fromBits_and_word_accessors (lo hi : Z) (x : Timestamp) :
  wf x ->
  wf (fromBits lo hi)
  /\ toZ (fromBits lo hi) = wrap64 (hi * 2 ^ 32 + lo mod 2 ^ 32)
  /\ getLowBits (fromBits lo hi) = JS.toInt32 lo
  /\ getHighBits (fromBits lo hi) = JS.toInt32 hi
  /\ fromBits (getLowBits x) (getHighBits x) = x
  /\ getHighBits x = toZ x / 2 ^ 32
  /\ getLowBits x = JS.toInt32 (toZ x)
  /\ getLowBitsUnsigned x = Num.ofZ (toZ x mod 2 ^ 32).
Proof.
  intros Hx.
  split; [apply new_Timestamp_wf|].
  split; [apply Words.toZ_fromBits|].
  split; [apply JSFacts.or_0|]. split; [apply JSFacts.or_0|].
  split; [now apply Words.fromBits_words|].
  split; [now apply Words.high_word|].
  split; [now apply Words.low_word|].
  now apply Words.low_word_unsigned.
Qed.

Lemma fromBits_and_word_accessors_witness :
  wf (fromInt (- 2))
  /\ wf (fromBits 4294967297 (- 4294967295))
  /\ toZ (fromBits 4294967297 (- 4294967295)) = 4294967297
  /\ getLowBits (fromBits 4294967297 (- 4294967295)) = 1
  /\ getHighBits (fromBits 4294967297 (- 4294967295)) = 1
  /\ fromBits (getLowBits (fromInt (- 2))) (getHighBits (fromInt (- 2)))
     = fromInt (- 2)
  /\ getHighBits (fromInt (- 2)) = - 1
  /\ getLowBits (fromInt (- 2)) = - 2
  /\ getLowBitsUnsigned (fromInt (- 2)) = Num.ofZ 4294967294.
Proof.
  assert (W : wf (fromInt (- 2))) by (vm_compute; intuition discriminate).
  split; [exact W|].
  exact (fromBits_and_word_accessors 4294967297 (- 4294967295)
           (fromInt (- 2)) W).
Defined.

(** X21. On a normalised value [isZero] holds exactly for the value 0,
    [isNegative] exactly for the values below 0 and [isOdd] exactly for the
    odd values; every value lies between [MIN_VALUE], which is -2^63, and
    [MAX_VALUE], which is 2^63 - 1, under [lessThanOrEqual] and
    [greaterThanOrEqual]. *)
Theorem sign_zero_parity_tests (x : Timestamp) :
  wf x ->
  isZero x = (toZ x =? 0)
  /\ isNegative x = (toZ x <? 0)
  /\ isOdd x = Z.odd (toZ x)
  /\ toZ MIN_VALUE = - 2 ^ 63 /\ toZ MAX_VALUE = 2 ^ 63 - 1
  /\ lessThanOrEqual MIN_VALUE x = true
  /\ greaterThanOrEqual MAX_VALUE x = true.
Proof.
  intros Hx. pose proof (Int64.toZ_range x) as R.
  split; [now apply Int64.isZero_spec|].
  split; [now apply Int64.isNegative_spec|].
  split; [apply Int64.isOdd_spec|].
  split; [reflexivity|]. split; [reflexivity|].
  split.
  - unfold lessThanOrEqual.
    pose proof (Int64.compare_spec MIN_VALUE x Int64.MIN_VALUE_wf Hx) as C.
    change (toZ MIN_VALUE) with (- 2 ^ 63) in C.
    destruct (Z.compare_spec (- 2 ^ 63) (toZ x)); rewrite C;
      try reflexivity; lia.
  - unfold greaterThanOrEqual.
    pose proof (Int64.compare_spec MAX_VALUE x Int64.MAX_VALUE_wf Hx) as C.
    change (toZ MAX_VALUE) with (2 ^ 63 - 1) in C.
    destruct (Z.compare_spec (2 ^ 63 - 1) (toZ x)); rewrite C;
      try reflexivity; lia.
Qed.

Lemma sign_zero_parity_tests_witness :
  wf (fromInt (- 3))
  /\ isZero (fromInt (- 3)) = false
  /\ isNegative (fromInt (- 3)) = true
  /\ isOdd (fromInt (- 3)) = true
  /\ toZ MIN_VALUE = - 2 ^ 63 /\ toZ MAX_VALUE = 2 ^ 63 - 1
  /\ lessThanOrEqual MIN_VALUE (fromInt (- 3)) = true
  /\ greaterThanOrEqual MAX_VALUE (fromInt (- 3)) = true.
Proof.
  assert (W : wf (fromInt (- 3))) by (vm_compute; intuition discriminate).
  split; [exact W|].
  exact (sign_zero_parity_tests (fromInt (- 3)) W).
Defined.

